(** * lua_mpfr: the Lua binding of the MPFR engine (src/lua_mpfr.c)

    A shallow embedding of the dispatcher and of the textual converter of
    the binding.  The host runtime (the Lua C API) is modelled on argument
    lists; the arithmetic engine is external to the binding and enters as
    Section variables named after its primitives.  A reference semantics
    of the primitives used by the numeric statements (correct rounding on
    dyadic numbers) is given in [Module Ref]. *)

From Stdlib Require Import ZArith List String Ascii Bool Lia.
From Stdlib Require Import Floats.SpecFloat.
From Stdlib Require Import Numbers.DecimalString Numbers.DecimalPos.
From Stdlib Require Import Reals Lra.
Import ListNotations.

Local Open Scope string_scope.
Local Open Scope Z_scope.

(** ** C integer types *)

(** [long] is 64 bits wide on LP64 hosts and 32 bits wide on LLP64 hosts;
    [lua_Integer] is 64 bits wide on both. *)
Inductive data_model := LP64 | LLP64.

Definition long_bits (dm : data_model) : Z :=
  match dm with LP64 => 64 | LLP64 => 32 end.

Definition LONG_MAX (dm : data_model) : Z := 2 ^ (long_bits dm - 1) - 1.
Definition LONG_MIN (dm : data_model) : Z := - 2 ^ (long_bits dm - 1).
Definition ULONG_MAX (dm : data_model) : Z := 2 ^ long_bits dm - 1.

Definition LUA_MAXINTEGER : Z := 2 ^ 63 - 1.
Definition LUA_MININTEGER : Z := - 2 ^ 63.

(** Conversion to a signed type of [bits] bits (two's complement). *)
Definition wrap_signed (bits x : Z) : Z :=
  (x + 2 ^ (bits - 1)) mod 2 ^ bits - 2 ^ (bits - 1).

(** Conversion to an unsigned type of [bits] bits. *)
Definition wrap_unsigned (bits x : Z) : Z := x mod 2 ^ bits.

Definition to_long (dm : data_model) (x : Z) : Z := wrap_signed (long_bits dm) x.
Definition to_ulong (dm : data_model) (x : Z) : Z := wrap_unsigned (long_bits dm) x.
Definition to_int (x : Z) : Z := wrap_signed 32 x.
Definition to_size_t (x : Z) : Z := wrap_unsigned 64 x.

(** ** Rounding modes *)

(** mpfr_rnd_t, with the integer of each mode. *)
Inductive mpfr_rnd_t := MPFR_RNDN | MPFR_RNDZ | MPFR_RNDU | MPFR_RNDD | MPFR_RNDA.

Definition rnd_code (r : mpfr_rnd_t) : Z :=
  match r with
  | MPFR_RNDN => 0
  | MPFR_RNDZ => 1
  | MPFR_RNDU => 2
  | MPFR_RNDD => 3
  | MPFR_RNDA => 4
  end.

(** ** Host values *)

Definition double := spec_float.
Definition addr := nat.

(** A host value on the stack.  A full userdata carries the registry name
    of its metatable and the address of its block. *)
Inductive lua_value :=
| LNil
| LBoolean (b : bool)
| LInteger (i : Z)
| LFloat (x : double)
| LString (s : string)
| LTable (id : nat)
| LUserdata (tname : string) (p : addr).

(** #define MPFR "mpfr_t" *)
Definition MPFR : string := "mpfr_t".

Definition handle (p : addr) : lua_value := LUserdata MPFR p.

(** The condition raised by [luaL_argerror (L, arg, extramsg)]:
    "bad argument #arg to 'f' (extramsg)". *)
Record lua_error := ArgError { err_arg : nat; err_msg : string }.

(** ** Numbers of the host *)

(** The exact integer value of a double, when it has one in the range of
    [lua_Integer] (lua_numbertointeger after an exactness test). *)
Definition float_to_integer (x : double) : option Z :=
  match x with
  | S754_zero _ => Some 0
  | S754_finite s m e =>
      let v :=
        if 0 <=? e then Some (Zpos m * 2 ^ e)
        else if (Zpos m) mod 2 ^ (- e) =? 0 then Some (Zpos m / 2 ^ (- e))
        else None in
      match v with
      | Some a =>
          let a := if s then - a else a in
          if (LUA_MININTEGER <=? a) && (a <=? LUA_MAXINTEGER) then Some a else None
      | None => None
      end
  | _ => None
  end.

(** The cast from [lua_Integer] to [lua_Number] (round to nearest even). *)
Definition integer_to_float (i : Z) : double :=
  binary_normalize 53 1024 i 0 false.

(** Decimal rendering of a [lua_Integer] (LUA_INTEGER_FMT). *)
Definition lua_Integer2str (i : Z) : string :=
  NilZero.string_of_int (Z.to_int i).

(** ** Character buffers *)

Definition NUL : ascii := Ascii.zero.

(** [*(mem + off)], read and written; an access outside the block has no
    defined result. *)
Definition peek (mem : list ascii) (off : nat) : option ascii := nth_error mem off.

Definition poke (mem : list ascii) (off : nat) (c : ascii) : option (list ascii) :=
  if Nat.ltb off (List.length mem)
  then Some (firstn off mem ++ c :: skipn (S off) mem)%list
  else None.

Fixpoint poke_list (mem : list ascii) (off : nat) (cs : list ascii) : option (list ascii) :=
  match cs with
  | [] => Some mem
  | c :: cs' =>
      match poke mem off c with
      | Some mem' => poke_list mem' (S off) cs'
      | None => None
      end
  end.

(** A C string stored at [mem + off] with its terminator. *)
Definition write_cstr (mem : list ascii) (off : nat) (s : string) : option (list ascii) :=
  poke_list mem off (list_ascii_of_string s ++ [NUL])%list.

(** strlen: the number of characters before the first terminator. *)
Fixpoint strlen (mem : list ascii) : option nat :=
  match mem with
  | [] => None
  | c :: mem' => if Ascii.eqb c NUL then Some O else option_map S (strlen mem')
  end.

Definition strlen_at (mem : list ascii) (off : nat) : option nat :=
  strlen (skipn off mem).

(** ** State and control *)

Section Host.

(** The type of the engine's numeric cells (mpfr_t). *)
Variable cell : Type.

(** The state a call can observe and change: the cells owned by the
    handles and the engine's default rounding mode. *)
Record lua_State := mkState {
  heap : addr -> cell;
  default_rounding_mode : Z
}.

Definition set_cell (L : lua_State) (p : addr) (c : cell) : lua_State :=
  mkState (fun q => if Nat.eqb q p then c else heap L q)
          (default_rounding_mode L).

(** A call returns, raises a host error (carrying the state at the time
    of the raise), or has no defined behaviour in C. *)
Inductive outcome (A : Type) :=
| Ret (a : A) (L : lua_State)
| Raise (e : lua_error) (L : lua_State)
| Undef.
Arguments Ret {A} a L.
Arguments Raise {A} e L.
Arguments Undef {A}.

Definition lua_M (A : Type) := lua_State -> outcome A.

Definition ret {A} (a : A) : lua_M A := fun L => Ret a L.

Definition bind {A B} (c : lua_M A) (k : A -> lua_M B) : lua_M B :=
  fun L => match c L with
           | Ret a L' => k a L'
           | Raise e L' => Raise e L'
           | Undef => Undef
           end.

Definition luaL_argerror {A} (arg : nat) (extramsg : string) : lua_M A :=
  fun L => Raise (ArgError arg extramsg) L.

Definition undefined {A} : lua_M A := fun _ => Undef.

(** luaL_argcheck (L, cond, arg, extramsg) *)
Definition luaL_argcheck (cond : bool) (arg : nat) (extramsg : string) : lua_M unit :=
  if cond then ret tt else luaL_argerror arg extramsg.

Definition load (p : addr) : lua_M cell := fun L => Ret (heap L p) L.
Definition store (p : addr) (c : cell) : lua_M unit := fun L => Ret tt (set_cell L p c).

(** A step that is defined only when [o] is. *)
Definition defined {A} (o : option A) : lua_M A :=
  match o with
  | Some a => ret a
  | None => undefined
  end.

Definition mpfr_get_default_rounding_mode : lua_M Z :=
  fun L => Ret (default_rounding_mode L) L.

End Host.

Arguments mkState {cell} heap default_rounding_mode.
Arguments heap {cell} l p.
Arguments default_rounding_mode {cell} l.
Arguments set_cell {cell} L p c.
Arguments Ret {cell A} a L.
Arguments Raise {cell A} e L.
Arguments Undef {cell A}.
Arguments ret {cell A} a L.
Arguments bind {cell A B} c k L.
Arguments luaL_argerror {cell A} arg extramsg L.
Arguments undefined {cell A} L.
Arguments luaL_argcheck {cell} cond arg extramsg L.
Arguments load {cell} p L.
Arguments store {cell} p c L.
Arguments defined {cell A} o L.
Arguments mpfr_get_default_rounding_mode {cell} L.

Notation "x <- c1 ;; c2" := (bind c1 (fun x => c2))
  (at level 100, c1 at next level, right associativity).
Notation "c1 ;;; c2" := (bind c1 (fun _ => c2))
  (at level 100, right associativity).

(** ** Reference semantics of the engine

    The engine is an external library; the binding only selects and
    calls its primitives.  [Ref] gives the documented meaning of the
    primitives that the numeric statements below rely on: the exact
    result, rounded to the precision of the destination in the requested
    direction.  The exponent range is taken unbounded (no overflow or
    underflow), and NaN carries no sign. *)

Module Ref.

(** The content of a cell: NaN, a signed infinity, a signed zero, or the
    regular number (-1)^neg * m * 2^e with m odd. *)
Inductive fval :=
| NaN
| Inf (neg : bool)
| Zero (neg : bool)
| Num (neg : bool) (m : positive) (e : Z).

(** A cell: a precision of at least one bit (MPFR_PREC_MIN) and a value. *)
Record cell := mkCell { prec : positive; val : fval }.

(** The rounding mode an [int] designates; an [int] that designates none
    is read as rounding to nearest. *)
Definition rnd_of_int (r : Z) : mpfr_rnd_t :=
  match r with
  | 1 => MPFR_RNDZ
  | 2 => MPFR_RNDU
  | 3 => MPFR_RNDD
  | 4 => MPFR_RNDA
  | _ => MPFR_RNDN
  end.

Fixpoint odd_part (m : positive) (e : Z) : positive * Z :=
  match m with
  | xO m' => odd_part m' (e + 1)
  | _ => (m, e)
  end.

(** The value (-1)^neg * m * 2^e in canonical form, for m >= 0. *)
Definition mk_num (neg : bool) (m e : Z) : fval :=
  match m with
  | Zpos q => let '(q', e') := odd_part q e in Num neg q' e'
  | _ => Zero neg
  end.

(** Whether the quotient [q] with remainder [rem] by [D] is rounded up in
    magnitude. *)
Definition round_up (r : mpfr_rnd_t) (neg : bool) (q rem D : Z) : bool :=
  match r with
  | MPFR_RNDN => (D <? 2 * rem) || ((2 * rem =? D) && Z.odd q)
  | MPFR_RNDZ => false
  | MPFR_RNDA => negb (rem =? 0)
  | MPFR_RNDU => negb neg && negb (rem =? 0)
  | MPFR_RNDD => neg && negb (rem =? 0)
  end.

(** The numerator and denominator of n / (d * 2^k). *)
Definition scale (n d k : Z) : Z * Z :=
  if 0 <=? k then (n, d * 2 ^ k) else (n * 2 ^ (- k), d).

(** (-1)^neg * (n / d) * 2^e rounded to [p] bits, for n, d > 0: the
    quotient is scaled into [2^(p-1), 2^p) and rounded to an integer. *)
Definition round_ratio (p : Z) (r : mpfr_rnd_t) (neg : bool) (n d e : Z) : fval :=
  let k0 := Z.log2 n - Z.log2 d - p in
  let k := let '(N, D) := scale n d k0 in
           if 2 ^ p * D <=? N then k0 + 1 else k0 in
  let '(N, D) := scale n d k in
  let q := N / D in
  let rem := N mod D in
  mk_num neg (if round_up r neg q rem D then q + 1 else q) (k + e).

(** The scale at which [round_ratio] takes the quotient of n by d. *)
Definition chosen_scale (p n d : Z) : Z :=
  let k0 := Z.log2 n - Z.log2 d - p in
  let '(N, D) := scale n d k0 in
  if 2 ^ p * D <=? N then k0 + 1 else k0.

(** The quotient of n by d at scale k lies in [2^(p-1), 2^p). *)
Definition in_binade (p n d k : Z) : Prop :=
  2 ^ (p - 1) * snd (scale n d k) <= fst (scale n d k)
  /\ fst (scale n d k) < 2 ^ p * snd (scale n d k).

(** A value rounded to [p] bits. *)
Definition fround (p : Z) (r : mpfr_rnd_t) (x : fval) : fval :=
  match x with
  | Num neg m e => round_ratio p r neg (Zpos m) 1 e
  | _ => x
  end.

Definition fneg (x : fval) : fval :=
  match x with
  | NaN => NaN
  | Inf neg => Inf (negb neg)
  | Zero neg => Zero (negb neg)
  | Num neg m e => Num (negb neg) m e
  end.

Definition signed (neg : bool) (m : Z) : Z := if neg then - m else m.

(** The sign of an exact zero sum of opposite terms: negative only when
    rounding toward minus infinity. *)
Definition zero_sum_sign (r : mpfr_rnd_t) : bool :=
  match r with MPFR_RNDD => true | _ => false end.

(** x + y rounded to [p] bits (the IEEE 754 rules for the special values
    and for the sign of zero). *)
Definition fadd (p : Z) (r : mpfr_rnd_t) (x y : fval) : fval :=
  match x, y with
  | NaN, _ | _, NaN => NaN
  | Inf a, Inf b => if Bool.eqb a b then Inf a else NaN
  | Inf a, _ => Inf a
  | _, Inf b => Inf b
  | Zero a, Zero b => if Bool.eqb a b then Zero a else Zero (zero_sum_sign r)
  | Zero _, Num _ _ _ => fround p r y
  | Num _ _ _, Zero _ => fround p r x
  | Num nx mx ex, Num ny my ey =>
      let e := Z.min ex ey in
      let s := signed nx (Zpos mx * 2 ^ (ex - e))
               + signed ny (Zpos my * 2 ^ (ey - e)) in
      match s with
      | Z0 => Zero (zero_sum_sign r)
      | Zpos a => round_ratio p r false (Zpos a) 1 e
      | Zneg a => round_ratio p r true (Zpos a) 1 e
      end
  end.

Definition fsub (p : Z) (r : mpfr_rnd_t) (x y : fval) : fval :=
  fadd p r x (fneg y).

Definition of_Z (n : Z) : fval :=
  match n with
  | Z0 => Zero false
  | Zpos q => mk_num false (Zpos q) 0
  | Zneg q => mk_num true (Zpos q) 0
  end.

Definition of_double (d : double) : fval :=
  match d with
  | S754_zero s => Zero s
  | S754_infinity s => Inf s
  | S754_nan => NaN
  | S754_finite s m e => mk_num s (Zpos m) e
  end.

(** The rounding mode that rounds -x as [r] rounds x: the two directed
    modes toward the infinities are exchanged. *)
Definition mirror (r : mpfr_rnd_t) : mpfr_rnd_t :=
  match r with
  | MPFR_RNDU => MPFR_RNDD
  | MPFR_RNDD => MPFR_RNDU
  | _ => r
  end.

(** Two contents that denote the same number: identical, or both zero. *)
Definition same_number (x y : fval) : Prop :=
  x = y \/ exists a b, x = Zero a /\ y = Zero b.

(** The largest precision of a cell (MPFR_PREC_MAX on a host whose
    precisions are 64 bits wide). *)
Definition MPFR_PREC_MAX : Z := 2 ^ 63 - 257.

(** A cell as the engine keeps it: a regular value is in canonical form
    and fits the precision of the cell, which is at most MPFR_PREC_MAX. *)
Definition canonical (z : cell) : bool :=
  (Zpos (prec z) <=? MPFR_PREC_MAX)
  && match val z with
     | Num _ m _ =>
         match m with xO _ => false | _ => true end
         && (Zpos (Pos.size m) <=? Zpos (prec z))
     | _ => true
     end.

(** *** Assignment *)

Definition put (z : cell) (v : fval) : cell := mkCell (prec z) v.

Definition mpfr_set (z x : cell) (r : Z) : cell :=
  put z (fround (Zpos (prec z)) (rnd_of_int r) (val x)).

Definition mpfr_set_si (z : cell) (n r : Z) : cell :=
  put z (fround (Zpos (prec z)) (rnd_of_int r) (of_Z n)).

Definition mpfr_set_d (z : cell) (d : double) (r : Z) : cell :=
  put z (fround (Zpos (prec z)) (rnd_of_int r) (of_double d)).

Definition mpfr_neg (z x : cell) (r : Z) : cell :=
  put z (fround (Zpos (prec z)) (rnd_of_int r) (fneg (val x))).

(** *** Addition and subtraction

    An integer operand has no signed zero: adding or subtracting the
    integer 0 keeps the sign of a zero, 0 - x is the negation of x. *)

Definition mpfr_add (z x y : cell) (r : Z) : cell :=
  put z (fadd (Zpos (prec z)) (rnd_of_int r) (val x) (val y)).

Definition mpfr_sub (z x y : cell) (r : Z) : cell :=
  put z (fsub (Zpos (prec z)) (rnd_of_int r) (val x) (val y)).

Definition mpfr_add_si (z x : cell) (n r : Z) : cell :=
  put z (if n =? 0 then fround (Zpos (prec z)) (rnd_of_int r) (val x)
         else fadd (Zpos (prec z)) (rnd_of_int r) (val x) (of_Z n)).

Definition mpfr_sub_si (z x : cell) (n r : Z) : cell :=
  put z (if n =? 0 then fround (Zpos (prec z)) (rnd_of_int r) (val x)
         else fsub (Zpos (prec z)) (rnd_of_int r) (val x) (of_Z n)).

Definition mpfr_si_sub (z : cell) (n : Z) (x : cell) (r : Z) : cell :=
  put z (if n =? 0 then fround (Zpos (prec z)) (rnd_of_int r) (fneg (val x))
         else fsub (Zpos (prec z)) (rnd_of_int r) (of_Z n) (val x)).

Definition mpfr_add_d (z x : cell) (d : double) (r : Z) : cell :=
  put z (fadd (Zpos (prec z)) (rnd_of_int r) (val x) (of_double d)).

Definition mpfr_sub_d (z x : cell) (d : double) (r : Z) : cell :=
  put z (fsub (Zpos (prec z)) (rnd_of_int r) (val x) (of_double d)).

Definition mpfr_d_sub (z : cell) (d : double) (x : cell) (r : Z) : cell :=
  put z (fsub (Zpos (prec z)) (rnd_of_int r) (of_double d) (val x)).

(** *** Integer powers *)

(** x^n for a machine integer n: 1 when n = 0, whatever x; the sign of the
    result is that of x when n is odd. *)
Definition fpow_int (p : Z) (r : mpfr_rnd_t) (x : fval) (n : Z) : fval :=
  if n =? 0 then Num false 1 0
  else
    match x with
    | NaN => NaN
    | Inf neg => if 0 <? n then Inf (neg && Z.odd n) else Zero (neg && Z.odd n)
    | Zero neg => if 0 <? n then Zero (neg && Z.odd n) else Inf (neg && Z.odd n)
    | Num neg m e =>
        if 0 <? n
        then round_ratio p r (neg && Z.odd n) (Zpos m ^ n) 1 (e * n)
        else round_ratio p r (neg && Z.odd n) 1 (Zpos m ^ (- n)) (e * n)
    end.

Definition mpfr_pow_si (z x : cell) (n r : Z) : cell :=
  put z (fpow_int (Zpos (prec z)) (rnd_of_int r) (val x) n).

Definition mpfr_pow_ui (z x : cell) (n r : Z) : cell :=
  put z (fpow_int (Zpos (prec z)) (rnd_of_int r) (val x) n).

Definition mpfr_ui_pow_ui (z : cell) (a b r : Z) : cell :=
  put z (fround (Zpos (prec z)) (rnd_of_int r) (of_Z (a ^ b))).

(** *** Predicates *)

Definition mpfr_number_p (z : cell) : bool :=
  match val z with NaN | Inf _ => false | _ => true end.

Definition mpfr_zero_p (z : cell) : bool :=
  match val z with Zero _ => true | _ => false end.

Definition mpfr_signbit (z : cell) : bool :=
  match val z with
  | NaN => false
  | Inf neg | Zero neg | Num neg _ _ => neg
  end.

Definition mpfr_get_prec (z : cell) : Z := Zpos (prec z).

(** *** Conversion from text

    The layout [ws][sign]digits[.digits][exponent] of the engine's
    grammar, the exponent being introduced by [e] or [E] in bases up to
    10 and by [@] in every base, and written in base 10.  The special
    tokens and the 0x / 0b prefixes of the grammar are left out. *)

Definition is_space (c : ascii) : bool :=
  let n := Z.of_N (N_of_ascii c) in
  (n =? 32) || ((9 <=? n) && (n <=? 13)).

(** The value of a digit: letters stand for 10 to 35 whatever their case
    in bases up to 36; above, upper case stands for 10 to 35 and lower
    case for 36 to 61. *)
Definition digit_value (b : Z) (c : ascii) : option Z :=
  let n := Z.of_N (N_of_ascii c) in
  let v :=
    if (48 <=? n) && (n <=? 57) then Some (n - 48)
    else if (65 <=? n) && (n <=? 90) then Some (n - 55)
    else if (97 <=? n) && (n <=? 122)
         then Some (if b <=? 36 then n - 87 else n - 61)
    else None in
  match v with
  | Some d => if d <? b then Some d else None
  | None => None
  end.

Fixpoint skip_space (l : list ascii) : list ascii :=
  match l with
  | c :: l' => if is_space c then skip_space l' else l
  | [] => []
  end.

Definition read_sign (l : list ascii) : bool * list ascii :=
  match l with
  | "-"%char :: l' => (true, l')
  | "+"%char :: l' => (false, l')
  | _ => (false, l)
  end.

(** The digits at the head of [l]: their value after [acc], how many they
    are after [cnt], and what follows them. *)
Fixpoint read_digits (b : Z) (l : list ascii) (acc cnt : Z) : Z * Z * list ascii :=
  match l with
  | c :: l' =>
      match digit_value b c with
      | Some d => read_digits b l' (acc * b + d) (cnt + 1)
      | None => (acc, cnt, l)
      end
  | [] => (acc, cnt, [])
  end.

(** The significand: its digits as an integer, the number of digits after
    the point, and what follows; at least one digit is required. *)
Definition read_mantissa (b : Z) (l : list ascii) : option (Z * Z * list ascii) :=
  let '(m1, c1, l1) := read_digits b l 0 0 in
  match l1 with
  | "."%char :: l2 =>
      let '(m2, c2, l3) := read_digits b l2 m1 0 in
      if 0 <? c1 + c2 then Some (m2, c2, l3) else None
  | _ => if 0 <? c1 then Some (m1, 0, l1) else None
  end.

Definition is_exp_mark (b : Z) (c : ascii) : bool :=
  Ascii.eqb c "@" || ((b <=? 10) && (Ascii.eqb c "e" || Ascii.eqb c "E")).

(** The exponent, when a complete one follows; nothing is consumed
    otherwise. *)
Definition read_exponent (b : Z) (l : list ascii) : Z * list ascii :=
  match l with
  | c :: l1 =>
      if is_exp_mark b c then
        let '(neg, l2) := read_sign l1 in
        let '(x, cnt, l3) := read_digits 10 l2 0 0 in
        if 0 <? cnt then (signed neg x, l3) else (0, l)
      else (0, l)
  | [] => (0, [])
  end.

(** (-1)^neg * m * b^k rounded to [p] bits, for m >= 0. *)
Definition read_value (p : Z) (r : mpfr_rnd_t) (neg : bool) (m k b : Z) : fval :=
  if m =? 0 then Zero neg
  else if 0 <=? k then round_ratio p r neg (m * b ^ k) 1 0
  else round_ratio p r neg m (b ^ (- k)) 0.

(** mpfr_set_str: 0 when the whole string is a number, -1 otherwise.  The
    empty string is refused at once; in the other cases the destination
    receives the number read at the head of the string, zero when there
    is none. *)
Definition mpfr_set_str (z : cell) (s : string) (b r : Z) : cell * Z :=
  match list_ascii_of_string s with
  | [] => (z, -1)
  | l =>
      let '(neg, l1) := read_sign (skip_space l) in
      match read_mantissa b l1 with
      | None => (put z (Zero false), -1)
      | Some (m, f, l2) =>
          let '(x, l3) := read_exponent b l2 in
          let v := read_value (Zpos (prec z)) (rnd_of_int r) neg m (x - f) b in
          (put z v, match l3 with [] => 0 | _ => -1 end)
      end
  end.

(** *** Conversion to text *)

Definition digit_char (b d : Z) : ascii :=
  ascii_of_N (Z.to_N (if d <? 10 then 48 + d
                      else if b <=? 36 then 87 + d
                      else if d <? 36 then 55 + d
                      else 61 + d)).

(** The [n] digits of [D] in base [b], most significant first. *)
Fixpoint digits_of (b : Z) (n : nat) (D : Z) (acc : list ascii) : list ascii :=
  match n with
  | O => acc
  | S n' => digits_of b n' (D / b) (digit_char b (D mod b) :: acc)
  end.

(** The first k from [k] on, within [fuel] steps, for which [ok] holds. *)
Fixpoint least_from (fuel : nat) (k : Z) (ok : Z -> bool) : Z :=
  match fuel with
  | O => k
  | S fuel' => if ok k then k else least_from fuel' (k + 1) ok
  end.

(** ceil (p * log 2 / log b): the least k with 2^p <= b^k. *)
Definition ceil_log_ratio (p b : Z) : Z :=
  least_from (Z.to_nat p) 0 (fun k => 2 ^ p <=? b ^ k).

(** The number of digits chosen when none is requested: enough for the
    value to be read back at the same precision. *)
Definition get_str_ndigits (b p : Z) : Z :=
  1 + ceil_log_ratio (if 2 ^ Z.log2 b =? b then p - 1 else p) b.

(** m * 2^e < b^E *)
Definition lt_pow (m e b E : Z) : bool :=
  m * 2 ^ Z.max e 0 * b ^ Z.max (- E) 0 <? b ^ Z.max E 0 * 2 ^ Z.max (- e) 0.

(** The integer D of N digits in base b and the exponent E such that
    m * 2^e rounds to D * b^(E - N): E is the least exponent with
    m * 2^e < b^E, and a D that rounds up to b^N moves to the next
    exponent. *)
Definition get_digits (b N : Z) (r : mpfr_rnd_t) (neg : bool) (m : positive) (e : Z)
  : Z * Z :=
  let a := Z.log2 (Zpos m) + e in
  let E := least_from (Z.to_nat (Z.abs a + 2)) (Z.min a 0) (lt_pow (Zpos m) e b) in
  let num := Zpos m * 2 ^ Z.max e 0 * b ^ Z.max (N - E) 0 in
  let den := 2 ^ Z.max (- e) 0 * b ^ Z.max (E - N) 0 in
  let q := num / den in
  let D := if round_up r neg q (num mod den) den then q + 1 else q in
  if D =? b ^ N then (b ^ (N - 1), E + 1) else (D, E).

(** mpfr_get_str: the digits d1 d2 ... dN (after a minus sign for a
    negative value) and the exponent E such that the value rounds to
    0.d1 d2 ... dN * b^E. *)
Definition mpfr_get_str (b n : Z) (z : cell) (r : Z) : string * Z :=
  let N := if n =? 0 then get_str_ndigits b (Zpos (prec z)) else n in
  match val z with
  | NaN => ("@NaN@", 0)
  | Inf neg => (if neg then "-@Inf@" else "@Inf@", 0)
  | Zero neg =>
      ((if neg then "-" else "")
         ++ string_of_list_ascii (digits_of b (Z.to_nat N) 0 []), 0)
  | Num neg m e =>
      let '(D, E) := get_digits b N (rnd_of_int r) neg m e in
      ((if neg then "-" else "")
         ++ string_of_list_ascii (digits_of b (Z.to_nat N) D []), E)
  end.

(** *** Special values *)

(** mpfr_set_nan, mpfr_set_inf and mpfr_set_zero: the infinity or the
    zero is positive exactly when [sign] is not negative. *)
Definition mpfr_set_nan (z : cell) : cell := put z NaN.

Definition mpfr_set_inf (z : cell) (sign : Z) : cell := put z (Inf (sign <? 0)).

Definition mpfr_set_zero (z : cell) (sign : Z) : cell := put z (Zero (sign <? 0)).

(** *** Precision *)

(** mpfr_set_prec: the precision becomes [p] and the value is lost. *)
Definition mpfr_set_prec (z : cell) (p : Z) : cell := mkCell (Z.to_pos p) NaN.

(** mpfr_prec_round: the precision becomes [p] and the value is rounded
    to it. *)
Definition mpfr_prec_round (z : cell) (p r : Z) : cell :=
  mkCell (Z.to_pos p) (fround (Zpos (Z.to_pos p)) (rnd_of_int r) (val z)).

(** *** Conversion to a machine integer *)

(** The integer a number rounds to in the direction [r]; NaN and the
    infinities round to none. *)
Definition to_integer (r : mpfr_rnd_t) (x : fval) : option Z :=
  match x with
  | NaN | Inf _ => None
  | Zero _ => Some 0
  | Num neg m e =>
      if 0 <=? e then Some (signed neg (Zpos m * 2 ^ e))
      else
        let D := 2 ^ (- e) in
        let q := Zpos m / D in
        Some (signed neg (if round_up r neg q (Zpos m mod D) D then q + 1 else q))
  end.

Definition mpfr_integer_p (z : cell) : bool :=
  match val z with
  | Zero _ => true
  | Num _ _ e => 0 <=? e
  | _ => false
  end.

(** mpfr_fits_slong_p, for a [long] of the data model [dm]. *)
Definition mpfr_fits_slong_p (dm : data_model) (z : cell) (r : Z) : bool :=
  match to_integer (rnd_of_int r) (val z) with
  | Some n => (LONG_MIN dm <=? n) && (n <=? LONG_MAX dm)
  | None => false
  end.

(** mpfr_get_si: 0 for NaN, and the nearest bound of [long] for a value
    that does not fit. *)
Definition mpfr_get_si (dm : data_model) (z : cell) (r : Z) : Z :=
  match val z with
  | NaN => 0
  | Inf neg => if neg then LONG_MIN dm else LONG_MAX dm
  | v => match to_integer (rnd_of_int r) v with
         | Some n => Z.max (LONG_MIN dm) (Z.min n (LONG_MAX dm))
         | None => 0
         end
  end.

(** *** The default rounding mode *)

(** mpfr_set_default_rounding_mode: a value that is no rounding mode of
    the engine (MPFR_RNDN to MPFR_RNDF) leaves the default [d] as it
    is. *)
Definition new_default_rounding_mode (d r : Z) : Z :=
  if (0 <=? r) && (r <=? 5) then r else d.

End Ref.

(** ** The free engine

    Every primitive is an uninterpreted symbol: a cell holds the term
    that records which primitive produced it, from which operands and in
    which rounding mode. *)

Module Sym.

Inductive term :=
| Init (p : addr)
| Int (i : Z)
| Dbl (d : double)
| App (f : string) (r : Z) (z x : term).

Definition cell := term.

Definition mpfr_sqrt (z x : cell) (r : Z) : cell := App "mpfr_sqrt" r z x.
Definition mpfr_sqrt_ui (z : cell) (i r : Z) : cell := App "mpfr_sqrt_ui" r z (Int i).
Definition mpfr_zeta (z x : cell) (r : Z) : cell := App "mpfr_zeta" r z x.
Definition mpfr_zeta_ui (z : cell) (i r : Z) : cell := App "mpfr_zeta_ui" r z (Int i).

(** The state in which every handle owns a fresh cell and the default
    rounding mode is to nearest. *)
Definition init : lua_State cell := mkState Init 0.

End Sym.

(** ** A concrete host

    The conversions between strings and numbers that the closed examples
    below run with.  [str2num] reads the integer numerals of the host
    (l_str2int: decimal or hexadecimal, with an optional sign, between
    optional spaces); the numerals with a fraction or an exponent are
    left out and read as no number.  [number2str] renders a float by
    "%.14g" and appends ".0" to a result that reads as an integer. *)

Module Host.

Definition is_digit (c : ascii) : bool :=
  let n := Z.of_N (N_of_ascii c) in (48 <=? n) && (n <=? 57).

Definition hex_value (c : ascii) : option Z :=
  let n := Z.of_N (N_of_ascii c) in
  if (48 <=? n) && (n <=? 57) then Some (n - 48)
  else if (65 <=? n) && (n <=? 70) then Some (n - 55)
  else if (97 <=? n) && (n <=? 102) then Some (n - 87)
  else None.

Fixpoint read_hex (l : list ascii) (acc : Z) (empty : bool) : Z * bool * list ascii :=
  match l with
  | c :: l' =>
      match hex_value c with
      | Some d => read_hex l' (wrap_unsigned 64 (acc * 16 + d)) false
      | None => (acc, empty, l)
      end
  | [] => (acc, empty, [])
  end.

(** The decimal digits at the head of [l]; no result when the value, of
    sign [neg], leaves the range of lua_Integer. *)
Fixpoint read_dec (neg : bool) (l : list ascii) (acc : Z) (empty : bool)
  : option (Z * bool * list ascii) :=
  match l with
  | c :: l' =>
      if is_digit c then
        let a := acc * 10 + (Z.of_N (N_of_ascii c) - 48) in
        if a <=? (if neg then 2 ^ 63 else 2 ^ 63 - 1)
        then read_dec neg l' a false
        else None
      else Some (acc, empty, l)
  | [] => Some (acc, empty, [])
  end.

(** l_str2int *)
Definition str2int (s : string) : option Z :=
  let '(neg, l) := Ref.read_sign (Ref.skip_space (list_ascii_of_string s)) in
  let r :=
    match l with
    | "0"%char :: "x"%char :: l' | "0"%char :: "X"%char :: l' =>
        Some (read_hex l' 0 true)
    | _ => read_dec neg l 0 true
    end in
  match r with
  | Some (a, empty, rest) =>
      match Ref.skip_space rest with
      | [] => if empty then None
              else Some (wrap_signed 64 (if neg then - a else a))
      | _ => None
      end
  | None => None
  end.

Definition str2num (s : string) : option (Z + double) :=
  match str2int s with
  | Some i => Some (inl i)
  | None => None
  end.

Fixpoint strip_zeros (rev_digits : list ascii) : list ascii :=
  match rev_digits with
  | "0"%char :: l => strip_zeros l
  | _ => rev_digits
  end.

Definition strip_trailing_zeros (l : list ascii) : list ascii :=
  rev (strip_zeros (rev l)).

Definition with_point (int_part frac_part : list ascii) : list ascii :=
  match frac_part with
  | [] => int_part
  | _ => (int_part ++ "."%char :: frac_part)%list
  end.

(** The rendering of a float by "%.14g". *)
Definition fmt_g14 (x : double) : string :=
  match x with
  | S754_nan => "nan"
  | S754_infinity s => if s then "-inf" else "inf"
  | S754_zero s => if s then "-0" else "0"
  | S754_finite s m e =>
      let '(str, E) :=
        Ref.mpfr_get_str 10 14 (Ref.mkCell 53 (Ref.Num false m e)) 0 in
      let ds := list_ascii_of_string str in
      let X := E - 1 in
      let body :=
        if (X <? -4) || (14 <=? X) then
          (with_point (firstn 1 ds) (strip_trailing_zeros (skipn 1 ds))
             ++ "e"%char :: (if X <? 0 then "-"%char else "+"%char)
             :: (if Z.abs X <? 10 then ["0"%char] else [])
             ++ list_ascii_of_string (lua_Integer2str (Z.abs X)))%list
        else if X <? 0 then
          ("0"%char :: "."%char :: repeat "0"%char (Z.to_nat (- X - 1))
             ++ strip_trailing_zeros ds)%list
        else
          with_point (firstn (Z.to_nat (X + 1)) ds)
                     (strip_trailing_zeros (skipn (Z.to_nat (X + 1)) ds)) in
      ((if s then "-" else "") ++ string_of_list_ascii body)%string
  end.

Definition looks_like_int (s : string) : bool :=
  forallb (fun c => is_digit c || Ascii.eqb c "-") (list_ascii_of_string s).

(** lua_Number2str followed by the ".0" of tostringbuff. *)
Definition number2str (x : double) : string :=
  let s := fmt_g14 x in
  if looks_like_int s then (s ++ ".0")%string else s.

End Host.


(** ** States of the examples *)

Module Examples.

(** Four cells under the reference semantics: a destination of two bits,
    and 0.75, 3 and the double nearest to 0.1 at 53 bits; every other
    handle owns a NaN of 53 bits.  The default rounding mode is to
    nearest. *)
Definition cells (p : addr) : Ref.cell :=
  match p with
  | 0%nat => Ref.mkCell 2 (Ref.Zero false)
  | 1%nat => Ref.mkCell 53 (Ref.Num false 3 (-2))
  | 2%nat => Ref.mkCell 53 (Ref.Num false 3 0)
  | 3%nat => Ref.mkCell 53 (Ref.Num false 3602879701896397 (-55))
  | _ => Ref.mkCell 53 Ref.NaN
  end.

Definition state : lua_State Ref.cell := mkState cells 0.

(** The double 4.0. *)
Definition four : double := integer_to_float 4.

End Examples.

Section Binding.

(** The data model of the host C compiler. *)
Variable dm : data_model.

(** The conversions between strings and numbers of the host runtime
    (luaO_str2num and the "%.14g" rendering of floats). *)
Variable luaO_str2num : string -> option (Z + double).
Variable lua_Number2str : double -> string.

Variable cell : Type.

(** The computations of the binding over these cells. *)
Definition M (A : Type) : Type := lua_M cell A.

(** ** The host API on the argument list *)

Definition index (args : list lua_value) (i : nat) : option lua_value :=
  match i with
  | O => None
  | S j => nth_error args j
  end.

Definition lua_isnoneornil (args : list lua_value) (i : nat) : bool :=
  match index args i with
  | None | Some LNil => true
  | _ => false
  end.

Definition str2integer (s : string) : option Z :=
  match luaO_str2num s with
  | Some (inl i) => Some i
  | Some (inr x) => float_to_integer x
  | None => None
  end.

(** lua_tointegerx: the integer and the [isnum] flag as an option. *)
Definition lua_tointegerx (args : list lua_value) (i : nat) : option Z :=
  match index args i with
  | Some (LInteger n) => Some n
  | Some (LFloat x) => float_to_integer x
  | Some (LString s) => str2integer s
  | _ => None
  end.

(** lua_tointeger: 0 when the value is not convertible. *)
Definition lua_tointeger (args : list lua_value) (i : nat) : Z :=
  match lua_tointegerx args i with
  | Some n => n
  | None => 0
  end.

(** lua_isnumber: a number or a string convertible to a number. *)
Definition lua_isnumber (args : list lua_value) (i : nat) : bool :=
  match index args i with
  | Some (LInteger _) | Some (LFloat _) => true
  | Some (LString s) => match luaO_str2num s with Some _ => true | None => false end
  | _ => false
  end.

(** lua_isinteger: a number whose representation is an integer. *)
Definition lua_isinteger (args : list lua_value) (i : nat) : bool :=
  match index args i with
  | Some (LInteger _) => true
  | _ => false
  end.

(** lua_isstring: a string or a number (always convertible to a string). *)
Definition lua_isstring (args : list lua_value) (i : nat) : bool :=
  match index args i with
  | Some (LString _) | Some (LInteger _) | Some (LFloat _) => true
  | _ => false
  end.

(** lua_tonumber: 0 when the value is not convertible. *)
Definition lua_tonumber (args : list lua_value) (i : nat) : double :=
  match index args i with
  | Some (LFloat x) => x
  | Some (LInteger n) => integer_to_float n
  | Some (LString s) =>
      match luaO_str2num s with
      | Some (inl n) => integer_to_float n
      | Some (inr x) => x
      | None => S754_zero false
      end
  | _ => S754_zero false
  end.

(** lua_tostring: NULL when the value is neither a string nor a number. *)
Definition lua_tostring (args : list lua_value) (i : nat) : option string :=
  match index args i with
  | Some (LString s) => Some s
  | Some (LInteger n) => Some (lua_Integer2str n)
  | Some (LFloat x) => Some (lua_Number2str x)
  | _ => None
  end.

(** The name of the type of an argument in a type error: the [__name]
    of its metatable when it has one, else [luaL_typename]. *)
Definition typearg (args : list lua_value) (i : nat) : string :=
  match index args i with
  | None => "no value"
  | Some LNil => "nil"
  | Some (LBoolean _) => "boolean"
  | Some (LInteger _) | Some (LFloat _) => "number"
  | Some (LString _) => "string"
  | Some (LTable _) => "table"
  | Some (LUserdata tname _) => tname
  end.

(** luaL_typeerror *)
Definition luaL_typeerror {A} (args : list lua_value) (arg : nat) (tname : string) : M A :=
  luaL_argerror arg (tname ++ " expected, got " ++ typearg args arg).

(** luaL_checkudata *)
Definition luaL_checkudata (args : list lua_value) (i : nat) (tname : string) : M addr :=
  match index args i with
  | Some (LUserdata t p) =>
      if String.eqb t tname then ret p else luaL_typeerror args i tname
  | _ => luaL_typeerror args i tname
  end.

(** luaL_checkinteger *)
Definition luaL_checkinteger (args : list lua_value) (i : nat) : M Z :=
  match lua_tointegerx args i with
  | Some n => ret n
  | None =>
      if lua_isnumber args i
      then luaL_argerror i "number has no integer representation"
      else luaL_typeerror args i "number"
  end.

(** luaL_optinteger *)
Definition luaL_optinteger (args : list lua_value) (i : nat) (def : Z) : M Z :=
  if lua_isnoneornil args i then ret def else luaL_checkinteger args i.

(** lua_settop (L, n), for n within the arguments received, followed by
    a return of the n values left. *)
Definition lua_settop (args : list lua_value) (n : nat) : M (list lua_value) :=
  ret (firstn n args).

(** ** The engine's primitives

    Every primitive that writes a cell takes the current content of the
    destination (which fixes the precision of the result) and returns the
    new content; the rounding mode is passed as the C [int] it is. *)

Variable mpfr_set_si : cell -> Z -> Z -> cell.
Variable mpfr_set_d : cell -> double -> Z -> cell.
Variable mpfr_set : cell -> cell -> Z -> cell.
(** mpfr_set_str (z, str, base, rnd): the cell it leaves and its status. *)
Variable mpfr_set_str : cell -> string -> Z -> Z -> cell * Z.
Variable mpfr_fac_ui : cell -> Z -> Z -> cell.
Variable mpfr_ui_pow_ui : cell -> Z -> Z -> Z -> cell.
Variable mpfr_ui_pow : cell -> Z -> cell -> Z -> cell.
Variable mpfr_pow_si : cell -> cell -> Z -> Z -> cell.
Variable mpfr_pow_ui : cell -> cell -> Z -> Z -> cell.
Variable mpfr_pow : cell -> cell -> cell -> Z -> cell.
Variable mpfr_copysign : cell -> cell -> cell -> Z -> cell.
(** mpfr_get_str (buf, &e, b, n, z, rnd): the string written and [e]. *)
Variable mpfr_get_str : Z -> Z -> cell -> Z -> string * Z.
Variable mpfr_number_p : cell -> bool.
Variable mpfr_zero_p : cell -> bool.
Variable mpfr_signbit : cell -> bool.
Variable mpfr_get_prec : cell -> Z.

Variable mpfr_add mpfr_sub mpfr_mul mpfr_div : cell -> cell -> cell -> Z -> cell.
Variable mpfr_add_si mpfr_sub_si mpfr_mul_si mpfr_div_si : cell -> cell -> Z -> Z -> cell.
Variable mpfr_add_d mpfr_sub_d mpfr_mul_d mpfr_div_d : cell -> cell -> double -> Z -> cell.
Variable mpfr_si_sub mpfr_si_div : cell -> Z -> cell -> Z -> cell.
Variable mpfr_d_sub mpfr_d_div : cell -> double -> cell -> Z -> cell.

Variable mpfr_sqrt mpfr_zeta : cell -> cell -> Z -> cell.
Variable mpfr_sqrt_ui mpfr_zeta_ui : cell -> Z -> Z -> cell.

(** ceil (mpfr_get_prec (z) * log (2.0) / log (b)), as the host's double
    arithmetic evaluates it, from the precision and the base. *)
Variable ceil_log_ratio : Z -> Z -> Z.

(** Pointers to primitives, stored as light userdata in the upvalues of
    the closures and cast back to the shape the caller expects. *)
Inductive fnptr :=
| Fn_fr_fr (f : cell -> cell -> cell -> Z -> cell)
| Fn_fr_si (f : cell -> cell -> Z -> Z -> cell)
| Fn_fr_d (f : cell -> cell -> double -> Z -> cell)
| Fn_si_fr (f : cell -> Z -> cell -> Z -> cell)
| Fn_d_fr (f : cell -> double -> cell -> Z -> cell)
| Fn_fr (f : cell -> cell -> Z -> cell)
| Fn_ui (f : cell -> Z -> Z -> cell).

(** An upvalue holds a pointer, possibly NULL. *)
Definition upvalue := option fnptr.

(** lua_touserdata (L, lua_upvalueindex (i)): NULL when there is no such
    upvalue. *)
Definition lua_touserdata (ups : list upvalue) (i : nat) : option fnptr :=
  match i with
  | O => None
  | S j => match nth_error ups j with
           | Some p => p
           | None => None
           end
  end.

(** Calls through a pointer.  Calling through NULL, or through a pointer
    to a primitive of another shape, has no defined behaviour.  The
    operands are read before the destination is written, so a destination
    may also be an operand. *)
Definition call_fr_fr (fn : option fnptr) (z x y : addr) (r : Z) : M unit :=
  match fn with
  | Some (Fn_fr_fr f) =>
      cz <- load z ;; cx <- load x ;; cy <- load y ;; store z (f cz cx cy r)
  | _ => undefined
  end.

Definition call_fr_si (fn : option fnptr) (z x : addr) (i r : Z) : M unit :=
  match fn with
  | Some (Fn_fr_si f) => cz <- load z ;; cx <- load x ;; store z (f cz cx i r)
  | _ => undefined
  end.

Definition call_fr_d (fn : option fnptr) (z x : addr) (d : double) (r : Z) : M unit :=
  match fn with
  | Some (Fn_fr_d f) => cz <- load z ;; cx <- load x ;; store z (f cz cx d r)
  | _ => undefined
  end.

Definition call_si_fr (fn : option fnptr) (z : addr) (i : Z) (y : addr) (r : Z) : M unit :=
  match fn with
  | Some (Fn_si_fr f) => cz <- load z ;; cy <- load y ;; store z (f cz i cy r)
  | _ => undefined
  end.

Definition call_d_fr (fn : option fnptr) (z : addr) (d : double) (y : addr) (r : Z) : M unit :=
  match fn with
  | Some (Fn_d_fr f) => cz <- load z ;; cy <- load y ;; store z (f cz d cy r)
  | _ => undefined
  end.

Definition call_fr (fn : option fnptr) (z x : addr) (r : Z) : M unit :=
  match fn with
  | Some (Fn_fr f) => cz <- load z ;; cx <- load x ;; store z (f cz cx r)
  | _ => undefined
  end.

Definition call_ui (fn : option fnptr) (z : addr) (i r : Z) : M unit :=
  match fn with
  | Some (Fn_ui f) => cz <- load z ;; store z (f cz i r)
  | _ => undefined
  end.

(** ** Argument helpers of the binding *)

Definition bad_base : string := "base must be between 2 and 62".
Definition bad_number : string := "not a valid number in given base".

(** static int _opt_base (lua_State *L, int i) *)
Definition _opt_base (args : list lua_value) (i : nat) : M Z :=
  b <- luaL_optinteger args i 10 ;;
  luaL_argcheck ((2 <=? b) && (b <=? 62)) i bad_base ;;;
  ret (to_int b).

(** static int _opt_rnd (lua_State *L, int i) *)
Definition _opt_rnd (args : list lua_value) (i : nat) : M Z :=
  def <- mpfr_get_default_rounding_mode ;;
  r <- luaL_optinteger args i def ;;
  ret (to_int r).

(** union value, together with the tag [_check_value] returns. *)
Inductive value :=
| V_LONG (i : Z)
| V_DOUBLE (d : double)
| V_MPFR (fr : addr).

(** static int _check_value (lua_State *L, int i, union value *v) *)
Definition _check_value (args : list lua_value) (i : nat) : M value :=
  if lua_isnumber args i then
    match lua_tointegerx args i with
    | Some x =>
        if to_long dm x =? x then ret (V_LONG (to_long dm x))
        else ret (V_DOUBLE (lua_tonumber args i))
    | None => ret (V_DOUBLE (lua_tonumber args i))
    end
  else
    p <- luaL_checkudata args i MPFR ;;
    ret (V_MPFR p).

(** ** set *)

(** static int fr_set (lua_State *L) *)
Definition fr_set (args : list lua_value) : M (list lua_value) :=
  z <- luaL_checkudata args 1 MPFR ;;
  (if lua_isstring args 2 then
     r <- _opt_rnd args 4 ;;
     match lua_tostring args 2 with
     | Some s =>
         b <- _opt_base args 3 ;;
         cz <- load z ;;
         let '(c, status) := mpfr_set_str cz s b r in
         store z c ;;;
         if status =? 0 then ret tt
         else luaL_argerror 2 bad_number
     | None => undefined
     end
   else
     r <- _opt_rnd args 3 ;;
     v <- _check_value args 2 ;;
     match v with
     | V_LONG i => cz <- load z ;; store z (mpfr_set_si cz i r)
     | V_DOUBLE d => cz <- load z ;; store z (mpfr_set_d cz d r)
     | V_MPFR fr => cz <- load z ;; cx <- load fr ;; store z (mpfr_set cz cx r)
     end) ;;;
  lua_settop args 1.

(** ** fac *)

Definition out_of_ulong : string := "out of range of unsigned long".
Definition out_of_long : string := "out of range of long".

(** static int fr_fac (lua_State *L) *)
Definition fr_fac (args : list lua_value) : M (list lua_value) :=
  z <- luaL_checkudata args 1 MPFR ;;
  let i := lua_tointeger args 2 in
  luaL_argcheck ((0 <=? i) && (i <=? ULONG_MAX dm)) 2 out_of_ulong ;;;
  r <- _opt_rnd args 3 ;;
  cz <- load z ;;
  store z (mpfr_fac_ui cz (to_ulong dm i) r) ;;;
  lua_settop args 1.

(** ** pow *)

(** static int fr_pow (lua_State *L) *)
Definition fr_pow (args : list lua_value) : M (list lua_value) :=
  z <- luaL_checkudata args 1 MPFR ;;
  let isint1 := lua_tointegerx args 2 in
  let isint2 := lua_tointegerx args 3 in
  r <- _opt_rnd args 4 ;;
  match isint1 with
  | Some i1 =>
      luaL_argcheck ((0 <=? i1) && (i1 <=? ULONG_MAX dm)) 2 out_of_ulong ;;;
      match isint2 with
      | Some i2 =>
          luaL_argcheck ((0 <=? i2) && (i2 <=? ULONG_MAX dm)) 2 out_of_ulong ;;;
          cz <- load z ;;
          store z (mpfr_ui_pow_ui cz (to_ulong dm i1) (to_ulong dm i2) r)
      | None =>
          y <- luaL_checkudata args 3 MPFR ;;
          cz <- load z ;; cy <- load y ;;
          store z (mpfr_ui_pow cz (to_ulong dm i1) cy r)
      end
  | None =>
      x <- luaL_checkudata args 2 MPFR ;;
      match isint2 with
      | Some i2 =>
          if i2 <? 0 then
            luaL_argcheck (LONG_MIN dm <=? i2) 2 out_of_long ;;;
            cz <- load z ;; cx <- load x ;;
            store z (mpfr_pow_si cz cx (to_long dm i2) r)
          else
            luaL_argcheck (i2 <=? ULONG_MAX dm) 2 out_of_ulong ;;;
            cz <- load z ;; cx <- load x ;;
            store z (mpfr_pow_ui cz cx (to_ulong dm i2) r)
      | None =>
          y <- luaL_checkudata args 3 MPFR ;;
          cz <- load z ;; cx <- load x ;; cy <- load y ;;
          store z (mpfr_pow cz cx cy r)
      end
  end ;;;
  lua_settop args 1.

(** ** Unary operations with an integer alternative *)

(** static int fr_fn1u (lua_State *L) *)
Definition fr_fn1u (ups : list upvalue) (args : list lua_value) : M (list lua_value) :=
  z <- luaL_checkudata args 1 MPFR ;;
  r <- _opt_rnd args 3 ;;
  (if lua_isinteger args 2 then
     let i := lua_tointeger args 2 in
     luaL_argcheck ((0 <=? i) && (i <=? ULONG_MAX dm)) 2 out_of_ulong ;;;
     call_ui (lua_touserdata ups 2) z (to_ulong dm i) r
   else
     x <- luaL_checkudata args 2 MPFR ;;
     call_fr (lua_touserdata ups 1) z x r) ;;;
  lua_settop args 1.

(** struct fn1u_reg *)
Record fn1u_reg := FN2 {
  fn1u_name : string;
  fn1u_fr : option (cell -> cell -> Z -> cell);
  fn1u_ui : option (cell -> Z -> Z -> cell)
}.

Definition _fn1u_reg : list fn1u_reg :=
  [ FN2 "sqrt" (Some mpfr_sqrt) (Some mpfr_sqrt_ui);
    FN2 "zeta" (Some mpfr_zeta) (Some mpfr_zeta_ui) ].

(** A C closure registered under a name. *)
Definition closure := list lua_value -> M (list lua_value).

(** static void _reg_fn1u (lua_State *L, const struct fn1u_reg *r) *)
Definition _reg_fn1u (rows : list fn1u_reg) : list (string * closure) :=
  map (fun r => (fn1u_name r,
                 fr_fn1u [option_map Fn_fr (fn1u_fr r);
                          option_map Fn_ui (fn1u_ui r)])) rows.

(** ** Binary operations on mixed operands *)

(** static int fr_fn2 (lua_State *L) *)
Definition fr_fn2 (ups : list upvalue) (args : list lua_value) : M (list lua_value) :=
  z <- luaL_checkudata args 1 MPFR ;;
  x <- _check_value args 2 ;;
  r <- _opt_rnd args 4 ;;
  match x with
  | V_MPFR xfr =>
      y <- _check_value args 3 ;;
      match y with
      | V_LONG yi => call_fr_si (lua_touserdata ups 2) z xfr yi r
      | V_DOUBLE yd => call_fr_d (lua_touserdata ups 3) z xfr yd r
      | V_MPFR yfr => call_fr_fr (lua_touserdata ups 1) z xfr yfr r
      end
  | V_LONG xi =>
      yfr <- luaL_checkudata args 3 MPFR ;;
      match lua_touserdata ups 4 with
      | Some fn => call_si_fr (Some fn) z xi yfr r
      | None => call_fr_si (lua_touserdata ups 2) z yfr xi r
      end
  | V_DOUBLE xd =>
      yfr <- luaL_checkudata args 3 MPFR ;;
      match lua_touserdata ups 5 with
      | Some fn => call_d_fr (Some fn) z xd yfr r
      | None => call_fr_d (lua_touserdata ups 3) z yfr xd r
      end
  end ;;;
  lua_settop args 1.

(** struct fn2_reg *)
Record fn2_reg := mk_fn2_reg {
  fn2_name : string;
  fn2_fr_fr : option (cell -> cell -> cell -> Z -> cell);
  fn2_fr_si : option (cell -> cell -> Z -> Z -> cell);
  fn2_fr_d : option (cell -> cell -> double -> Z -> cell);
  fn2_si_fr : option (cell -> Z -> cell -> Z -> cell);
  fn2_d_fr : option (cell -> double -> cell -> Z -> cell)
}.

(** #define FN3(name): the two last members are left NULL. *)
Definition FN3 name fr_fr fr_si fr_d : fn2_reg :=
  mk_fn2_reg name (Some fr_fr) (Some fr_si) (Some fr_d) None None.

(** #define FN5(name) *)
Definition FN5 name fr_fr fr_si fr_d si_fr d_fr : fn2_reg :=
  mk_fn2_reg name (Some fr_fr) (Some fr_si) (Some fr_d) (Some si_fr) (Some d_fr).

Definition fn2_add : fn2_reg := FN3 "add" mpfr_add mpfr_add_si mpfr_add_d.
Definition fn2_sub : fn2_reg := FN5 "sub" mpfr_sub mpfr_sub_si mpfr_sub_d mpfr_si_sub mpfr_d_sub.
Definition fn2_mul : fn2_reg := FN3 "mul" mpfr_mul mpfr_mul_si mpfr_mul_d.
Definition fn2_div : fn2_reg := FN5 "div" mpfr_div mpfr_div_si mpfr_div_d mpfr_si_div mpfr_d_div.

Definition _fn2_reg : list fn2_reg := [fn2_add; fn2_sub; fn2_mul; fn2_div].

(** The closure [_reg_fn2] builds for one row: five upvalues when the row
    has a left-integer variant, three otherwise. *)
Definition fn2_closure (r : fn2_reg) : closure :=
  let three := [option_map Fn_fr_fr (fn2_fr_fr r);
                option_map Fn_fr_si (fn2_fr_si r);
                option_map Fn_fr_d (fn2_fr_d r)] in
  match fn2_si_fr r with
  | Some _ =>
      fr_fn2 (three ++ [option_map Fn_si_fr (fn2_si_fr r);
                        option_map Fn_d_fr (fn2_d_fr r)])
  | None => fr_fn2 three
  end.

(** static void _reg_fn2 (lua_State *L, const struct fn2_reg *r) *)
Definition _reg_fn2 (rows : list fn2_reg) : list (string * closure) :=
  map (fun r => (fn2_name r, fn2_closure r)) rows.

(** The function a name is bound to in a registered table. *)
Fixpoint lookup (name : string) (t : list (string * closure)) : option closure :=
  match t with
  | [] => None
  | (n, c) :: t' => if String.eqb n name then Some c else lookup name t'
  end.

(** ** copysign *)

(** A local variable that is declared and never assigned. *)
Definition uninitialized {A : Type} : option A := None.

(** Reading a local variable; reading an indeterminate one has no defined
    behaviour. *)
Definition read_local {A : Type} (v : option A) : M A := defined v.

(** static int fr_copysign (lua_State *L): the four checks are operands of
    comma operators, their results are discarded, and the locals x, y, z
    and r are passed to the engine as declared. *)
Definition fr_copysign (args : list lua_value) : M (list lua_value) :=
  let x : option addr := uninitialized in
  let y : option addr := uninitialized in
  let z : option addr := uninitialized in
  let r : option Z := uninitialized in
  _ <- luaL_checkudata args 1 MPFR ;;
  _ <- luaL_checkudata args 2 MPFR ;;
  _ <- luaL_checkudata args 3 MPFR ;;
  _ <- _opt_rnd args 4 ;;
  (pz <- read_local z ;; px <- read_local x ;;
   py <- read_local y ;; rr <- read_local r ;;
   cz <- load pz ;; cx <- load px ;; cy <- load py ;;
   store pz (mpfr_copysign cz cx cy rr)) ;;;
  lua_settop args 1.

(** ** tostring *)

(** static size_t _outbufsize (mpfr_t z, int b, size_t n) *)
Definition _outbufsize (z : cell) (b n : Z) : Z :=
  let n := if n =? 0
           then to_size_t (ceil_log_ratio (mpfr_get_prec z) b + 1)
           else n in
  if n <? 5 then 7 else to_size_t (n + 2).

(** static int fr_tostring (lua_State *L).  The buffer obtained from
    luaL_buffinitsize is the block [mem] of [sz] bytes; [s] and [p] are
    offsets into it. *)
Definition fr_tostring (args : list lua_value) : M (list lua_value) :=
  z <- luaL_checkudata args 1 MPFR ;;
  b <- _opt_base args 2 ;;
  n0 <- luaL_optinteger args 3 0 ;;
  let n := to_size_t n0 in
  r <- _opt_rnd args 4 ;;
  cz <- load z ;;
  if negb (mpfr_number_p cz) then
    (* char buf[7] *)
    let '(str, e) := mpfr_get_str b n cz r in
    buf <- defined (write_cstr (repeat NUL 7) 0 str) ;;
    len <- defined (strlen_at buf 0) ;;
    ret [LString (string_of_list_ascii (firstn len buf))]
  else if mpfr_zero_p cz then
    ret [LString (if mpfr_signbit cz then "-0" else "0")]
  else
    let sz := to_size_t (_outbufsize cz b n + 1) in
    let mem := repeat NUL (Z.to_nat sz) in
    let s := 0%nat in
    let p := S s in
    let '(str, e) := mpfr_get_str b n cz r in
    mem <- defined (write_cstr mem p str) ;;
    len <- defined (strlen_at mem p) ;;
    c <- defined (peek mem p) ;;
    st <- (if Ascii.eqb c "-"
           then mem' <- defined (poke mem s c) ;; ret (mem', S s, S p)
           else ret (mem, s, p)) ;;
    let '(mem, s, p) := st in
    c <- defined (peek mem p) ;;
    mem <- defined (poke mem s c) ;;
    mem <- defined (poke mem (S s) ".") ;;
    (* luaL_addsize (&B, len + 1) *)
    B <- defined (if Nat.leb (len + 1) (List.length mem)
                  then Some (firstn (len + 1) mem) else None) ;;
    let e := e - 1 in
    let B := if e =? 0 then B
             else (B ++ [if 10 <? b then "@"%char else "e"%char]
                     ++ list_ascii_of_string (lua_Integer2str e))%list in
    ret [LString (string_of_list_ascii B)].

(** * The rest of the surface *)

(** ** More primitives of the engine *)

Variable mpfr_set_nan : cell -> cell.
Variable mpfr_set_inf mpfr_set_zero : cell -> Z -> cell.
Variable mpfr_root : cell -> cell -> Z -> Z -> cell.
Variable mpfr_fma mpfr_fms : cell -> cell -> cell -> cell -> Z -> cell.
Variable mpfr_cmp mpfr_cmpabs : cell -> cell -> Z.
Variable mpfr_cmp_si : cell -> Z -> Z.
Variable mpfr_cmp_d : cell -> double -> Z.
Variable mpfr_sgn : cell -> Z.
Variable mpfr_integer_p : cell -> bool.
Variable mpfr_fits_slong_p : cell -> Z -> bool.
Variable mpfr_get_si : cell -> Z -> Z.
Variable mpfr_get_d : cell -> Z -> double.
Variable mpfr_set_prec : cell -> Z -> cell.
Variable mpfr_prec_round : cell -> Z -> Z -> cell.
Variable mpfr_min_prec : cell -> Z.
(** mpfr_can_round (b, err, rnd1, rnd2, prec) *)
Variable mpfr_can_round : cell -> Z -> Z -> Z -> Z -> bool.

(** The bounds of a precision, which mpfr.h fixes for the version and
    the build of the engine. *)
Record mpfr_limits := { prec_min : Z; prec_max : Z }.

Variable limits : mpfr_limits.

Definition MPFR_PREC_MIN : Z := prec_min limits.
Definition MPFR_PREC_MAX : Z := prec_max limits.

(** The default rounding mode after mpfr_set_default_rounding_mode (r),
    from the default before and [r]. *)
Variable new_default_rounding_mode : Z -> Z -> Z.

(** Pointers to the primitives of the shapes that [fnptr] leaves out:
    a constant, an operation with two destinations, and the predicates
    on one and on two cells. *)
Inductive fnptr_more :=
| Fn_const (f : cell -> Z -> cell)
| Fn_fr2 (f : cell -> cell -> cell -> Z -> cell * cell)
| Fn_p (f : cell -> bool)
| Fn_p2 (f : cell -> cell -> bool).

(** lua_touserdata (L, lua_upvalueindex (i)) in a closure over such
    pointers. *)
Definition lua_touserdata_more (ups : list (option fnptr_more)) (i : nat)
  : option fnptr_more :=
  match i with
  | O => None
  | S j => match nth_error ups j with
           | Some p => p
           | None => None
           end
  end.

Definition call_const (fn : option fnptr_more) (z : addr) (r : Z) : M unit :=
  match fn with
  | Some (Fn_const f) => cz <- load z ;; store z (f cz r)
  | _ => undefined
  end.

(** The two destinations of an operation must be different variables. *)
Definition call_fr2 (fn : option fnptr_more) (x y z : addr) (r : Z) : M unit :=
  match fn with
  | Some (Fn_fr2 f) =>
      if Nat.eqb x y then undefined
      else
        cx <- load x ;; cy <- load y ;; cz <- load z ;;
        let '(cx', cy') := f cx cy cz r in
        store x cx' ;;; store y cy'
  | _ => undefined
  end.

Definition call_p (fn : option fnptr_more) (x : addr) : M bool :=
  match fn with
  | Some (Fn_p f) => cx <- load x ;; ret (f cx)
  | _ => undefined
  end.

Definition call_p2 (fn : option fnptr_more) (x y : addr) : M bool :=
  match fn with
  | Some (Fn_p2 f) => cx <- load x ;; cy <- load y ;; ret (f cx cy)
  | _ => undefined
  end.

(** ** The arguments of a call

    C does not specify the order in which the arguments of a call are
    evaluated: the argument expressions run one after the other in an
    order the compiler chooses.  [ord] lists their positions, from 0, in
    the order chosen. *)

(** The value of an argument expression: a pointer to a cell or an
    integer. *)
Inductive argval :=
| APtr (p : addr)
| AInt (n : Z).

Definition arg_ptr (c : M addr) : M argval := p <- c ;; ret (APtr p).
Definition arg_int (c : M Z) : M argval := n <- c ;; ret (AInt n).

(** The expressions run in the order [ord]; each value is kept with the
    position of its expression. *)
Fixpoint eval_in_order (exprs : list (M argval)) (ord : list nat)
  : M (list (nat * argval)) :=
  match ord with
  | [] => ret []
  | k :: ord' =>
      match nth_error exprs k with
      | Some c =>
          v <- c ;; vs <- eval_in_order exprs ord' ;; ret ((k, v) :: vs)
      | None => undefined
      end
  end.

Fixpoint value_at (k : nat) (vs : list (nat * argval)) : option argval :=
  match vs with
  | [] => None
  | (j, v) :: vs' => if Nat.eqb j k then Some v else value_at k vs'
  end.

(** The values at the positions k, k + 1, ..., k + n - 1. *)
Fixpoint positional (k n : nat) (vs : list (nat * argval)) : option (list argval) :=
  match n with
  | O => Some []
  | S n' =>
      match value_at k vs, positional (S k) n' vs with
      | Some v, Some l => Some (v :: l)
      | _, _ => None
      end
  end.

(** The values of the arguments of a call, by position. *)
Definition arguments (ord : list nat) (exprs : list (M argval)) : M (list argval) :=
  vs <- eval_in_order exprs ord ;;
  defined (positional 0 (List.length exprs) vs).

(** An order of evaluation of n arguments: every position once. *)
Definition is_order (n : nat) (ord : list nat) : bool :=
  Nat.eqb (List.length ord) n
  && forallb (fun k => existsb (Nat.eqb k) ord) (seq 0 n).

(** ** Special values *)

(** static int fr_set_nan (lua_State *L) *)
Definition fr_set_nan (args : list lua_value) : M (list lua_value) :=
  z <- luaL_checkudata args 1 MPFR ;;
  cz <- load z ;;
  store z (mpfr_set_nan cz) ;;;
  lua_settop args 1.

(** static int fr_set_inf (lua_State *L): the sign is narrowed to the
    [int] the engine takes. *)
Definition fr_set_inf (ord : list nat) (args : list lua_value) : M (list lua_value) :=
  a <- arguments ord [arg_ptr (luaL_checkudata args 1 MPFR);
                      arg_int (luaL_optinteger args 2 0)] ;;
  match a with
  | [APtr z; AInt sign] => cz <- load z ;; store z (mpfr_set_inf cz (to_int sign))
  | _ => undefined
  end ;;;
  lua_settop args 1.

(** static int fr_set_zero (lua_State *L) *)
Definition fr_set_zero (ord : list nat) (args : list lua_value) : M (list lua_value) :=
  a <- arguments ord [arg_ptr (luaL_checkudata args 1 MPFR);
                      arg_int (luaL_optinteger args 2 0)] ;;
  match a with
  | [APtr z; AInt sign] => cz <- load z ;; store z (mpfr_set_zero cz (to_int sign))
  | _ => undefined
  end ;;;
  lua_settop args 1.

(** ** Conversion to a number of the host *)

(** static int fr_tonumber (lua_State *L) *)
Definition fr_tonumber (args : list lua_value) : M (list lua_value) :=
  z <- luaL_checkudata args 1 MPFR ;;
  r <- _opt_rnd args 2 ;;
  cz <- load z ;;
  if (long_bits dm <=? 64) && mpfr_integer_p cz && mpfr_fits_slong_p cz r
  then ret [LInteger (mpfr_get_si cz r)]
  else ret [LFloat (mpfr_get_d cz r)].

(** ** Plain dispatchers *)

(** static int fr_fn0 (lua_State *L) *)
Definition fr_fn0 (ord : list nat) (ups : list (option fnptr_more))
           (args : list lua_value) : M (list lua_value) :=
  let fn := lua_touserdata_more ups 1 in
  a <- arguments ord [arg_ptr (luaL_checkudata args 1 MPFR);
                      arg_int (_opt_rnd args 2)] ;;
  match a with
  | [APtr z; AInt r] => call_const fn z r
  | _ => undefined
  end ;;;
  lua_settop args 1.

(** static int fr_fn1 (lua_State *L) *)
Definition fr_fn1 (ord : list nat) (ups : list upvalue) (args : list lua_value)
  : M (list lua_value) :=
  let fn := lua_touserdata ups 1 in
  a <- arguments ord [arg_ptr (luaL_checkudata args 1 MPFR);
                      arg_ptr (luaL_checkudata args 2 MPFR);
                      arg_int (_opt_rnd args 3)] ;;
  match a with
  | [APtr z; APtr x; AInt r] => call_fr fn z x r
  | _ => undefined
  end ;;;
  lua_settop args 1.

(** static int fr_fn12 (lua_State *L): two destinations, both returned. *)
Definition fr_fn12 (ups : list (option fnptr_more)) (args : list lua_value)
  : M (list lua_value) :=
  x <- luaL_checkudata args 1 MPFR ;;
  y <- luaL_checkudata args 2 MPFR ;;
  z <- luaL_checkudata args 3 MPFR ;;
  r <- _opt_rnd args 4 ;;
  let fn := lua_touserdata_more ups 1 in
  call_fr2 fn x y z r ;;;
  lua_settop args 2.

(** static int fr_sgn (lua_State *L) *)
Definition fr_sgn (args : list lua_value) : M (list lua_value) :=
  z <- luaL_checkudata args 1 MPFR ;;
  cz <- load z ;;
  ret [LInteger (mpfr_sgn cz)].

(** static int fr_fn1p (lua_State *L) *)
Definition fr_fn1p (ups : list (option fnptr_more)) (args : list lua_value)
  : M (list lua_value) :=
  let fn := lua_touserdata_more ups 1 in
  x <- luaL_checkudata args 1 MPFR ;;
  b <- call_p fn x ;;
  ret [LBoolean b].

(** static int fr_root (lua_State *L) *)
Definition fr_root (args : list lua_value) : M (list lua_value) :=
  z <- luaL_checkudata args 1 MPFR ;;
  x <- luaL_checkudata args 2 MPFR ;;
  k <- luaL_checkinteger args 3 ;;
  luaL_argcheck ((0 <=? k) && (k <=? ULONG_MAX dm)) 3 out_of_ulong ;;;
  r <- _opt_rnd args 4 ;;
  cz <- load z ;; cx <- load x ;;
  store z (mpfr_root cz cx (to_ulong dm k) r) ;;;
  lua_settop args 1.

(** static int fr_fn2f (lua_State *L) *)
Definition fr_fn2f (ord : list nat) (ups : list upvalue) (args : list lua_value)
  : M (list lua_value) :=
  let fn := lua_touserdata ups 1 in
  a <- arguments ord [arg_ptr (luaL_checkudata args 1 MPFR);
                      arg_ptr (luaL_checkudata args 2 MPFR);
                      arg_ptr (luaL_checkudata args 3 MPFR);
                      arg_int (_opt_rnd args 4)] ;;
  match a with
  | [APtr z; APtr x; APtr y; AInt r] => call_fr_fr fn z x y r
  | _ => undefined
  end ;;;
  lua_settop args 1.

(** static int fr_fn2n (lua_State *L) *)
Definition fr_fn2n (ups : list upvalue) (args : list lua_value) : M (list lua_value) :=
  z <- luaL_checkudata args 1 MPFR ;;
  n <- luaL_checkinteger args 2 ;;
  luaL_argcheck ((LONG_MIN dm <=? n) && (n <=? LONG_MAX dm)) 2 out_of_long ;;;
  x <- luaL_checkudata args 3 MPFR ;;
  r <- _opt_rnd args 4 ;;
  let fn := lua_touserdata ups 1 in
  call_si_fr fn z (to_long dm n) x r ;;;
  lua_settop args 1.

(** ** Comparisons *)

(** static int fr_cmp (lua_State *L) *)
Definition fr_cmp (args : list lua_value) : M (list lua_value) :=
  x <- luaL_checkudata args 1 MPFR ;;
  y <- _check_value args 2 ;;
  cx <- load x ;;
  result <- match y with
            | V_LONG i => ret (mpfr_cmp_si cx i)
            | V_DOUBLE d => ret (mpfr_cmp_d cx d)
            | V_MPFR fr => cy <- load fr ;; ret (mpfr_cmp cx cy)
            end ;;
  ret [LInteger result].

(** static int fr_cmpabs (lua_State *L) *)
Definition fr_cmpabs (args : list lua_value) : M (list lua_value) :=
  x <- luaL_checkudata args 1 MPFR ;;
  y <- luaL_checkudata args 2 MPFR ;;
  cx <- load x ;; cy <- load y ;;
  ret [LInteger (mpfr_cmpabs cx cy)].

(** static int fr_fn2p (lua_State *L) *)
Definition fr_fn2p (ord : list nat) (ups : list (option fnptr_more))
           (args : list lua_value) : M (list lua_value) :=
  let fn := lua_touserdata_more ups 1 in
  a <- arguments ord [arg_ptr (luaL_checkudata args 1 MPFR);
                      arg_ptr (luaL_checkudata args 2 MPFR)] ;;
  match a with
  | [APtr x; APtr y] => b <- call_p2 fn x y ;; ret [LBoolean b]
  | _ => undefined
  end.

(** ** Fused operations *)

Definition fused (f : cell -> cell -> cell -> cell -> Z -> cell)
           (ord : list nat) (args : list lua_value) : M (list lua_value) :=
  a <- arguments ord [arg_ptr (luaL_checkudata args 1 MPFR);
                      arg_ptr (luaL_checkudata args 2 MPFR);
                      arg_ptr (luaL_checkudata args 3 MPFR);
                      arg_ptr (luaL_checkudata args 4 MPFR);
                      arg_int (_opt_rnd args 5)] ;;
  match a with
  | [APtr z; APtr x; APtr y; APtr w; AInt r] =>
      cz <- load z ;; cx <- load x ;; cy <- load y ;; cw <- load w ;;
      store z (f cz cx cy cw r)
  | _ => undefined
  end ;;;
  lua_settop args 1.

(** static int fr_fma (lua_State *L) *)
Definition fr_fma : list nat -> list lua_value -> M (list lua_value) := fused mpfr_fma.

(** static int fr_fms (lua_State *L) *)
Definition fr_fms : list nat -> list lua_value -> M (list lua_value) := fused mpfr_fms.

(** ** Precision *)

(** The message of _check_prec, with "%I" rendering both bounds. *)
Definition bad_prec : string :=
  "precision must be between " ++ lua_Integer2str MPFR_PREC_MIN
    ++ " and " ++ lua_Integer2str MPFR_PREC_MAX.

(** static lua_Integer _check_prec (lua_State *L, int i) *)
Definition _check_prec (args : list lua_value) (i : nat) : M Z :=
  prec <- luaL_checkinteger args i ;;
  (if negb ((MPFR_PREC_MIN <=? prec) && (prec <=? MPFR_PREC_MAX))
   then luaL_argerror i bad_prec
   else ret tt) ;;;
  ret prec.

(** static int fr_prec_round (lua_State *L): the precision is narrowed
    to the [long] the engine takes. *)
Definition fr_prec_round (ord : list nat) (args : list lua_value) : M (list lua_value) :=
  a <- arguments ord [arg_ptr (luaL_checkudata args 1 MPFR);
                      arg_int (_check_prec args 2);
                      arg_int (_opt_rnd args 3)] ;;
  match a with
  | [APtr z; AInt p; AInt r] =>
      cz <- load z ;; store z (mpfr_prec_round cz (to_long dm p) r)
  | _ => undefined
  end ;;;
  lua_settop args 1.

(** static int fr_can_round (lua_State *L) *)
Definition fr_can_round (ord : list nat) (args : list lua_value) : M (list lua_value) :=
  a <- arguments ord [arg_ptr (luaL_checkudata args 1 MPFR);
                      arg_int (luaL_checkinteger args 2);
                      arg_int (luaL_checkinteger args 3);
                      arg_int (luaL_checkinteger args 4);
                      arg_int (_check_prec args 5)] ;;
  match a with
  | [APtr z; AInt err; AInt r1; AInt r2; AInt p] =>
      cz <- load z ;;
      ret [LBoolean (mpfr_can_round cz (to_long dm err) (to_int r1) (to_int r2)
                                    (to_long dm p))]
  | _ => undefined
  end.

(** static int fr_set_prec (lua_State *L): nothing is returned. *)
Definition fr_set_prec (ord : list nat) (args : list lua_value) : M (list lua_value) :=
  a <- arguments ord [arg_ptr (luaL_checkudata args 1 MPFR);
                      arg_int (_check_prec args 2)] ;;
  match a with
  | [APtr z; AInt p] => cz <- load z ;; store z (mpfr_set_prec cz (to_long dm p))
  | _ => undefined
  end ;;;
  ret [].

(** static int fr_get_prec (lua_State *L) *)
Definition fr_get_prec (args : list lua_value) : M (list lua_value) :=
  z <- luaL_checkudata args 1 MPFR ;;
  cz <- load z ;;
  ret [LInteger (mpfr_get_prec cz)].

(** static int fr_min_prec (lua_State *L) *)
Definition fr_min_prec (args : list lua_value) : M (list lua_value) :=
  z <- luaL_checkudata args 1 MPFR ;;
  cz <- load z ;;
  ret [LInteger (mpfr_min_prec cz)].

(** ** The default rounding mode *)

Definition mpfr_set_default_rounding_mode (r : Z) : M unit :=
  fun L => Ret tt (mkState (heap L)
                           (new_default_rounding_mode (default_rounding_mode L) r)).

(** static int fr_set_default_rounding_mode (lua_State *L) *)
Definition fr_set_default_rounding_mode (args : list lua_value) : M (list lua_value) :=
  r <- luaL_checkinteger args 1 ;;
  mpfr_set_default_rounding_mode (to_int r) ;;;
  ret [].

(** static int fr_get_default_rounding_mode (lua_State *L) *)
Definition fr_get_default_rounding_mode (args : list lua_value) : M (list lua_value) :=
  r <- mpfr_get_default_rounding_mode ;;
  ret [LInteger r].

(** ** The rounding modes the module exports *)

(** mpfr_print_rnd_mode *)
Definition mpfr_print_rnd_mode (r : mpfr_rnd_t) : string :=
  match r with
  | MPFR_RNDN => "MPFR_RNDN"
  | MPFR_RNDZ => "MPFR_RNDZ"
  | MPFR_RNDU => "MPFR_RNDU"
  | MPFR_RNDD => "MPFR_RNDD"
  | MPFR_RNDA => "MPFR_RNDA"
  end.

(** static void _reg_rnd (lua_State *L): the fields set, from the last
    mode of the array to the first; each name skips "MPFR_". *)
Definition _reg_rnd : list (string * lua_value) :=
  map (fun r =>
         let name := mpfr_print_rnd_mode r in
         (String.substring 5 (String.length name - 5) name, LInteger (rnd_code r)))
      (rev [MPFR_RNDN; MPFR_RNDZ; MPFR_RNDU; MPFR_RNDD; MPFR_RNDA]).


(** ** What is stated of the rest of the surface *)

(** Two states that differ at most in the cells [zs]. *)
Definition same_except (zs : list addr) (L L' : lua_State cell) : Prop :=
  default_rounding_mode L' = default_rounding_mode L
  /\ forall p, ~ In p zs -> heap L' p = heap L p.

(** A function that, when it returns, returns its first argument, which
    is a handle, and has written no cell but the one of that handle. *)
Definition returns_destination (f : list lua_value -> M (list lua_value)) : Prop :=
  forall args L vs L',
    f args L = Ret vs L' ->
    exists z, index args 1 = Some (handle z)
              /\ vs = [handle z]
              /\ same_except [z] L L'.

(** Two outcomes that are the same, or two errors raised on [L]. *)
Definition same_but_error {A : Type} (L : lua_State cell) (o o' : outcome cell A) : Prop :=
  o = o' \/ exists e e', o = Raise e L /\ o' = Raise e' L.

(** An argument expression: it reads the state, leaves it as it was and
    is always defined. *)
Definition check_step {A : Type} (c : M A) : Prop :=
  forall L, match c L with
            | Ret _ L' => L' = L
            | Raise _ L' => L' = L
            | Undef => False
            end.

(** A computation that, when it returns, has written no cell outside
    [zs]. *)
Definition touches_only {A : Type} (zs : list addr) (c : M A) : Prop :=
  forall L, match c L with
            | Ret _ L' => same_except zs L L'
            | _ => True
            end.

(** The end of a function that, when it returns, returns the [n] first
    arguments and has written no cell outside [zs]. *)
Definition returns_first (n : nat) (zs : list addr) (args : list lua_value)
           (c : M (list lua_value)) : Prop :=
  forall L, match c L with
            | Ret vs L' => vs = firstn n args /\ same_except zs L L'
            | _ => True
            end.

(** The arguments [args] followed by a rounding mode when one is given. *)
Definition with_rnd (args : list lua_value) (rnd : option Z) : list lua_value :=
  args ++ match rnd with Some r => [LInteger r] | None => [] end.

(** The rounding mode such a call uses: the one given, or the default
    one, as the C [int] it becomes. *)
Definition rnd_used (rnd : option Z) (L : lua_State cell) : Z :=
  to_int (match rnd with Some r => r | None => default_rounding_mode L end).

(** * The selections the binding is specified to make *)

(** The outcome of a unary operation with an integer alternative, for
    the handle variant [f] and the integer variant [g], on the
    destination [z], the second argument [v] and the rounding mode [r]:
    an integer of the host selects [g] when it lies in [0, ULONG_MAX]
    and is a range error on argument 2 otherwise; a handle selects [f];
    every other value, a float included, is a type error on argument 2. *)
Definition fn1u_selection
  (f : cell -> cell -> Z -> cell) (g : cell -> Z -> Z -> cell)
  (z : addr) (v : lua_value) (r : Z) (L : lua_State cell)
  : outcome cell (list lua_value) :=
  match v with
  | LInteger i =>
      if (0 <=? i) && (i <=? ULONG_MAX dm)
      then Ret [handle z] (set_cell L z (g (heap L z) i r))
      else Raise (ArgError 2 out_of_ulong) L
  | LUserdata t x =>
      if String.eqb t MPFR
      then Ret [handle z] (set_cell L z (f (heap L z) (heap L x) r))
      else Raise (ArgError 2 ("mpfr_t expected, got " ++ t)) L
  | LNil => Raise (ArgError 2 "mpfr_t expected, got nil") L
  | LBoolean _ => Raise (ArgError 2 "mpfr_t expected, got boolean") L
  | LFloat _ => Raise (ArgError 2 "mpfr_t expected, got number") L
  | LString _ => Raise (ArgError 2 "mpfr_t expected, got string") L
  | LTable _ => Raise (ArgError 2 "mpfr_t expected, got table") L
  end.

(** A call that raises leaves the state as it was. *)
Definition unchanged_on_raise {A : Type} (o : outcome cell A) (L : lua_State cell) : Prop :=
  match o with
  | Raise _ L' => L' = L
  | _ => True
  end.

(** A step that reads the state and leaves it as it was, whether it
    returns or raises. *)
Definition pure_step {A : Type} (c : M A) : Prop :=
  forall L, match c L with
            | Ret _ L' => L' = L
            | Raise _ L' => L' = L
            | Undef => True
            end.

(** A step that raises no error. *)
Definition raises_nothing {A : Type} (c : M A) : Prop :=
  forall L, match c L with
            | Raise _ _ => False
            | _ => True
            end.

(** A computation whose errors leave the state as it was. *)
Definition atomic {A : Type} (c : M A) : Prop :=
  forall L, unchanged_on_raise (c L) L.

(** The outcome of set (z, s, b, r) for a string [s]: a base outside
    [2, 62] is a range error on argument 3 that leaves [z] alone;
    otherwise [z] receives what the parser of the engine stored, and a
    status other than 0 is an error on argument 2. *)
Definition set_string_outcome (z : addr) (s : string) (b r : Z) (L : lua_State cell)
  : outcome cell (list lua_value) :=
  if (2 <=? b) && (b <=? 62) then
    let '(c, status) := mpfr_set_str (heap L z) s b r in
    if status =? 0 then Ret [handle z] (set_cell L z c)
    else Raise (ArgError 2 bad_number) (set_cell L z c)
  else Raise (ArgError 3 bad_base) L.

(** The text specified for a regular number whose digits are [d1] and
    [rest], negative when [neg], with exponent [e] in base [b]:
    [-]d1.rest, followed, when e - 1 is not 0, by [@] in bases above 10
    and [e] otherwise, and by e - 1 in decimal. *)
Definition layout (neg : bool) (d1 : ascii) (rest : string) (b e : Z) : string :=
  (if neg then "-" else "")
    ++ String d1 (String "." rest)
    ++ (if e - 1 =? 0 then ""
        else String (if 10 <? b then "@"%char else "e"%char)
                    (lua_Integer2str (e - 1))).

(** The exponent part of that text: nothing, or the mark and the
    exponent [x] in decimal. *)
Definition exponent_chars (b x : Z) : list ascii :=
  if x =? 0 then []
  else (if 10 <? b then "@"%char else "e"%char)
         :: list_ascii_of_string (lua_Integer2str x).

(** No terminator among the characters. *)
Definition nul_free (cs : list ascii) : bool :=
  forallb (fun c => negb (Ascii.eqb c NUL)) cs.

(** * Properties of the dispatcher *)

(** ** Arguments *)

Lemma to_int_rnd_code (r : mpfr_rnd_t) : to_int (rnd_code r) = rnd_code r.
Proof. destruct r; reflexivity. Qed.

Lemma checkudata_handle (args : list lua_value) (i : nat) (p : addr) (L : lua_State cell) :
  index args i = Some (handle p) ->
  luaL_checkudata args i MPFR L = Ret p L.
Proof.
  intros H. unfold luaL_checkudata. rewrite H. reflexivity.
Qed.

Lemma to_ulong_id (i : Z) :
  (0 <=? i) && (i <=? ULONG_MAX dm) = true -> to_ulong dm i = i.
Proof.
  intros H. apply andb_prop in H. destruct H as [H0 H1].
  apply Z.leb_le in H0. apply Z.leb_le in H1.
  unfold to_ulong, wrap_unsigned. apply Z.mod_small.
  unfold ULONG_MAX in H1. lia.
Qed.

Lemma to_long_id (i : Z) :
  LONG_MIN dm <= i <= LONG_MAX dm -> to_long dm i = i.
Proof.
  unfold LONG_MIN, LONG_MAX, to_long, wrap_signed. intros H.
  assert (E : 2 ^ long_bits dm = 2 * 2 ^ (long_bits dm - 1)).
  { destruct dm; reflexivity. }
  rewrite Z.mod_small; lia.
Qed.

(** A rounding mode passed as its integer is received unchanged. *)
Lemma opt_rnd_given (args : list lua_value) (i : nat) (r : mpfr_rnd_t) (L : lua_State cell) :
  index args i = Some (LInteger (rnd_code r)) ->
  _opt_rnd args i L = Ret (rnd_code r) L.
Proof.
  intros H. unfold _opt_rnd, luaL_optinteger, lua_isnoneornil, luaL_checkinteger,
    lua_tointegerx, bind, mpfr_get_default_rounding_mode, ret.
  rewrite H. rewrite to_int_rnd_code. reflexivity.
Qed.

(** ** pow: the position named by a range error *)

(** C6 (the code at the failing input pow (z, 2, -1)): the exponent is the
    third argument and is out of the range of unsigned long, and the error
    raised names argument 2; the message names the C type, and the
    destination is as it was. *)
Theorem C6_pow_exponent_error_names_argument_2 :
  forall (z : addr) (L : lua_State cell),
    fr_pow [handle z; LInteger 2; LInteger (-1)] L
    = Raise (ArgError 2 "out of range of unsigned long") L.
Proof.
  intros z L. unfold fr_pow, bind. simpl.
  destruct dm; reflexivity.
Qed.

(** ** fac: a second argument that is not a number *)

(** C7 (the code at the failing inputs fac (z, nil), fac (z, true),
    fac (z, {}) and fac (z, u) for a userdata u): no error is raised; the
    argument is read as 0 and the destination receives the factorial of
    0 in the default rounding mode. *)
Theorem C7_fac_accepts_non_numbers :
  forall (z : addr) (L : lua_State cell),
    let done :=
      Ret [handle z]
          (set_cell L z (mpfr_fac_ui (heap L z) 0 (to_int (default_rounding_mode L)))) in
    fr_fac [handle z; LNil] L = done
    /\ (forall b, fr_fac [handle z; LBoolean b] L = done)
    /\ (forall id, fr_fac [handle z; LTable id] L = done)
    /\ (forall t p, fr_fac [handle z; LUserdata t p] L = done).
Proof.
  intros z L done. unfold done, fr_fac, bind. simpl.
  destruct dm; repeat split; reflexivity.
Qed.

(** ** copysign *)

(** C3 (the code at every input): a call never returns; with three
    handles, the checks pass and the call to the engine reads locals that
    were never assigned. *)
Theorem C3_copysign_never_returns :
  forall (args : list lua_value) (L : lua_State cell),
    (forall vs L', fr_copysign args L <> Ret vs L')
    /\ (forall d x y : addr,
          fr_copysign [handle d; handle x; handle y] L = Undef).
Proof.
  intros args L. split.
  - intros vs L'. unfold fr_copysign, bind.
    destruct (luaL_checkudata args 1 MPFR L) as [a1 L1 | |]; try discriminate.
    destruct (luaL_checkudata args 2 MPFR L1) as [a2 L2 | |]; try discriminate.
    destruct (luaL_checkudata args 3 MPFR L2) as [a3 L3 | |]; try discriminate.
    destruct (_opt_rnd args 4 L3) as [r4 L4 | |]; discriminate.
  - intros d x y. reflexivity.
Qed.

(** ** set with a number *)

(** C2 (the code at the failing inputs set (z, n, r) for an integer n):
    a number passes lua_isstring, so the third argument is taken as the
    base of the decimal rendering of n.  With r = RNDN or RNDZ the call
    raises a range error on argument 3; with the other modes the text of
    n is parsed in base 2, 3 or 4 in the default rounding mode. *)
Theorem C2_set_number_takes_string_path :
  forall (z : addr) (n : Z) (r : mpfr_rnd_t) (L : lua_State cell),
    fr_set [handle z; LInteger n; LInteger (rnd_code r)] L
    = if rnd_code r <? 2 then Raise (ArgError 3 bad_base) L
      else
        let '(c, status) :=
          mpfr_set_str (heap L z) (lua_Integer2str n) (rnd_code r)
                       (to_int (default_rounding_mode L)) in
        if status =? 0 then Ret [handle z] (set_cell L z c)
        else Raise (ArgError 2 bad_number) (set_cell L z c).
Proof.
  intros z n r L. unfold fr_set, bind. simpl.
  destruct r; simpl; try reflexivity;
    unfold to_int at 1;
    match goal with
    | |- context [wrap_signed 32 ?k] => change (wrap_signed 32 k) with k
    end;
    match goal with
    | |- context [mpfr_set_str ?a ?b ?c ?d] =>
        destruct (mpfr_set_str a b c d) as [c0 st]
    end;
    destruct (st =? 0); reflexivity.
Qed.

(** ** Unary operations with an integer alternative *)

(** What [fr_fn1u] does with a second argument [v], for the handle
    variant [f] and the integer variant [g]. *)
Lemma fr_fn1u_dispatch
  (f : cell -> cell -> Z -> cell) (g : cell -> Z -> Z -> cell)
  (z : addr) (v : lua_value) (r : mpfr_rnd_t) (L : lua_State cell) :
  fr_fn1u [Some (Fn_fr f); Some (Fn_ui g)] [handle z; v; LInteger (rnd_code r)] L
  = fn1u_selection f g z v (rnd_code r) L.
Proof.
  unfold fr_fn1u, fn1u_selection, bind.
  rewrite (checkudata_handle _ 1 z) by reflexivity.
  rewrite (opt_rnd_given _ 3 r) by reflexivity.
  destruct v as [ | b | i | x | s | id | t x ]; try reflexivity.
  - cbn [lua_isinteger index nth_error lua_tointeger lua_tointegerx].
    destruct ((0 <=? i) && (i <=? ULONG_MAX dm)) eqn:E.
    + cbn. rewrite (to_ulong_id i E). reflexivity.
    + reflexivity.
  - cbn [lua_isinteger index nth_error luaL_checkudata].
    destruct (String.eqb t MPFR); reflexivity.
Qed.

(** C9 (the code, the failing inputs included): sqrt and zeta are
    registered with their handle and integer variants; fr_fn1u guards
    the integer variant with lua_isinteger, so it is selected exactly
    when the second argument is an integer of the host within
    [0, ULONG_MAX], an integer outside raises a range error on argument
    2, and the handle variant is selected exactly when the second
    argument is a handle.  Any other second argument raises a type error
    on argument 2: so does a float with an integral value such as 4.0,
    which the other functions of the binding take for the integer 4. *)
Theorem C9_fn1u_selects_by_integer_subtype :
  forall (z : addr) (v : lua_value) (r : mpfr_rnd_t) (L : lua_State cell),
    (exists c, lookup "sqrt" (_reg_fn1u _fn1u_reg) = Some c
               /\ c [handle z; v; LInteger (rnd_code r)] L
                  = fn1u_selection mpfr_sqrt mpfr_sqrt_ui z v (rnd_code r) L)
    /\ (exists c, lookup "zeta" (_reg_fn1u _fn1u_reg) = Some c
                  /\ c [handle z; v; LInteger (rnd_code r)] L
                     = fn1u_selection mpfr_zeta mpfr_zeta_ui z v (rnd_code r) L).
Proof.
  intros z v r L. split; eexists; (split; [reflexivity | ]); cbn [option_map];
    apply fr_fn1u_dispatch.
Qed.

(** ** Errors and the destination *)

Lemma pure_atomic {A} (c : M A) : pure_step c -> atomic c.
Proof.
  intros H L. specialize (H L). unfold unchanged_on_raise.
  destruct (c L); auto.
Qed.

Lemma quiet_atomic {A} (c : M A) : raises_nothing c -> atomic c.
Proof.
  intros H L. specialize (H L). unfold unchanged_on_raise.
  destruct (c L); tauto.
Qed.

Lemma pure_bind {A B} (c : M A) (k : A -> M B) :
  pure_step c -> (forall a, pure_step (k a)) -> pure_step (bind c k).
Proof.
  intros Hc Hk L. unfold bind. specialize (Hc L).
  destruct (c L) as [a L1 | e L1 | ]; auto.
  subst L1. apply Hk.
Qed.

Lemma quiet_bind {A B} (c : M A) (k : A -> M B) :
  raises_nothing c -> (forall a, raises_nothing (k a)) -> raises_nothing (bind c k).
Proof.
  intros Hc Hk L. unfold bind. specialize (Hc L).
  destruct (c L) as [a L1 | e L1 | ]; auto.
  apply Hk.
Qed.

Lemma atomic_bind {A B} (c : M A) (k : A -> M B) :
  pure_step c -> (forall a, atomic (k a)) -> atomic (bind c k).
Proof.
  intros Hc Hk L. unfold bind, unchanged_on_raise. specialize (Hc L).
  destruct (c L) as [a L1 | e L1 | ]; auto.
  subst L1. apply Hk.
Qed.

Lemma atomic_then_quiet {A B} (c : M A) (k : A -> M B) :
  atomic c -> (forall a, raises_nothing (k a)) -> atomic (bind c k).
Proof.
  intros Hc Hk L. unfold bind, unchanged_on_raise. specialize (Hc L).
  destruct (c L) as [a L1 | e L1 | ]; auto.
  specialize (Hk a L1). destruct (k a L1); tauto.
Qed.

Lemma pure_ret {A} (a : A) : pure_step (ret (cell := cell) a).
Proof. intros L. reflexivity. Qed.

Lemma pure_argerror {A} i msg : pure_step (luaL_argerror (cell := cell) (A := A) i msg).
Proof. intros L. reflexivity. Qed.

Lemma pure_undefined {A} : pure_step (undefined (cell := cell) (A := A)).
Proof. intros L. exact I. Qed.

Lemma pure_load p : pure_step (load (cell := cell) p).
Proof. intros L. reflexivity. Qed.

Lemma pure_default_rnd : pure_step (mpfr_get_default_rounding_mode (cell := cell)).
Proof. intros L. reflexivity. Qed.

Lemma pure_defined {A} (o : option A) : pure_step (defined (cell := cell) o).
Proof. destruct o; [apply pure_ret | apply pure_undefined]. Qed.

Lemma pure_argcheck b i msg : pure_step (luaL_argcheck (cell := cell) b i msg).
Proof. destruct b; [apply pure_ret | apply pure_argerror]. Qed.

Lemma quiet_ret {A} (a : A) : raises_nothing (ret (cell := cell) a).
Proof. intros L. exact I. Qed.

Lemma quiet_undefined {A} : raises_nothing (undefined (cell := cell) (A := A)).
Proof. intros L. exact I. Qed.

Lemma quiet_load p : raises_nothing (load (cell := cell) p).
Proof. intros L. exact I. Qed.

Lemma quiet_store p c : raises_nothing (store (cell := cell) p c).
Proof. intros L. exact I. Qed.

Lemma quiet_settop args n : raises_nothing (lua_settop args n).
Proof. intros L. exact I. Qed.

(** One step of a proof that a computation is pure, quiet or atomic:
    split a sequence, or decide the test a branch depends on. *)
Ltac effect_step :=
  match goal with
  | |- pure_step (bind _ _) => apply pure_bind; [ | intros ? ]
  | |- raises_nothing (bind _ _) => apply quiet_bind; [ | intros ? ]
  | |- pure_step (ret _) => apply pure_ret
  | |- pure_step (luaL_argerror _ _) => apply pure_argerror
  | |- pure_step (luaL_argcheck _ _ _) => apply pure_argcheck
  | |- pure_step undefined => apply pure_undefined
  | |- pure_step (defined _) => apply pure_defined
  | |- pure_step (load _) => apply pure_load
  | |- pure_step mpfr_get_default_rounding_mode => apply pure_default_rnd
  | |- raises_nothing (ret _) => apply quiet_ret
  | |- raises_nothing undefined => apply quiet_undefined
  | |- raises_nothing (load _) => apply quiet_load
  | |- raises_nothing (store _ _) => apply quiet_store
  | |- raises_nothing (lua_settop _ _) => apply quiet_settop
  | |- ?P (match ?x with _ => _ end) => destruct x
  end.

Ltac effects := repeat effect_step.

Lemma pure_typeerror {A} args i tname : pure_step (luaL_typeerror (A := A) args i tname).
Proof. unfold luaL_typeerror. effects. Qed.

Lemma pure_checkudata args i tname : pure_step (luaL_checkudata args i tname).
Proof. unfold luaL_checkudata. effects; apply pure_typeerror. Qed.

Lemma pure_checkinteger args i : pure_step (luaL_checkinteger args i).
Proof. unfold luaL_checkinteger. effects; apply pure_typeerror. Qed.

Lemma pure_optinteger args i def : pure_step (luaL_optinteger args i def).
Proof. unfold luaL_optinteger. effects; apply pure_checkinteger. Qed.

Lemma pure_opt_rnd args i : pure_step (_opt_rnd args i).
Proof. unfold _opt_rnd. effects. apply pure_optinteger. Qed.

Lemma pure_opt_base args i : pure_step (_opt_base args i).
Proof. unfold _opt_base. effects. apply pure_optinteger. Qed.

Lemma pure_check_value args i : pure_step (_check_value args i).
Proof. unfold _check_value. effects. apply pure_checkudata. Qed.

Lemma quiet_call_fr_fr fn z x y r : raises_nothing (call_fr_fr fn z x y r).
Proof. unfold call_fr_fr. effects. Qed.

Lemma quiet_call_fr_si fn z x i r : raises_nothing (call_fr_si fn z x i r).
Proof. unfold call_fr_si. effects. Qed.

Lemma quiet_call_fr_d fn z x d r : raises_nothing (call_fr_d fn z x d r).
Proof. unfold call_fr_d. effects. Qed.

Lemma quiet_call_si_fr fn z i y r : raises_nothing (call_si_fr fn z i y r).
Proof. unfold call_si_fr. effects. Qed.

Lemma quiet_call_d_fr fn z d y r : raises_nothing (call_d_fr fn z d y r).
Proof. unfold call_d_fr. effects. Qed.

Lemma quiet_call_fr fn z x r : raises_nothing (call_fr fn z x r).
Proof. unfold call_fr. effects. Qed.

Lemma quiet_call_ui fn z i r : raises_nothing (call_ui fn z i r).
Proof. unfold call_ui. effects. Qed.

(** One step of a proof that a binding function is atomic: a check in
    front is pure, the call to the engine and the return are quiet. *)
Ltac atomic_step :=
  match goal with
  | |- atomic (bind (luaL_checkudata _ _ _) _) =>
      apply atomic_bind; [apply pure_checkudata | intros ? ]
  | |- atomic (bind (_opt_rnd _ _) _) =>
      apply atomic_bind; [apply pure_opt_rnd | intros ? ]
  | |- atomic (bind (_opt_base _ _) _) =>
      apply atomic_bind; [apply pure_opt_base | intros ? ]
  | |- atomic (bind (luaL_optinteger _ _ _) _) =>
      apply atomic_bind; [apply pure_optinteger | intros ? ]
  | |- atomic (bind (_check_value _ _) _) =>
      apply atomic_bind; [apply pure_check_value | intros ? ]
  | |- atomic (bind (luaL_argcheck _ _ _) _) =>
      apply atomic_bind; [apply pure_argcheck | intros ? ]
  | |- atomic (bind (load _) _) =>
      apply atomic_bind; [apply pure_load | intros ? ]
  | |- atomic (bind (defined _) _) =>
      apply atomic_bind; [apply pure_defined | intros ? ]
  | |- atomic (bind (read_local _) _) =>
      apply atomic_bind; [apply pure_defined | intros ? ]
  | |- atomic (bind _ (fun _ => lua_settop _ _)) =>
      apply atomic_then_quiet; [ | intros ?; apply quiet_settop ]
  | |- atomic (store _ _) => apply quiet_atomic, quiet_store
  | |- atomic (ret _) => apply quiet_atomic, quiet_ret
  | |- atomic (call_fr_fr _ _ _ _ _) => apply quiet_atomic, quiet_call_fr_fr
  | |- atomic (call_fr_si _ _ _ _ _) => apply quiet_atomic, quiet_call_fr_si
  | |- atomic (call_fr_d _ _ _ _ _) => apply quiet_atomic, quiet_call_fr_d
  | |- atomic (call_si_fr _ _ _ _ _) => apply quiet_atomic, quiet_call_si_fr
  | |- atomic (call_d_fr _ _ _ _ _) => apply quiet_atomic, quiet_call_d_fr
  | |- atomic (call_fr _ _ _ _) => apply quiet_atomic, quiet_call_fr
  | |- atomic (call_ui _ _ _ _) => apply quiet_atomic, quiet_call_ui
  | |- atomic (match ?x with _ => _ end) => destruct x
  end.

Lemma fr_fac_atomic args : atomic (fr_fac args).
Proof. unfold fr_fac. repeat atomic_step. Qed.

Lemma fr_pow_atomic args : atomic (fr_pow args).
Proof. unfold fr_pow. repeat atomic_step. Qed.

Lemma fr_fn1u_atomic ups args : atomic (fr_fn1u ups args).
Proof. unfold fr_fn1u. repeat atomic_step. Qed.

Lemma fr_fn2_atomic ups args : atomic (fr_fn2 ups args).
Proof. unfold fr_fn2. repeat atomic_step. Qed.

Lemma fr_copysign_atomic args : atomic (fr_copysign args).
Proof.
  unfold fr_copysign. repeat atomic_step.
Qed.

Lemma fr_tostring_atomic args : atomic (fr_tostring args).
Proof.
  unfold fr_tostring. repeat atomic_step.
  all: try (apply pure_atomic; effects).
Qed.

(** What a call of set with a string and explicit base and rounding mode
    does. *)
Lemma fr_set_string (z : addr) (s : string) (b : Z) (r : mpfr_rnd_t) (L : lua_State cell) :
  fr_set [handle z; LString s; LInteger b; LInteger (rnd_code r)] L
  = set_string_outcome z s b (rnd_code r) L.
Proof.
  unfold fr_set, set_string_outcome, bind.
  rewrite (checkudata_handle _ 1 z) by reflexivity.
  cbn [lua_isstring index nth_error].
  rewrite (opt_rnd_given _ 4 r) by reflexivity.
  cbn [lua_tostring index nth_error].
  unfold _opt_base, luaL_optinteger, bind. cbn.
  destruct ((2 <=? b) && (b <=? 62)) eqn:E; [ | reflexivity ].
  cbn.
  assert (Hb : to_int b = b).
  { apply andb_prop in E. destruct E as [E1 E2].
    apply Z.leb_le in E1. apply Z.leb_le in E2.
    unfold to_int, wrap_signed. rewrite Z.mod_small; lia. }
  rewrite Hb.
  destruct (mpfr_set_str (heap L z) s b (rnd_code r)) as [c st].
  cbn. destruct (st =? 0); reflexivity.
Qed.

(** An error raised by set leaves the state as it was, unless it is the
    error on the text, raised after the parser of the engine has written
    the destination. *)
Lemma fr_set_raise (args : list lua_value) (L : lua_State cell) :
  match fr_set args L with
  | Raise e L' =>
      L' = L
      \/ (e = ArgError 2 bad_number
          /\ exists z s b r,
               L' = set_cell L z (fst (mpfr_set_str (heap L z) s b r)))
  | _ => True
  end.
Proof.
  unfold fr_set, bind.
  pose proof (pure_checkudata args 1 MPFR L) as H1.
  destruct (luaL_checkudata args 1 MPFR L) as [z L1 | e L1 | ]; auto.
  subst L1.
  destruct (lua_isstring args 2).
  - pose proof (pure_opt_rnd args 4 L) as H2.
    destruct (_opt_rnd args 4 L) as [r L2 | e L2 | ]; auto.
    subst L2.
    destruct (lua_tostring args 2) as [s | ]; [ | exact I ].
    pose proof (pure_opt_base args 3 L) as H3.
    destruct (_opt_base args 3 L) as [b L3 | e L3 | ]; auto.
    subst L3. cbn.
    destruct (mpfr_set_str (heap L z) s b r) as [c st] eqn:E.
    cbn. destruct (st =? 0); cbn; auto.
    right. split; [reflexivity | ].
    exists z, s, b, r. rewrite E. reflexivity.
  - assert (A : atomic (r <- _opt_rnd args 3 ;;
                        v <- _check_value args 2 ;;
                        match v with
                        | V_LONG i => cz <- load z ;; store z (mpfr_set_si cz i r)
                        | V_DOUBLE d => cz <- load z ;; store z (mpfr_set_d cz d r)
                        | V_MPFR fr =>
                            cz <- load z ;; cx <- load fr ;; store z (mpfr_set cz cx r)
                        end)).
    { repeat atomic_step. }
    specialize (A L). unfold unchanged_on_raise, bind in A.
    match type of A with
    | match ?c with _ => _ end =>
        match goal with |- context [match ?c' with _ => _ end] =>
          change c' with c; destruct c as [u L4 | e L4 | ]
        end
    end; auto.
Qed.

(** C5 (amended): in fac, pow, the unary operations with an integer
    alternative, the mixed binary operations, copysign and tostring, an
    error leaves every cell as it was.  In set, an error leaves every
    cell as it was unless it is the error on the text: set (z, s, b, r)
    with a string s hands s to the parser of the engine, stores in z
    what the parser leaves, and raises an error on argument 2 when the
    status is not 0. *)
Theorem C5_errors_and_the_destination :
  (forall args, atomic (fr_fac args))
  /\ (forall args, atomic (fr_pow args))
  /\ (forall ups args, atomic (fr_fn1u ups args))
  /\ (forall ups args, atomic (fr_fn2 ups args))
  /\ (forall args, atomic (fr_copysign args))
  /\ (forall args, atomic (fr_tostring args))
  /\ (forall args L,
        match fr_set args L with
        | Raise e L' =>
            L' = L
            \/ (e = ArgError 2 bad_number
                /\ exists z s b r,
                     L' = set_cell L z (fst (mpfr_set_str (heap L z) s b r)))
        | _ => True
        end)
  /\ (forall z s b r L,
        fr_set [handle z; LString s; LInteger b; LInteger (rnd_code r)] L
        = set_string_outcome z s b (rnd_code r) L).
Proof.
  repeat split.
  - apply fr_fac_atomic.
  - apply fr_pow_atomic.
  - apply fr_fn1u_atomic.
  - apply fr_fn2_atomic.
  - apply fr_copysign_atomic.
  - apply fr_tostring_atomic.
  - apply fr_set_raise.
  - apply fr_set_string.
Qed.

(** ** Character buffers *)

Lemma firstn_length_app {A} (l tl : list A) : firstn (List.length l) (l ++ tl) = l.
Proof.
  induction l as [ | a l IH]; cbn; [destruct tl | rewrite IH]; reflexivity.
Qed.

Lemma skipn_length_app {A} (l tl : list A) : skipn (List.length l) (l ++ tl) = tl.
Proof.
  induction l as [ | a l IH]; cbn; [ | rewrite IH]; reflexivity.
Qed.

Lemma poke_middle (pre tl : list ascii) (old c : ascii) :
  poke (pre ++ old :: tl) (List.length pre) c = Some (pre ++ c :: tl)%list.
Proof.
  unfold poke.
  assert (Hlt : Nat.ltb (List.length pre) (List.length (pre ++ old :: tl)) = true).
  { apply Nat.ltb_lt. rewrite length_app. cbn. lia. }
  rewrite Hlt, firstn_length_app.
  change (S (List.length pre)) with (1 + List.length pre)%nat.
  rewrite <- skipn_skipn, skipn_length_app. reflexivity.
Qed.

Lemma poke_list_middle (cs pre mid post : list ascii) :
  List.length mid = List.length cs ->
  poke_list (pre ++ mid ++ post) (List.length pre) cs = Some (pre ++ cs ++ post)%list.
Proof.
  revert pre mid. induction cs as [ | c cs IH]; intros pre mid H.
  - destruct mid; [reflexivity | discriminate].
  - destruct mid as [ | m mid]; [discriminate | ].
    cbn [poke_list]. cbn [app]. rewrite poke_middle.
    injection H as H.
    replace (pre ++ c :: mid ++ post)%list with ((pre ++ [c]) ++ mid ++ post)%list
      by (rewrite <- app_assoc; reflexivity).
    replace (S (List.length pre)) with (List.length (pre ++ [c]))
      by (rewrite length_app; cbn; lia).
    rewrite (IH _ _ H). rewrite <- app_assoc. reflexivity.
Qed.

(** A C string stored at offset 1 of a fresh block that has room for it. *)
Lemma write_cstr_fresh (sz : nat) (s : string) :
  (String.length s + 2 <= sz)%nat ->
  write_cstr (repeat NUL sz) 1 s
  = Some (NUL :: list_ascii_of_string s
            ++ NUL :: repeat NUL (sz - String.length s - 2))%list.
Proof.
  intros H. unfold write_cstr.
  assert (Hl : List.length (list_ascii_of_string s) = String.length s).
  { clear H. induction s as [ | c s IH]; cbn; [reflexivity | rewrite IH; reflexivity]. }
  replace sz with (1 + (S (String.length s) + (sz - String.length s - 2)))%nat at 1 by lia.
  rewrite repeat_app, repeat_app.
  change (repeat NUL 1) with [NUL].
  change 1%nat with (List.length [NUL]) at 1.
  rewrite poke_list_middle.
  - cbn [app]. rewrite <- app_assoc. reflexivity.
  - rewrite repeat_length, length_app, Hl. cbn. lia.
Qed.

(** A write that runs past the end of the block has no defined result. *)
Lemma poke_list_overrun (cs : list ascii) :
  forall (mem : list ascii) (off : nat),
    cs <> [] ->
    (List.length mem < off + List.length cs)%nat ->
    poke_list mem off cs = None.
Proof.
  induction cs as [ | c cs IH]; intros mem off Hne Hlen; [contradiction | ].
  cbn [poke_list]. unfold poke.
  destruct (Nat.ltb_spec off (List.length mem)) as [Hlt | Hge]; [ | reflexivity].
  destruct cs as [ | c' cs'].
  - cbn [List.length] in Hlen. lia.
  - apply IH; [discriminate | ].
    rewrite length_app, length_firstn. cbn [List.length]. rewrite length_skipn.
    cbn [List.length] in Hlen. lia.
Qed.

(** A C string stored at offset 1 of a block that has no room for it. *)
Lemma write_cstr_overrun (sz : nat) (s : string) :
  (sz < String.length s + 2)%nat ->
  write_cstr (repeat NUL sz) 1 s = None.
Proof.
  intros H. unfold write_cstr.
  assert (Hl : List.length (list_ascii_of_string s) = String.length s).
  { clear H. induction s as [ | c s IH]; cbn; [reflexivity | rewrite IH; reflexivity]. }
  apply poke_list_overrun.
  - destruct (list_ascii_of_string s); discriminate.
  - rewrite repeat_length, length_app, Hl. cbn [List.length]. lia.
Qed.

Lemma strlen_terminated (cs tl : list ascii) :
  nul_free cs = true -> strlen (cs ++ NUL :: tl) = Some (List.length cs).
Proof.
  induction cs as [ | c cs IH]; intros H.
  - reflexivity.
  - cbn in H. apply andb_prop in H. destruct H as [Hc Hcs].
    cbn [app strlen List.length].
    apply negb_true_iff in Hc. rewrite Hc.
    rewrite (IH Hcs). reflexivity.
Qed.

Lemma append_empty_r (s : string) : (s ++ "")%string = s.
Proof.
  induction s as [ | c s IH]; cbn; [reflexivity | rewrite IH; reflexivity].
Qed.

Lemma string_of_list_ascii_app (a b : list ascii) :
  string_of_list_ascii (a ++ b) = (string_of_list_ascii a ++ string_of_list_ascii b)%string.
Proof.
  induction a as [ | c a IH]; cbn; [reflexivity | rewrite IH; reflexivity].
Qed.

(** ** tostring of a regular number *)

Lemma to_int_base (b : Z) : 2 <= b <= 62 -> to_int b = b.
Proof.
  intros H. unfold to_int, wrap_signed. rewrite Z.mod_small; lia.
Qed.

Lemma to_size_t_count (n : Z) : 0 <= n <= LUA_MAXINTEGER -> to_size_t n = n.
Proof.
  unfold LUA_MAXINTEGER, to_size_t, wrap_unsigned. intros H.
  apply Z.mod_small. lia.
Qed.

(** What tostring does with the digits the engine renders for a regular
    number: the sign and the first digit move one byte down, the point
    takes the place of the first digit, and the exponent follows. *)
Lemma fr_tostring_regular :
  forall (z : addr) (b n : Z) (r : mpfr_rnd_t) (L : lua_State cell)
         (neg : bool) (d1 : ascii) (rest : string) (e : Z),
    2 <= b <= 62 ->
    0 <= n <= LUA_MAXINTEGER ->
    mpfr_number_p (heap L z) = true ->
    mpfr_zero_p (heap L z) = false ->
    mpfr_get_str b n (heap L z) (rnd_code r)
    = ((if neg then "-" else "") ++ String d1 rest, e) ->
    Ascii.eqb d1 "-" = false ->
    nul_free (d1 :: list_ascii_of_string rest) = true ->
    (String.length ((if neg then "-" else "") ++ String d1 rest) + 2
     <= Z.to_nat (to_size_t (_outbufsize (heap L z) b n + 1)))%nat ->
    fr_tostring [handle z; LInteger b; LInteger n; LInteger (rnd_code r)] L
    = Ret [LString (layout neg d1 rest b e)] L.
Proof.
  intros z b n r L neg d1 rest e Hb Hn Hnum Hzero Hstr Hd1 Hnul Hfit.
  unfold fr_tostring, bind.
  rewrite (checkudata_handle _ 1 z) by reflexivity.
  unfold _opt_base, luaL_optinteger, bind.
  cbn [lua_isnoneornil index nth_error luaL_checkinteger lua_tointegerx ret].
  assert (Hbb : (2 <=? b) && (b <=? 62) = true).
  { apply andb_true_intro. split; apply Z.leb_le; lia. }
  rewrite Hbb. cbn [luaL_argcheck ret].
  rewrite (to_int_base b Hb), (to_size_t_count n Hn).
  rewrite (opt_rnd_given _ 4 r) by reflexivity.
  cbn [load]. rewrite Hnum, Hzero. cbn [negb].
  rewrite Hstr.
  rewrite (write_cstr_fresh _ _ Hfit). cbn [defined ret].
  unfold strlen_at. cbn [skipn].
  set (tl := repeat NUL _).
  assert (Hsign : nul_free (list_ascii_of_string
                              ((if neg then "-" else "") ++ String d1 rest)) = true).
  { destruct neg; [ | exact Hnul ].
    unfold nul_free in *. cbn [append list_ascii_of_string forallb] in *.
    change (negb (Ascii.eqb "-" NUL)) with true. exact Hnul. }
  rewrite (strlen_terminated _ tl Hsign). cbn [defined ret].
  rewrite !Nat.add_1_r. unfold layout.
  set (chars := list_ascii_of_string rest) in *.
  assert (Hk : Nat.leb (List.length chars) (List.length (chars ++ NUL :: tl)) = true).
  { apply Nat.leb_le. rewrite length_app. lia. }
  assert (Hbody : firstn (List.length chars) (chars ++ NUL :: tl) = chars)
    by apply firstn_length_app.
  assert (Hback : string_of_list_ascii chars = rest)
    by apply string_of_list_ascii_of_string.
  destruct neg; cbn [append list_ascii_of_string]; fold chars;
    cbn [app peek nth_error defined ret List.length].
  - change (Ascii.eqb "-" "-") with true. cbv iota.
    unfold poke. cbn [List.length Nat.ltb Nat.leb firstn skipn app defined ret
                        peek nth_error].
    rewrite Hk. cbn [firstn defined ret]. rewrite Hbody.
    destruct (e - 1 =? 0).
    + cbn [string_of_list_ascii]. rewrite Hback, append_empty_r. reflexivity.
    + rewrite string_of_list_ascii_app. cbn [string_of_list_ascii].
      rewrite Hback, string_of_list_ascii_of_string. reflexivity.
  - rewrite Hd1.
    unfold poke. cbn [List.length Nat.ltb Nat.leb firstn skipn app defined ret
                        peek nth_error].
    rewrite Hk. cbn [firstn defined ret]. rewrite Hbody.
    destruct (e - 1 =? 0).
    + cbn [string_of_list_ascii]. rewrite Hback, append_empty_r. reflexivity.
    + rewrite string_of_list_ascii_app. cbn [string_of_list_ascii].
      rewrite Hback, string_of_list_ascii_of_string. reflexivity.
Qed.

(** What tostring does when the digits the engine renders do not fit
    the block the size formula has reserved: the engine writes past its
    end. *)
Lemma fr_tostring_overrun :
  forall (z : addr) (b n : Z) (r : mpfr_rnd_t) (L : lua_State cell)
         (str : string) (e : Z),
    2 <= b <= 62 ->
    0 <= n <= LUA_MAXINTEGER ->
    mpfr_number_p (heap L z) = true ->
    mpfr_zero_p (heap L z) = false ->
    mpfr_get_str b n (heap L z) (rnd_code r) = (str, e) ->
    (Z.to_nat (to_size_t (_outbufsize (heap L z) b n + 1)) < String.length str + 2)%nat ->
    fr_tostring [handle z; LInteger b; LInteger n; LInteger (rnd_code r)] L = Undef.
Proof.
  intros z b n r L str e Hb Hn Hnum Hzero Hstr Hshort.
  unfold fr_tostring, bind.
  rewrite (checkudata_handle _ 1 z) by reflexivity.
  unfold _opt_base, luaL_optinteger, bind.
  cbn [lua_isnoneornil index nth_error luaL_checkinteger lua_tointegerx ret].
  assert (Hbb : (2 <=? b) && (b <=? 62) = true).
  { apply andb_true_intro. split; apply Z.leb_le; lia. }
  rewrite Hbb. cbn [luaL_argcheck ret].
  rewrite (to_int_base b Hb), (to_size_t_count n Hn).
  rewrite (opt_rnd_given _ 4 r) by reflexivity.
  cbn [load]. rewrite Hnum, Hzero. cbn [negb].
  rewrite Hstr.
  rewrite (write_cstr_overrun _ _ Hshort). reflexivity.
Qed.

(** ** Mixed binary operations: which primitive is called *)

Lemma check_value_long (args : list lua_value) (i : nat) (n : Z) (L : lua_State cell) :
  index args i = Some (LInteger n) ->
  LONG_MIN dm <= n <= LONG_MAX dm ->
  _check_value args i L = Ret (V_LONG n) L.
Proof.
  intros H Hn. unfold _check_value, lua_isnumber, lua_tointegerx.
  rewrite H. rewrite (to_long_id n Hn), Z.eqb_refl. reflexivity.
Qed.

Lemma check_value_handle (args : list lua_value) (i : nat) (p : addr) (L : lua_State cell) :
  index args i = Some (handle p) ->
  _check_value args i L = Ret (V_MPFR p) L.
Proof.
  intros H. unfold _check_value, lua_isnumber, bind.
  rewrite H. cbn. rewrite (checkudata_handle _ i p) by exact H. reflexivity.
Qed.

(** handle, integer: the right-integer variant. *)
Lemma fn2_handle_long (row : fn2_reg) (f : cell -> cell -> Z -> Z -> cell)
  (d h : addr) (n : Z) (r : mpfr_rnd_t) (L : lua_State cell) :
  fn2_fr_si row = Some f ->
  LONG_MIN dm <= n <= LONG_MAX dm ->
  fn2_closure row [handle d; handle h; LInteger n; LInteger (rnd_code r)] L
  = Ret [handle d] (set_cell L d (f (heap L d) (heap L h) n (rnd_code r))).
Proof.
  intros Hf Hn.
  assert (E : forall ups, lua_touserdata ups 2 = Some (Fn_fr_si f) ->
            fr_fn2 ups [handle d; handle h; LInteger n; LInteger (rnd_code r)] L
            = Ret [handle d] (set_cell L d (f (heap L d) (heap L h) n (rnd_code r)))).
  { intros ups Hu. unfold fr_fn2, bind.
    rewrite (checkudata_handle _ 1 d) by reflexivity.
    rewrite (check_value_handle _ 2 h) by reflexivity.
    rewrite (opt_rnd_given _ 4 r) by reflexivity.
    rewrite (check_value_long _ 3 n) by (reflexivity || exact Hn).
    rewrite Hu. reflexivity. }
  unfold fn2_closure. destruct (fn2_si_fr row); apply E; cbn; rewrite Hf; reflexivity.
Qed.

(** handle, handle: the symmetric primitive. *)
Lemma fn2_handle_handle (row : fn2_reg) (f : cell -> cell -> cell -> Z -> cell)
  (d h k : addr) (r : mpfr_rnd_t) (L : lua_State cell) :
  fn2_fr_fr row = Some f ->
  fn2_closure row [handle d; handle h; handle k; LInteger (rnd_code r)] L
  = Ret [handle d] (set_cell L d (f (heap L d) (heap L h) (heap L k) (rnd_code r))).
Proof.
  intros Hf.
  assert (E : forall ups, lua_touserdata ups 1 = Some (Fn_fr_fr f) ->
            fr_fn2 ups [handle d; handle h; handle k; LInteger (rnd_code r)] L
            = Ret [handle d]
                  (set_cell L d (f (heap L d) (heap L h) (heap L k) (rnd_code r)))).
  { intros ups Hu. unfold fr_fn2, bind.
    rewrite (checkudata_handle _ 1 d) by reflexivity.
    rewrite (check_value_handle _ 2 h) by reflexivity.
    rewrite (opt_rnd_given _ 4 r) by reflexivity.
    rewrite (check_value_handle _ 3 k) by reflexivity.
    rewrite Hu. reflexivity. }
  unfold fn2_closure. destruct (fn2_si_fr row); apply E; cbn; rewrite Hf; reflexivity.
Qed.

(** integer, handle, in a row with a left-integer variant: that variant. *)
Lemma fn2_long_handle_left (row : fn2_reg) (f : cell -> Z -> cell -> Z -> cell)
  (d h : addr) (n : Z) (r : mpfr_rnd_t) (L : lua_State cell) :
  fn2_si_fr row = Some f ->
  LONG_MIN dm <= n <= LONG_MAX dm ->
  fn2_closure row [handle d; LInteger n; handle h; LInteger (rnd_code r)] L
  = Ret [handle d] (set_cell L d (f (heap L d) n (heap L h) (rnd_code r))).
Proof.
  intros Hf Hn. unfold fn2_closure. rewrite Hf.
  unfold fr_fn2, bind.
  rewrite (checkudata_handle _ 1 d) by reflexivity.
  rewrite (check_value_long _ 2 n) by (reflexivity || exact Hn).
  rewrite (opt_rnd_given _ 4 r) by reflexivity.
  rewrite (checkudata_handle _ 3 h) by reflexivity.
  reflexivity.
Qed.

(** integer, handle, in a row without a left-integer variant: the
    right-integer variant with the operands exchanged. *)
Lemma fn2_long_handle_commuted (row : fn2_reg) (f : cell -> cell -> Z -> Z -> cell)
  (d h : addr) (n : Z) (r : mpfr_rnd_t) (L : lua_State cell) :
  fn2_si_fr row = None ->
  fn2_fr_si row = Some f ->
  LONG_MIN dm <= n <= LONG_MAX dm ->
  fn2_closure row [handle d; LInteger n; handle h; LInteger (rnd_code r)] L
  = Ret [handle d] (set_cell L d (f (heap L d) (heap L h) n (rnd_code r))).
Proof.
  intros Hnone Hf Hn. unfold fn2_closure. rewrite Hnone, Hf.
  unfold fr_fn2, bind.
  rewrite (checkudata_handle _ 1 d) by reflexivity.
  rewrite (check_value_long _ 2 n) by (reflexivity || exact Hn).
  rewrite (opt_rnd_given _ 4 r) by reflexivity.
  rewrite (checkudata_handle _ 3 h) by reflexivity.
  reflexivity.
Qed.

Lemma heap_set_cell_same (L : lua_State cell) (p : addr) (c : cell) :
  heap (set_cell L p c) p = c.
Proof. cbn. rewrite Nat.eqb_refl. reflexivity. Qed.


(** ** pow: which primitive is called *)



(** * Properties of the rest of the surface *)

(** ** The arguments of a call, in any order *)

Lemma check_ret {A} (a : A) : check_step (ret (cell := cell) a).
Proof. intros L. reflexivity. Qed.

Lemma check_argerror {A} i msg : check_step (luaL_argerror (cell := cell) (A := A) i msg).
Proof. intros L. reflexivity. Qed.

Lemma check_bind {A B} (c : M A) (k : A -> M B) :
  check_step c -> (forall a, check_step (k a)) -> check_step (bind c k).
Proof.
  intros Hc Hk L. unfold bind. specialize (Hc L).
  destruct (c L) as [a L1 | e L1 | ]; auto.
  subst L1. apply Hk.
Qed.

Lemma check_argcheck b i msg : check_step (luaL_argcheck (cell := cell) b i msg).
Proof. destruct b; [apply check_ret | apply check_argerror]. Qed.

Lemma check_typeerror {A} args i tname : check_step (luaL_typeerror (A := A) args i tname).
Proof. unfold luaL_typeerror. apply check_argerror. Qed.

Lemma check_checkudata args i tname : check_step (luaL_checkudata args i tname).
Proof.
  unfold luaL_checkudata.
  destruct (index args i) as [[ | | | | | | t p] | ]; try apply check_typeerror.
  destruct (String.eqb t tname); [apply check_ret | apply check_typeerror].
Qed.

Lemma check_checkinteger args i : check_step (luaL_checkinteger args i).
Proof.
  unfold luaL_checkinteger. destruct (lua_tointegerx args i); [apply check_ret | ].
  destruct (lua_isnumber args i); [apply check_argerror | apply check_typeerror].
Qed.

Lemma check_optinteger args i def : check_step (luaL_optinteger args i def).
Proof.
  unfold luaL_optinteger.
  destruct (lua_isnoneornil args i); [apply check_ret | apply check_checkinteger].
Qed.

Lemma check_opt_rnd args i : check_step (_opt_rnd args i).
Proof.
  unfold _opt_rnd. apply check_bind; [intros L; reflexivity | intros d].
  apply check_bind; [apply check_optinteger | intros r; apply check_ret].
Qed.

Lemma check_check_prec args i : check_step (_check_prec args i).
Proof.
  unfold _check_prec. apply check_bind; [apply check_checkinteger | intros p].
  apply check_bind; [ | intros _; apply check_ret].
  destruct (negb _); [apply check_argerror | apply check_ret].
Qed.

Lemma check_arg_ptr (c : M addr) : check_step c -> check_step (arg_ptr c).
Proof. intros H. apply check_bind; [exact H | intros p; apply check_ret]. Qed.

Lemma check_arg_int (c : M Z) : check_step c -> check_step (arg_int c).
Proof. intros H. apply check_bind; [exact H | intros p; apply check_ret]. Qed.

Lemma arg_ptr_ret (c : M addr) (L L' : lua_State cell) (v : argval) :
  arg_ptr c L = Ret v L' -> exists p, v = APtr p /\ c L = Ret p L'.
Proof.
  unfold arg_ptr, bind. destruct (c L) as [p L1 | e L1 | ]; try discriminate.
  cbn. intros H. injection H as <- <-. exists p. split; reflexivity.
Qed.

Lemma arg_int_ret (c : M Z) (L L' : lua_State cell) (v : argval) :
  arg_int c L = Ret v L' -> exists n, v = AInt n /\ c L = Ret n L'.
Proof.
  unfold arg_int, bind. destruct (c L) as [p L1 | e L1 | ]; try discriminate.
  cbn. intros H. injection H as <- <-. exists p. split; reflexivity.
Qed.

Lemma arg_ptr_raise (c : M addr) (L L' : lua_State cell) (e : lua_error) :
  arg_ptr c L = Raise e L' -> c L = Raise e L'.
Proof.
  unfold arg_ptr, bind. destruct (c L) as [p L1 | e1 L1 | ]; try discriminate.
  intros H. injection H as <- <-. reflexivity.
Qed.

Lemma arg_int_raise (c : M Z) (L L' : lua_State cell) (e : lua_error) :
  arg_int c L = Raise e L' -> c L = Raise e L'.
Proof.
  unfold arg_int, bind. destruct (c L) as [p L1 | e1 L1 | ]; try discriminate.
  intros H. injection H as <- <-. reflexivity.
Qed.

(** What the expressions evaluated in some order leave: the state as it
    was, and either the value of each expression evaluated or the error
    of one of them. *)
Lemma eval_in_order_outcome (exprs : list (M argval)) (L : lua_State cell) :
  Forall check_step exprs ->
  forall ord,
    match eval_in_order exprs ord L with
    | Ret vs L' =>
        L' = L /\ map fst vs = ord
        /\ forall k v, In (k, v) vs ->
                       exists c, nth_error exprs k = Some c /\ c L = Ret v L
    | Raise e L' => L' = L /\ Exists (fun c => c L = Raise e L) exprs
    | Undef => exists k, In k ord /\ nth_error exprs k = None
    end.
Proof.
  intros Hall. induction ord as [ | k ord IH]; cbn [eval_in_order].
  - cbn. repeat split. intros k v [].
  - destruct (nth_error exprs k) as [c | ] eqn:Ek.
    + assert (Hc : check_step c).
      { rewrite Forall_forall in Hall. apply Hall. eapply nth_error_In; eassumption. }
      unfold bind at 1. specialize (Hc L).
      destruct (c L) as [v L1 | e L1 | ] eqn:Ec; [ | | contradiction].
      * subst L1. unfold bind at 1.
        destruct (eval_in_order exprs ord L) as [vs L2 | e L2 | ].
        -- destruct IH as (-> & Hm & Hin). cbn. repeat split.
           ++ rewrite Hm. reflexivity.
           ++ intros j w [Hjw | Hjw].
              ** injection Hjw as <- <-. exists c. split; assumption.
              ** apply Hin. exact Hjw.
        -- exact IH.
        -- destruct IH as (j & Hj & Hn). exists j. split; [right; exact Hj | exact Hn].
      * subst L1. split; [reflexivity | ].
        apply Exists_exists. exists c. split; [ | exact Ec].
        eapply nth_error_In; eassumption.
    + cbn. exists k. split; [left; reflexivity | exact Ek].
Qed.

Lemma value_at_in (k : nat) (vs : list (nat * argval)) (v : argval) :
  value_at k vs = Some v -> In (k, v) vs.
Proof.
  induction vs as [ | [j w] vs IH]; cbn [value_at]; [discriminate | ].
  destruct (Nat.eqb_spec j k) as [-> | Hne].
  - intros H. injection H as <-. left. reflexivity.
  - intros H. right. apply IH. exact H.
Qed.

Lemma value_at_found (k : nat) (vs : list (nat * argval)) :
  In k (map fst vs) -> exists v, value_at k vs = Some v.
Proof.
  induction vs as [ | [j w] vs IH]; cbn [map fst value_at In]; [intros [] | ].
  destruct (Nat.eqb_spec j k) as [-> | Hne].
  - intros _. exists w. reflexivity.
  - intros [H | H]; [contradiction | apply IH; exact H].
Qed.

Lemma positional_values (exprs : list (M argval)) (L : lua_State cell)
      (vs : list (nat * argval)) :
  (forall k v, In (k, v) vs -> exists c, nth_error exprs k = Some c /\ c L = Ret v L) ->
  forall (tail : list (M argval)) (k : nat) (l : list argval),
    (forall j, nth_error tail j = nth_error exprs (k + j)) ->
    positional k (List.length tail) vs = Some l ->
    Forall2 (fun c v => c L = Ret v L) tail l.
Proof.
  intros Hvs. induction tail as [ | c tail IH]; intros k l Htail; cbn [List.length positional].
  - intros H. injection H as <-. constructor.
  - destruct (value_at k vs) as [v | ] eqn:Ev; [ | discriminate].
    destruct (positional (S k) (List.length tail) vs) as [l' | ] eqn:El; [ | discriminate].
    intros H. injection H as <-.
    constructor.
    + apply value_at_in in Ev. destruct (Hvs k v Ev) as (c' & Hc' & Hr).
      specialize (Htail 0%nat). cbn in Htail. rewrite Nat.add_0_r in Htail.
      rewrite Hc' in Htail. injection Htail as ->. exact Hr.
    + apply (IH (S k)); [ | exact El].
      intros j. specialize (Htail (S j)). cbn in Htail.
      rewrite Htail. f_equal. lia.
Qed.

Lemma positional_defined (vs : list (nat * argval)) :
  forall (n k : nat),
    (forall j, (k <= j < k + n)%nat -> In j (map fst vs)) ->
    exists l, positional k n vs = Some l.
Proof.
  induction n as [ | n IH]; intros k H; cbn [positional].
  - exists []. reflexivity.
  - destruct (value_at_found k vs) as [v Hv]; [apply H; lia | ].
    destruct (IH (S k)) as [l Hl]; [intros j Hj; apply H; lia | ].
    rewrite Hv, Hl. exists (v :: l). reflexivity.
Qed.

Lemma is_order_spec (n : nat) (ord : list nat) :
  is_order n ord = true ->
  forall j, (j < n)%nat -> In j ord.
Proof.
  unfold is_order. intros H j Hj.
  apply andb_prop in H. destruct H as [_ H].
  rewrite forallb_forall in H.
  specialize (H j). rewrite in_seq in H. specialize (H ltac:(lia)).
  apply existsb_exists in H. destruct H as (x & Hx & E).
  apply Nat.eqb_eq in E. subst x. exact Hx.
Qed.

(** The arguments of a call whatever the order: the state is as it was;
    the values are those of the expressions, or the error is the error
    of one of them. *)
Lemma arguments_outcome (ord : list nat) (exprs : list (M argval)) (L : lua_State cell) :
  Forall check_step exprs ->
  match arguments ord exprs L with
  | Ret a L' => L' = L /\ Forall2 (fun c v => c L = Ret v L) exprs a
  | Raise e L' => L' = L /\ Exists (fun c => c L = Raise e L) exprs
  | Undef => is_order (List.length exprs) ord = false
  end.
Proof.
  intros Hall. unfold arguments, bind.
  pose proof (eval_in_order_outcome exprs L Hall ord) as H.
  destruct (eval_in_order exprs ord L) as [vs L1 | e L1 | ].
  - destruct H as (-> & Hm & Hin).
    destruct (positional 0 (List.length exprs) vs) as [l | ] eqn:El; cbn.
    + split; [reflexivity | ].
      apply (positional_values exprs L vs Hin exprs 0%nat l); [ | exact El].
      intros j. reflexivity.
    + destruct (is_order (List.length exprs) ord) eqn:Eo; [ | reflexivity].
      exfalso.
      destruct (positional_defined vs (List.length exprs) 0) as [l Hl].
      * intros j Hj. rewrite Hm. apply (is_order_spec _ _ Eo). lia.
      * congruence.
  - exact H.
  - destruct H as (k & Hk & Hn).
    destruct (is_order (List.length exprs) ord) eqn:Eo; [ | reflexivity].
    exfalso. unfold is_order in Eo. apply andb_prop in Eo. destruct Eo as [El Eo].
    apply Nat.eqb_eq in El.
    apply nth_error_None in Hn.
    (* every position of an order is below the number of expressions *)
    assert (Hsub : forall j, In j (seq 0 (List.length exprs)) -> In j ord).
    { intros j Hj. rewrite forallb_forall in Eo. specialize (Eo j Hj).
      apply existsb_exists in Eo. destruct Eo as (x & Hx & E).
      apply Nat.eqb_eq in E. subst x. exact Hx. }
    assert (Hnd : NoDup (seq 0 (List.length exprs))) by apply seq_NoDup.
    assert (Hincl : incl ord (seq 0 (List.length exprs))).
    { apply NoDup_length_incl; [exact Hnd | rewrite length_seq; lia | exact Hsub]. }
    specialize (Hincl k Hk). rewrite in_seq in Hincl. lia.
Qed.

Lemma same_but_error_bind {A B} (L : lua_State cell) (o o' : outcome cell A)
      (k : A -> M B) :
  same_but_error L o o' ->
  same_but_error L
    (match o with Ret a L1 => k a L1 | Raise e L1 => Raise e L1 | Undef => Undef end)
    (match o' with Ret a L1 => k a L1 | Raise e L1 => Raise e L1 | Undef => Undef end).
Proof.
  intros [-> | (e & e' & -> & ->)].
  - left. reflexivity.
  - right. exists e, e'. split; reflexivity.
Qed.

Lemma returned_values (exprs : list (M argval)) (L : lua_State cell) :
  forall a a',
    Forall2 (fun c v => c L = Ret v L) exprs a ->
    Forall2 (fun c v => c L = Ret v L) exprs a' ->
    a = a'.
Proof.
  induction exprs as [ | c exprs IH]; intros a a' H H'.
  - inversion H. inversion H'. reflexivity.
  - inversion H as [ | c1 v l1 l2 Hv Hl]. inversion H' as [ | c1' v' l1' l2' Hv' Hl'].
    subst. f_equal; [congruence | apply IH; assumption].
Qed.

Lemma returned_not_raised (exprs : list (M argval)) (L : lua_State cell) (e : lua_error) :
  forall a,
    Forall2 (fun c v => c L = Ret v L) exprs a ->
    Exists (fun c => c L = Raise e L) exprs -> False.
Proof.
  induction exprs as [ | c exprs IH]; intros a H Hex.
  - inversion Hex.
  - inversion H as [ | c1 v l1 l2 Hv Hl]. subst.
    inversion Hex as [c2 l Hr | c2 l Hr]; subst.
    + congruence.
    + eapply IH; eassumption.
Qed.

(** Two orders of evaluation give the same arguments, or two errors. *)
Lemma arguments_any_order (ord ord' : list nat) (exprs : list (M argval))
      (L : lua_State cell) :
  Forall check_step exprs ->
  is_order (List.length exprs) ord = true ->
  is_order (List.length exprs) ord' = true ->
  same_but_error L (arguments ord exprs L) (arguments ord' exprs L).
Proof.
  intros Hall Ho Ho'.
  pose proof (arguments_outcome ord exprs L Hall) as H.
  pose proof (arguments_outcome ord' exprs L Hall) as H'.
  destruct (arguments ord exprs L) as [a L1 | e L1 | ];
    destruct (arguments ord' exprs L) as [a' L1' | e' L1' | ];
    try congruence.
  - destruct H as [-> H]. destruct H' as [-> H'].
    left. f_equal. eapply returned_values; eassumption.
  - exfalso. destruct H as [_ H]. destruct H' as [_ H'].
    eapply returned_not_raised; eassumption.
  - exfalso. destruct H as [_ H]. destruct H' as [_ H'].
    eapply returned_not_raised; eassumption.
  - destruct H as [-> _]. destruct H' as [-> _].
    right. exists e, e'. split; reflexivity.
Qed.

Lemma pure_arguments (ord : list nat) (exprs : list (M argval)) :
  Forall check_step exprs -> pure_step (arguments ord exprs).
Proof.
  intros Hall L. pose proof (arguments_outcome ord exprs L Hall) as H.
  destruct (arguments ord exprs L); [apply H | apply H | exact I].
Qed.

(** The argument expressions of the binding are checks. *)
Ltac checks :=
  repeat first
    [ apply Forall_cons | apply Forall_nil
    | apply check_arg_ptr | apply check_arg_int
    | apply check_checkudata | apply check_opt_rnd | apply check_optinteger
    | apply check_checkinteger | apply check_check_prec ].

(** One function whose arguments are checked in an unspecified order:
    two orders give the same outcome, or two errors on the state as it
    was. *)
Ltac any_order Ho Ho' :=
  intros args L;
  match goal with
  | |- same_but_error _ (?f _ _ args L) _ => unfold f
  | |- same_but_error _ (?f _ args L) _ => unfold f
  end;
  try unfold fused;
  unfold bind at 1;
  match goal with
  | |- same_but_error _ _ (bind ?c ?k L) =>
      change (bind c k L)
        with (match c L with
              | Ret a L1 => k a L1
              | Raise e L1 => Raise e L1
              | Undef => Undef
              end)
  end;
  apply same_but_error_bind;
  apply arguments_any_order; [checks | exact Ho | exact Ho'].

(** X1: C leaves the order in which the arguments of a call are
    evaluated to the compiler, and the functions below check their Lua
    arguments inside the argument list of the call to the engine.  For
    any two orders of evaluation the outcome is the same, or both calls
    raise an error (each the error of a check that fails) on the state
    as it was: the order decides nothing but which of several bad
    arguments is reported. *)
Theorem X1_order_of_argument_checks :
  forall (o2 o2' o3 o3' o4 o4' o5 o5' : list nat),
    is_order 2 o2 = true -> is_order 2 o2' = true ->
    is_order 3 o3 = true -> is_order 3 o3' = true ->
    is_order 4 o4 = true -> is_order 4 o4' = true ->
    is_order 5 o5 = true -> is_order 5 o5' = true ->
    (forall args L, same_but_error L (fr_set_inf o2 args L) (fr_set_inf o2' args L))
    /\ (forall args L, same_but_error L (fr_set_zero o2 args L) (fr_set_zero o2' args L))
    /\ (forall ups args L,
          same_but_error L (fr_fn0 o2 ups args L) (fr_fn0 o2' ups args L))
    /\ (forall ups args L,
          same_but_error L (fr_fn1 o3 ups args L) (fr_fn1 o3' ups args L))
    /\ (forall ups args L,
          same_but_error L (fr_fn2f o4 ups args L) (fr_fn2f o4' ups args L))
    /\ (forall ups args L,
          same_but_error L (fr_fn2p o2 ups args L) (fr_fn2p o2' ups args L))
    /\ (forall args L, same_but_error L (fr_fma o5 args L) (fr_fma o5' args L))
    /\ (forall args L, same_but_error L (fr_fms o5 args L) (fr_fms o5' args L))
    /\ (forall args L,
          same_but_error L (fr_prec_round o3 args L) (fr_prec_round o3' args L))
    /\ (forall args L,
          same_but_error L (fr_can_round o5 args L) (fr_can_round o5' args L))
    /\ (forall args L,
          same_but_error L (fr_set_prec o2 args L) (fr_set_prec o2' args L)).
Proof.
  intros o2 o2' o3 o3' o4 o4' o5 o5' H2 H2' H3 H3' H4 H4' H5 H5'.
  repeat split.
  - any_order H2 H2'.
  - any_order H2 H2'.
  - intros ups. any_order H2 H2'.
  - intros ups. any_order H3 H3'.
  - intros ups. any_order H4 H4'.
  - intros ups. any_order H2 H2'.
  - any_order H5 H5'.
  - any_order H5 H5'.
  - any_order H3 H3'.
  - any_order H5 H5'.
  - any_order H2 H2'.
Qed.

(** ** What a call writes and returns *)

Lemma same_except_refl (zs : list addr) (L : lua_State cell) : same_except zs L L.
Proof. split; [reflexivity | intros p _; reflexivity]. Qed.

Lemma same_except_trans (zs : list addr) (L L1 L2 : lua_State cell) :
  same_except zs L L1 -> same_except zs L1 L2 -> same_except zs L L2.
Proof.
  intros [Hd H] [Hd' H']. split; [congruence | ].
  intros p Hp. rewrite (H' p Hp). apply H. exact Hp.
Qed.

Lemma same_except_store (zs : list addr) (z : addr) (c : cell) (L : lua_State cell) :
  In z zs -> same_except zs L (set_cell L z c).
Proof.
  intros Hz. split; [reflexivity | ].
  intros p Hp. cbn. destruct (Nat.eqb_spec p z) as [-> | _]; [contradiction | reflexivity].
Qed.

Lemma touches_pure {A} (zs : list addr) (c : M A) : pure_step c -> touches_only zs c.
Proof.
  intros H L. specialize (H L). destruct (c L); auto.
  subst. apply same_except_refl.
Qed.

Lemma touches_bind {A B} (zs : list addr) (c : M A) (k : A -> M B) :
  touches_only zs c -> (forall a, touches_only zs (k a)) -> touches_only zs (bind c k).
Proof.
  intros Hc Hk L. unfold bind. specialize (Hc L).
  destruct (c L) as [a L1 | e L1 | ]; auto.
  specialize (Hk a L1). destruct (k a L1); auto.
  eapply same_except_trans; eassumption.
Qed.

Lemma touches_store (zs : list addr) (z : addr) (c : cell) :
  In z zs -> touches_only zs (store z c).
Proof. intros Hz L. apply same_except_store. exact Hz. Qed.

Lemma returns_bind {A} (n : nat) (zs : list addr) (args : list lua_value)
      (c : M A) (k : A -> M (list lua_value)) :
  touches_only zs c -> (forall a, returns_first n zs args (k a)) ->
  returns_first n zs args (bind c k).
Proof.
  intros Hc Hk L. unfold bind. specialize (Hc L).
  destruct (c L) as [a L1 | e L1 | ]; auto.
  specialize (Hk a L1). destruct (k a L1); auto.
  destruct Hk as [Hv Hs]. split; [exact Hv | ].
  eapply same_except_trans; eassumption.
Qed.

Lemma returns_settop (n : nat) (zs : list addr) (args : list lua_value) :
  returns_first n zs args (lua_settop args n).
Proof. intros L. split; [reflexivity | apply same_except_refl]. Qed.

(** One step of a proof of what a computation writes. *)
Ltac touch_step :=
  match goal with
  | |- touches_only _ (bind _ _) => apply touches_bind; [ | intros ? ]
  | |- touches_only _ (store _ _) => apply touches_store; cbn [In]; auto
  | |- touches_only _ (ret _) => apply touches_pure, pure_ret
  | |- touches_only _ undefined => apply touches_pure, pure_undefined
  | |- touches_only _ (load _) => apply touches_pure, pure_load
  | |- touches_only _ (defined _) => apply touches_pure, pure_defined
  | |- touches_only _ (read_local _) => apply touches_pure, pure_defined
  | |- touches_only _ (luaL_argerror _ _) => apply touches_pure, pure_argerror
  | |- touches_only _ (luaL_argcheck _ _ _) => apply touches_pure, pure_argcheck
  | |- touches_only _ (luaL_checkudata _ _ _) => apply touches_pure, pure_checkudata
  | |- touches_only _ (luaL_checkinteger _ _) => apply touches_pure, pure_checkinteger
  | |- touches_only _ (luaL_optinteger _ _ _) => apply touches_pure, pure_optinteger
  | |- touches_only _ (_opt_rnd _ _) => apply touches_pure, pure_opt_rnd
  | |- touches_only _ (_opt_base _ _) => apply touches_pure, pure_opt_base
  | |- touches_only _ (_check_value _ _) => apply touches_pure, pure_check_value
  | |- touches_only _ (arguments _ _) => apply touches_pure, pure_arguments; checks
  | |- touches_only _ (call_fr_fr _ _ _ _ _) => unfold call_fr_fr
  | |- touches_only _ (call_fr_si _ _ _ _ _) => unfold call_fr_si
  | |- touches_only _ (call_fr_d _ _ _ _ _) => unfold call_fr_d
  | |- touches_only _ (call_si_fr _ _ _ _ _) => unfold call_si_fr
  | |- touches_only _ (call_d_fr _ _ _ _ _) => unfold call_d_fr
  | |- touches_only _ (call_fr _ _ _ _) => unfold call_fr
  | |- touches_only _ (call_ui _ _ _ _) => unfold call_ui
  | |- touches_only _ (call_const _ _ _) => unfold call_const
  | |- touches_only _ (match ?x with _ => _ end) => destruct x
  | |- touches_only _ (let '(_, _) := ?x in _) => destruct x
  end.

Ltac return_step :=
  match goal with
  | |- returns_first _ _ _ (lua_settop _ _) => apply returns_settop
  | |- returns_first _ _ _ (bind _ _) =>
      apply returns_bind; [repeat touch_step | intros ? ]
  | |- returns_first _ _ _ (match ?x with _ => _ end) => destruct x
  end.

Lemma index_first (args : list lua_value) (v : lua_value) :
  index args 1 = Some v -> firstn 1 args = [v].
Proof.
  destruct args as [ | a args]; cbn; [discriminate | ].
  intros H. injection H as ->. reflexivity.
Qed.

Lemma checkudata_ret (args : list lua_value) (i : nat) (z : addr) (L L' : lua_State cell) :
  luaL_checkudata args i MPFR L = Ret z L' ->
  index args i = Some (handle z) /\ L' = L.
Proof.
  unfold luaL_checkudata.
  destruct (index args i) as [[ | | | | | | t p] | ]; try discriminate.
  destruct (String.eqb_spec t MPFR) as [-> | Hne]; [ | discriminate].
  intros H. injection H as <- <-. split; reflexivity.
Qed.

(** A function that checks its destination first. *)
Lemma returns_destination_checked (f : list lua_value -> M (list lua_value))
      (k : list lua_value -> addr -> M (list lua_value)) :
  (forall args, f args = bind (luaL_checkudata args 1 MPFR) (k args)) ->
  (forall args z, returns_first 1 [z] args (k args z)) ->
  returns_destination f.
Proof.
  intros Hf Hk args L vs L' H. rewrite Hf in H. unfold bind in H.
  destruct (luaL_checkudata args 1 MPFR L) as [z L1 | e L1 | ] eqn:Ez;
    try discriminate.
  apply checkudata_ret in Ez. destruct Ez as [Hi ->].
  specialize (Hk args z L). rewrite H in Hk. destruct Hk as [Hv Hs].
  exists z. split; [exact Hi | ]. split; [ | exact Hs].
  rewrite Hv. apply index_first. exact Hi.
Qed.

(** A function that checks its destination among the arguments of the
    call to the engine. *)
Lemma returns_destination_ordered (f : list lua_value -> M (list lua_value))
      (ord : list nat) (exprs : list lua_value -> list (M argval))
      (k : list lua_value -> list argval -> M (list lua_value)) :
  (forall args, f args
                = bind (arguments ord (arg_ptr (luaL_checkudata args 1 MPFR) :: exprs args))
                       (k args)) ->
  (forall args, Forall check_step (exprs args)) ->
  (forall args z a, returns_first 1 [z] args (k args (APtr z :: a))) ->
  returns_destination f.
Proof.
  intros Hf Hc Hk args L vs L' H. rewrite Hf in H. unfold bind in H.
  assert (Hall : Forall check_step
                   (arg_ptr (luaL_checkudata args 1 MPFR) :: exprs args)).
  { constructor; [apply check_arg_ptr, check_checkudata | apply Hc]. }
  pose proof (arguments_outcome ord _ L Hall) as Ha.
  destruct (arguments ord _ L) as [a L1 | e L1 | ]; try discriminate.
  destruct Ha as [-> Ha].
  inversion Ha as [ | c v l1 l2 Hv Hl]. subst.
  apply arg_ptr_ret in Hv. destruct Hv as (z & -> & Hz).
  apply checkudata_ret in Hz. destruct Hz as [Hi _].
  specialize (Hk args z l2 L). rewrite H in Hk. destruct Hk as [Hvs Hs].
  exists z. split; [exact Hi | ]. split; [ | exact Hs].
  rewrite Hvs. apply index_first. exact Hi.
Qed.

Ltac destination_checked :=
  eapply returns_destination_checked;
  [ intros args; reflexivity
  | intros args z; cbv beta; repeat return_step ].

Ltac destination_ordered :=
  eapply returns_destination_ordered;
  [ intros args; reflexivity
  | intros args; checks
  | intros args z a; cbv beta; repeat return_step ].

(** X2: a function that updates a number returns, when it returns, its
    first argument, which is a handle, and has written no cell but the
    one of that handle; the default rounding mode is as it was.  This
    holds whatever the order in which the arguments are checked. *)
Theorem X2_returns_its_destination :
  returns_destination fr_set
  /\ returns_destination fr_set_nan
  /\ (forall ord, returns_destination (fr_set_inf ord))
  /\ (forall ord, returns_destination (fr_set_zero ord))
  /\ returns_destination fr_fac
  /\ returns_destination fr_pow
  /\ returns_destination fr_root
  /\ (forall ord ups, returns_destination (fr_fn0 ord ups))
  /\ (forall ord ups, returns_destination (fr_fn1 ord ups))
  /\ (forall ups, returns_destination (fr_fn1u ups))
  /\ (forall ups, returns_destination (fr_fn2 ups))
  /\ (forall ord ups, returns_destination (fr_fn2f ord ups))
  /\ (forall ups, returns_destination (fr_fn2n ups))
  /\ (forall ord, returns_destination (fr_fma ord))
  /\ (forall ord, returns_destination (fr_fms ord))
  /\ (forall ord, returns_destination (fr_prec_round ord)).
Proof.
  repeat match goal with |- _ /\ _ => split end.
  - unfold fr_set. destination_checked.
  - unfold fr_set_nan. destination_checked.
  - intros ord. unfold fr_set_inf. destination_ordered.
  - intros ord. unfold fr_set_zero. destination_ordered.
  - unfold fr_fac. destination_checked.
  - unfold fr_pow. destination_checked.
  - unfold fr_root. destination_checked.
  - intros ord ups. unfold fr_fn0. destination_ordered.
  - intros ord ups. unfold fr_fn1. destination_ordered.
  - intros ups. unfold fr_fn1u. destination_checked.
  - intros ups. unfold fr_fn2. destination_checked.
  - intros ord ups. unfold fr_fn2f. destination_ordered.
  - intros ups. unfold fr_fn2n. destination_checked.
  - intros ord. unfold fr_fma, fused. destination_ordered.
  - intros ord. unfold fr_fms, fused. destination_ordered.
  - intros ord. unfold fr_prec_round. destination_ordered.
Qed.

(** ** Errors and the state, for the rest of the surface *)

Lemma quiet_call_const fn z r : raises_nothing (call_const fn z r).
Proof. unfold call_const. effects. Qed.

Lemma quiet_call_fr2 fn x y z r : raises_nothing (call_fr2 fn x y z r).
Proof. unfold call_fr2. effects. Qed.

Lemma pure_call_p fn x : pure_step (call_p fn x).
Proof. unfold call_p. effects. Qed.

Lemma pure_call_p2 fn x y : pure_step (call_p2 fn x y).
Proof. unfold call_p2. effects. Qed.

Lemma pure_check_prec args i : pure_step (_check_prec args i).
Proof.
  intros L. pose proof (check_check_prec args i L) as H.
  destruct (_check_prec args i L); [exact H | exact H | exact I].
Qed.

Lemma quiet_set_default_rounding_mode r :
  raises_nothing (mpfr_set_default_rounding_mode r).
Proof. intros L. exact I. Qed.

(** One more step of a proof that a function is atomic. *)
Ltac atomic_step_more :=
  first
    [ atomic_step
    | match goal with
      | |- atomic (bind (arguments _ _) _) =>
          apply atomic_bind; [apply pure_arguments; checks | intros ? ]
      | |- atomic (bind (luaL_checkinteger _ _) _) =>
          apply atomic_bind; [apply pure_checkinteger | intros ? ]
      | |- atomic (bind (_check_prec _ _) _) =>
          apply atomic_bind; [apply pure_check_prec | intros ? ]
      | |- atomic (bind _ (fun _ => ret _)) =>
          apply atomic_then_quiet; [ | intros ?; apply quiet_ret ]
      | |- atomic undefined => apply quiet_atomic, quiet_undefined
      | |- atomic (call_const _ _ _) => apply quiet_atomic, quiet_call_const
      | |- atomic (call_fr2 _ _ _ _ _) => apply quiet_atomic, quiet_call_fr2
      | |- atomic (mpfr_set_default_rounding_mode _) =>
          apply quiet_atomic, quiet_set_default_rounding_mode
      end ].

(** X3: in the functions of the rest of the surface that write a cell or
    the default rounding mode, every error is raised before anything is
    written: a call that raises leaves the state as it was, whatever the
    order in which the arguments are checked. *)
Theorem X3_errors_before_writes :
  (forall args, atomic (fr_set_nan args))
  /\ (forall ord args, atomic (fr_set_inf ord args))
  /\ (forall ord args, atomic (fr_set_zero ord args))
  /\ (forall args, atomic (fr_root args))
  /\ (forall ord ups args, atomic (fr_fn0 ord ups args))
  /\ (forall ord ups args, atomic (fr_fn1 ord ups args))
  /\ (forall ups args, atomic (fr_fn12 ups args))
  /\ (forall ord ups args, atomic (fr_fn2f ord ups args))
  /\ (forall ups args, atomic (fr_fn2n ups args))
  /\ (forall ord args, atomic (fr_fma ord args))
  /\ (forall ord args, atomic (fr_fms ord args))
  /\ (forall ord args, atomic (fr_prec_round ord args))
  /\ (forall ord args, atomic (fr_set_prec ord args))
  /\ (forall args, atomic (fr_set_default_rounding_mode args)).
Proof.
  repeat match goal with |- _ /\ _ => split end; intros.
  - unfold fr_set_nan. repeat atomic_step_more.
  - unfold fr_set_inf. repeat atomic_step_more.
  - unfold fr_set_zero. repeat atomic_step_more.
  - unfold fr_root. repeat atomic_step_more.
  - unfold fr_fn0. repeat atomic_step_more.
  - unfold fr_fn1. repeat atomic_step_more.
  - unfold fr_fn12. repeat atomic_step_more.
  - unfold fr_fn2f. repeat atomic_step_more.
  - unfold fr_fn2n. repeat atomic_step_more.
  - unfold fr_fma, fused. repeat atomic_step_more.
  - unfold fr_fms, fused. repeat atomic_step_more.
  - unfold fr_prec_round. repeat atomic_step_more.
  - unfold fr_set_prec. repeat atomic_step_more.
  - unfold fr_set_default_rounding_mode. repeat atomic_step_more.
Qed.

(** One more step of a proof that a function leaves the state alone. *)
Ltac pure_step_more :=
  first
    [ match goal with
      | |- pure_step (bind _ _) => apply pure_bind; [ | intros ? ]
      | |- pure_step (luaL_checkudata _ _ _) => apply pure_checkudata
      | |- pure_step (luaL_checkinteger _ _) => apply pure_checkinteger
      | |- pure_step (luaL_optinteger _ _ _) => apply pure_optinteger
      | |- pure_step (_opt_rnd _ _) => apply pure_opt_rnd
      | |- pure_step (_opt_base _ _) => apply pure_opt_base
      | |- pure_step (_check_value _ _) => apply pure_check_value
      | |- pure_step (_check_prec _ _) => apply pure_check_prec
      | |- pure_step (arguments _ _) => apply pure_arguments; checks
      | |- pure_step (call_p _ _) => apply pure_call_p
      | |- pure_step (call_p2 _ _ _) => apply pure_call_p2
      end
    | effect_step ].

(** X4: the functions that answer a question, the conversions to a
    number and to text included, write nothing: whether the call
    returns or raises, every cell and the default rounding mode are as
    they were. *)
Theorem X4_queries_write_nothing :
  (forall args, pure_step (fr_tostring args))
  /\ (forall args, pure_step (fr_tonumber args))
  /\ (forall args, pure_step (fr_sgn args))
  /\ (forall ups args, pure_step (fr_fn1p ups args))
  /\ (forall args, pure_step (fr_cmp args))
  /\ (forall args, pure_step (fr_cmpabs args))
  /\ (forall ord ups args, pure_step (fr_fn2p ord ups args))
  /\ (forall ord args, pure_step (fr_can_round ord args))
  /\ (forall args, pure_step (fr_get_prec args))
  /\ (forall args, pure_step (fr_min_prec args))
  /\ (forall args, pure_step (fr_get_default_rounding_mode args)).
Proof.
  repeat match goal with |- _ /\ _ => split end; intros.
  - unfold fr_tostring. repeat pure_step_more.
  - unfold fr_tonumber. repeat pure_step_more.
  - unfold fr_sgn. repeat pure_step_more.
  - unfold fr_fn1p. repeat pure_step_more.
  - unfold fr_cmp. repeat pure_step_more.
  - unfold fr_cmpabs. repeat pure_step_more.
  - unfold fr_fn2p. repeat pure_step_more.
  - unfold fr_can_round. repeat pure_step_more.
  - unfold fr_get_prec. repeat pure_step_more.
  - unfold fr_min_prec. repeat pure_step_more.
  - unfold fr_get_default_rounding_mode. repeat pure_step_more.
Qed.

(** ** The rounding mode left out *)

Lemma opt_rnd_left_out (args : list lua_value) (i : nat) (L : lua_State cell) :
  lua_isnoneornil args i = true ->
  _opt_rnd args i L = Ret (to_int (default_rounding_mode L)) L.
Proof.
  intros H. unfold _opt_rnd, luaL_optinteger, bind, mpfr_get_default_rounding_mode.
  rewrite H. reflexivity.
Qed.

Lemma opt_rnd_integer (args : list lua_value) (i : nat) (n : Z) (L : lua_State cell) :
  index args i = Some (LInteger n) ->
  _opt_rnd args i L = Ret (to_int n) L.
Proof.
  intros H. unfold _opt_rnd, luaL_optinteger, lua_isnoneornil, luaL_checkinteger,
    lua_tointegerx, bind, mpfr_get_default_rounding_mode.
  rewrite H. reflexivity.
Qed.

(** Two sequences that start with the same check and go on alike. *)
Lemma bind_same_check {A B} (c c' : M A) (k k' : A -> M B) (L : lua_State cell) :
  pure_step c -> c L = c' L -> (forall a, k a L = k' a L) ->
  bind c k L = bind c' k' L.
Proof.
  intros Hp Hc Hk. unfold bind. rewrite <- Hc. specialize (Hp L).
  destruct (c L) as [a L1 | e L1 | ]; try reflexivity.
  subst L1. apply Hk.
Qed.

Lemma bind_returns {A B} (c : M A) (k : A -> M B) (a : A) (L L1 : lua_State cell) :
  c L = Ret a L1 -> bind c k L = k a L1.
Proof. intros H. unfold bind. rewrite H. reflexivity. Qed.

(** The arguments of a call from two lists of expressions that agree on
    the state. *)
Lemma eval_in_order_same (exprs exprs' : list (M argval)) (L : lua_State cell) :
  Forall check_step exprs ->
  Forall2 (fun c c' => c L = c' L) exprs exprs' ->
  forall ord, eval_in_order exprs ord L = eval_in_order exprs' ord L.
Proof.
  intros Hall Hsame. induction ord as [ | k ord IH]; [reflexivity | ].
  cbn [eval_in_order].
  assert (Hk : match nth_error exprs k, nth_error exprs' k with
               | Some c, Some c' => check_step c /\ c L = c' L
               | None, None => True
               | _, _ => False
               end).
  { clear IH. revert k. induction Hsame as [ | c c' l l' Hc Hl IHl]; intros k.
    - destruct k; exact I.
    - inversion Hall as [ | c0 l0 Hc0 Hl0]. subst.
      destruct k as [ | k]; cbn [nth_error].
      + split; assumption.
      + apply IHl. exact Hl0. }
  destruct (nth_error exprs k) as [c | ], (nth_error exprs' k) as [c' | ];
    try contradiction; [ | reflexivity].
  destruct Hk as [Hc Hcc]. unfold bind at 1 3. rewrite <- Hcc.
  specialize (Hc L). destruct (c L) as [v L1 | e L1 | ]; try reflexivity.
  subst L1. unfold bind. rewrite IH. reflexivity.
Qed.

Lemma arguments_same (ord : list nat) (exprs exprs' : list (M argval))
      (L : lua_State cell) :
  Forall check_step exprs ->
  Forall2 (fun c c' => c L = c' L) exprs exprs' ->
  arguments ord exprs L = arguments ord exprs' L.
Proof.
  intros Hall Hsame. unfold arguments, bind.
  rewrite (eval_in_order_same exprs exprs' L Hall Hsame).
  assert (Hlen : List.length exprs = List.length exprs')
    by apply (Forall2_length Hsame).
  destruct (eval_in_order exprs' ord L); try reflexivity.
  rewrite Hlen. reflexivity.
Qed.

Lemma arg_int_same (c c' : M Z) (L : lua_State cell) :
  c L = c' L -> arg_int c L = arg_int c' L.
Proof. intros H. unfold arg_int, bind. rewrite H. reflexivity. Qed.

(** The rounding mode left out against the default mode given. *)
Lemma opt_rnd_same (args args' : list lua_value) (i : nat) (L : lua_State cell) :
  lua_isnoneornil args i = true ->
  index args' i = Some (LInteger (default_rounding_mode L)) ->
  _opt_rnd args i L = _opt_rnd args' i L.
Proof.
  intros H H'. rewrite (opt_rnd_left_out _ _ _ H), (opt_rnd_integer _ _ _ _ H').
  reflexivity.
Qed.

(** One step of a proof that two calls, one without its rounding mode,
    have the same outcome. *)
Ltac left_out_step :=
  match goal with
  | |- bind (_opt_rnd _ _) _ ?L = bind (_opt_rnd _ _) _ ?L =>
      etransitivity;
      [ apply bind_returns; apply opt_rnd_left_out; reflexivity
      | symmetry; etransitivity;
        [ apply bind_returns; apply opt_rnd_integer; reflexivity
        | reflexivity ] ]
  | |- bind (luaL_checkudata _ _ _) _ ?L = bind _ _ ?L =>
      apply bind_same_check; [apply pure_checkudata | reflexivity | intros ? ]
  | |- bind (luaL_checkinteger _ _) _ ?L = bind _ _ ?L =>
      apply bind_same_check; [apply pure_checkinteger | reflexivity | intros ? ]
  | |- bind (luaL_optinteger _ _ _) _ ?L = bind _ _ ?L =>
      apply bind_same_check; [apply pure_optinteger | reflexivity | intros ? ]
  | |- bind (luaL_argcheck _ _ _) _ ?L = bind _ _ ?L =>
      apply bind_same_check; [apply pure_argcheck | reflexivity | intros ? ]
  | |- bind (_opt_base _ _) _ ?L = bind _ _ ?L =>
      apply bind_same_check; [apply pure_opt_base | reflexivity | intros ? ]
  | |- bind (_check_value _ _) _ ?L = bind _ _ ?L =>
      apply bind_same_check; [apply pure_check_value | reflexivity | intros ? ]
  | |- bind (arguments _ _) _ ?L = bind (arguments _ _) _ ?L =>
      unfold bind at 1;
      match goal with
      | |- _ = bind ?c ?k L =>
          change (bind c k L)
            with (match c L with
                  | Ret a L1 => k a L1
                  | Raise e L1 => Raise e L1
                  | Undef => Undef
                  end)
      end;
      match goal with
      | |- context [arguments ?o ?ex L] =>
          match goal with
          | |- _ = match arguments o ?ex' L with _ => _ end =>
              rewrite (arguments_same o ex ex' L);
              [ reflexivity
              | checks
              | repeat first
                  [ apply Forall2_nil
                  | apply Forall2_cons;
                    [ first [ apply arg_int_same; apply opt_rnd_same; reflexivity
                            | reflexivity ] | ] ] ]
          end
      end
  end.

Ltac left_out := repeat left_out_step; try reflexivity.

(** X5: a rounding mode that is left out, or given as nil, is the
    default rounding mode of the engine at the time of the call: the
    call has the outcome of the same call with the default mode given
    as the last argument. *)
Theorem X5_rounding_mode_left_out :
  forall (L : lua_State cell) (nil_given : bool) (a b c e : lua_value) (s : string)
         (ord : list nat) (ups : list upvalue) (ups' : list (option fnptr_more)),
    let none := if nil_given then [LNil] else [] in
    let d := [LInteger (default_rounding_mode L)] in
    fr_tostring ([a; b; c] ++ none) L = fr_tostring ([a; b; c] ++ d) L
    /\ fr_tonumber ([a] ++ none) L = fr_tonumber ([a] ++ d) L
    /\ fr_set ([a; LString s; c] ++ none) L = fr_set ([a; LString s; c] ++ d) L
    /\ fr_fac ([a; b] ++ none) L = fr_fac ([a; b] ++ d) L
    /\ fr_pow ([a; b; c] ++ none) L = fr_pow ([a; b; c] ++ d) L
    /\ fr_root ([a; b; c] ++ none) L = fr_root ([a; b; c] ++ d) L
    /\ fr_fn0 ord ups' ([a] ++ none) L = fr_fn0 ord ups' ([a] ++ d) L
    /\ fr_fn1 ord ups ([a; b] ++ none) L = fr_fn1 ord ups ([a; b] ++ d) L
    /\ fr_fn1u ups ([a; b] ++ none) L = fr_fn1u ups ([a; b] ++ d) L
    /\ fr_fn12 ups' ([a; b; c] ++ none) L = fr_fn12 ups' ([a; b; c] ++ d) L
    /\ fr_fn2 ups ([a; b; c] ++ none) L = fr_fn2 ups ([a; b; c] ++ d) L
    /\ fr_fn2f ord ups ([a; b; c] ++ none) L = fr_fn2f ord ups ([a; b; c] ++ d) L
    /\ fr_fn2n ups ([a; b; c] ++ none) L = fr_fn2n ups ([a; b; c] ++ d) L
    /\ fr_fma ord ([a; b; c; e] ++ none) L = fr_fma ord ([a; b; c; e] ++ d) L
    /\ fr_fms ord ([a; b; c; e] ++ none) L = fr_fms ord ([a; b; c; e] ++ d) L
    /\ fr_prec_round ord ([a; b] ++ none) L = fr_prec_round ord ([a; b] ++ d) L.
Proof.
  intros L nil_given a b c e s ord ups ups' none d. unfold none, d.
  repeat match goal with |- _ /\ _ => split end;
    destruct nil_given; cbn [app].
  1-2: unfold fr_tostring; left_out.
  1-2: unfold fr_tonumber; left_out.
  1-2: unfold fr_set; left_out.
  1-2: unfold fr_fac; left_out.
  1-2: unfold fr_pow; left_out.
  1-2: unfold fr_root; left_out.
  1-2: unfold fr_fn0; left_out.
  1-2: unfold fr_fn1; left_out.
  1-2: unfold fr_fn1u; left_out.
  1-2: unfold fr_fn12; left_out.
  1-2: unfold fr_fn2; left_out.
  1-2: unfold fr_fn2f; left_out.
  1-2: unfold fr_fn2n; left_out.
  1-2: unfold fr_fma, fused; left_out.
  1-2: unfold fr_fms, fused; left_out.
  1-2: unfold fr_prec_round; left_out.
Qed.

(** ** Mixed binary operations: the operands *)

Lemma opt_rnd_with_rnd (args : list lua_value) (rnd : option Z) (L : lua_State cell) :
  exists r, _opt_rnd (with_rnd args rnd) (S (List.length args)) L = Ret r L.
Proof.
  unfold with_rnd. destruct rnd as [r | ].
  - exists (to_int r). apply opt_rnd_integer.
    cbn [index]. rewrite nth_error_app2 by lia.
    rewrite Nat.sub_diag. reflexivity.
  - exists (to_int (default_rounding_mode L)). apply opt_rnd_left_out.
    unfold lua_isnoneornil. cbn [index]. rewrite app_nil_r.
    assert (H : nth_error args (List.length args) = None)
      by (apply nth_error_None; lia).
    rewrite H. reflexivity.
Qed.

(** X6: a mixed binary operation needs a handle among its two operands:
    with two numbers of the host, whatever the rounding mode given, the
    call raises a type error on argument 3 and writes nothing. *)
Theorem X6_two_numbers_are_refused :
  forall (ups : list upvalue) (z : addr) (i j : Z) (x y : double) (rnd : option Z)
         (L : lua_State cell),
    let refused := Raise (ArgError 3 "mpfr_t expected, got number") L in
    fr_fn2 ups (with_rnd [handle z; LInteger i; LInteger j] rnd) L = refused
    /\ fr_fn2 ups (with_rnd [handle z; LInteger i; LFloat y] rnd) L = refused
    /\ fr_fn2 ups (with_rnd [handle z; LFloat x; LInteger j] rnd) L = refused
    /\ fr_fn2 ups (with_rnd [handle z; LFloat x; LFloat y] rnd) L = refused.
Proof.
  intros ups z i j x y rnd L refused. unfold refused.
  repeat match goal with |- _ /\ _ => split end.
  all: unfold fr_fn2;
    rewrite (bind_returns _ _ z L L) by (apply checkudata_handle; destruct rnd; reflexivity).
  all: unfold _check_value at 1; unfold lua_isnumber, lua_tointegerx, lua_tonumber;
    destruct rnd as [r | ]; cbn [with_rnd app index nth_error];
    repeat match goal with
           | |- context [if ?t =? ?u then _ else _] => destruct (t =? u)
           | |- context [match float_to_integer ?v with _ => _ end] =>
               destruct (float_to_integer v)
           end;
    reflexivity.
Qed.

(** X7: add and mul have no primitive with the number on the left; a
    number given before the handle is passed to the engine after it.
    With the operands in either order and one of the five rounding modes
    (given, or left out where the default one is one of the five) the
    call is the same call to the engine: the primitive on a long when
    the number is an integer that fits a long, else the primitive on a
    double. *)
Theorem X7_add_and_mul_exchange_operands :
  forall (z h : addr) (i : Z) (x : double) (rnd : option mpfr_rnd_t) (d : mpfr_rnd_t)
         (L : lua_State cell),
    default_rounding_mode L = rnd_code d ->
    let given := option_map rnd_code rnd in
    let r := rnd_code (match rnd with Some r => r | None => d end) in
    let on_integer (f_si : cell -> cell -> Z -> Z -> cell)
                   (f_d : cell -> cell -> double -> Z -> cell) :=
      Ret [handle z]
          (set_cell L z
             (if to_long dm i =? i then f_si (heap L z) (heap L h) i r
              else f_d (heap L z) (heap L h) (integer_to_float i) r)) in
    let on_float (f_si : cell -> cell -> Z -> Z -> cell)
                 (f_d : cell -> cell -> double -> Z -> cell) :=
      Ret [handle z]
          (set_cell L z
             (match float_to_integer x with
              | Some k => if to_long dm k =? k then f_si (heap L z) (heap L h) k r
                          else f_d (heap L z) (heap L h) x r
              | None => f_d (heap L z) (heap L h) x r
              end)) in
    (fn2_closure fn2_add (with_rnd [handle z; LInteger i; handle h] given) L
     = on_integer mpfr_add_si mpfr_add_d
     /\ fn2_closure fn2_add (with_rnd [handle z; handle h; LInteger i] given) L
        = on_integer mpfr_add_si mpfr_add_d)
    /\ (fn2_closure fn2_add (with_rnd [handle z; LFloat x; handle h] given) L
        = on_float mpfr_add_si mpfr_add_d
        /\ fn2_closure fn2_add (with_rnd [handle z; handle h; LFloat x] given) L
           = on_float mpfr_add_si mpfr_add_d)
    /\ (fn2_closure fn2_mul (with_rnd [handle z; LInteger i; handle h] given) L
        = on_integer mpfr_mul_si mpfr_mul_d
        /\ fn2_closure fn2_mul (with_rnd [handle z; handle h; LInteger i] given) L
           = on_integer mpfr_mul_si mpfr_mul_d)
    /\ (fn2_closure fn2_mul (with_rnd [handle z; LFloat x; handle h] given) L
        = on_float mpfr_mul_si mpfr_mul_d
        /\ fn2_closure fn2_mul (with_rnd [handle z; handle h; LFloat x] given) L
           = on_float mpfr_mul_si mpfr_mul_d).
Proof.
  intros z h i x rnd d L Hd given r on_integer on_float.
  assert (Hr : r = rnd_used given L).
  { unfold r, given, rnd_used. destruct rnd as [r0 | ]; cbn [option_map].
    - symmetry. apply to_int_rnd_code.
    - rewrite Hd. symmetry. apply to_int_rnd_code. }
  unfold on_integer, on_float. rewrite Hr. clear Hr r on_integer on_float.
  unfold rnd_used. generalize given. clear given rnd d Hd. intros rnd.
  repeat match goal with |- _ /\ _ => split end.
  all: unfold fn2_closure, fn2_add, fn2_mul, FN3;
    cbn [fn2_si_fr fn2_fr_fr fn2_fr_si fn2_fr_d option_map];
    unfold fr_fn2;
    rewrite !(bind_returns _ _ z L L)
      by (apply checkudata_handle; destruct rnd; reflexivity).
  all: unfold _check_value, lua_isnumber, lua_tointegerx, lua_tonumber, bind;
    destruct rnd as [r0 | ]; cbn [with_rnd app index nth_error handle];
    repeat match goal with
           | |- context [match float_to_integer ?v with _ => _ end] =>
               destruct (float_to_integer v)
           | |- context [if ?t =? ?u then _ else _] =>
               let E := fresh "E" in
               destruct (Z.eqb_spec t u) as [E | E]; [try rewrite E | ]
           end;
    reflexivity.
Qed.

(** ** pow: the operands it takes *)

(** X8: pow takes integers and handles only.  A negative integer as
    the base is a range error, and a float that has no integer value is
    a type error as the base (argument 2) and, after a handle, as the
    exponent (argument 3); nothing is written. *)
Theorem X8_pow_refuses_fractions_and_negative_bases :
  forall (z h : addr) (i : Z) (x : double) (v : lua_value) (rnd : option Z)
         (L : lua_State cell),
    i < 0 ->
    float_to_integer x = None ->
    fr_pow (with_rnd [handle z; LInteger i; v] rnd) L
    = Raise (ArgError 2 out_of_ulong) L
    /\ fr_pow (with_rnd [handle z; LFloat x; v] rnd) L
       = Raise (ArgError 2 "mpfr_t expected, got number") L
    /\ fr_pow (with_rnd [handle z; handle h; LFloat x] rnd) L
       = Raise (ArgError 3 "mpfr_t expected, got number") L.
Proof.
  intros z h i x v rnd L Hi Hx.
  assert (Hneg : (0 <=? i) = false) by (apply Z.leb_gt; exact Hi).
  repeat match goal with |- _ /\ _ => split end.
  all: unfold fr_pow;
    rewrite (bind_returns _ _ z L L)
      by (apply checkudata_handle; destruct rnd; reflexivity).
  all: destruct (opt_rnd_with_rnd [handle z; LInteger i; v] rnd L) as [r Hr];
    unfold lua_tointegerx;
    destruct rnd as [r0 | ]; cbn [with_rnd app index nth_error handle List.length] in *;
    rewrite ?Hx;
    (erewrite bind_returns;
     [ | first [ apply opt_rnd_integer; reflexivity
               | apply opt_rnd_left_out; reflexivity ] ]).
  all: try (rewrite Hneg; reflexivity).
  all: reflexivity.
Qed.

(** ** Integer arguments *)

(** One integer argument given as a value that converts to it. *)
Ltac converts H :=
  unfold _check_prec, _opt_base;
  unfold luaL_optinteger, luaL_checkinteger, lua_isnoneornil, lua_tointeger;
  unfold lua_tointegerx;
  cbn [index nth_error];
  unfold lua_tointegerx in H; cbn [index nth_error] in H;
  rewrite ?H; reflexivity.

(** X9: where the binding takes an integer of the host (the index of
    root, the order of jn and yn, the argument of fac, an operand of
    pow, the base and the number of digits of tostring, a precision), a
    float with that integer value or a string that reads as it is taken
    for the integer: the call has the outcome of the call with the
    integer itself. *)
Theorem X9_values_that_convert_to_an_integer :
  forall (v : lua_value) (k : Z),
    lua_tointegerx [v] 1 = Some k ->
    forall (a b : lua_value) (t : list lua_value) (ord : list nat)
           (ups : list upvalue) (L : lua_State cell),
      fr_root (a :: b :: v :: t) L = fr_root (a :: b :: LInteger k :: t) L
      /\ fr_fn2n ups (a :: v :: t) L = fr_fn2n ups (a :: LInteger k :: t) L
      /\ fr_fac (a :: v :: t) L = fr_fac (a :: LInteger k :: t) L
      /\ fr_pow (a :: v :: t) L = fr_pow (a :: LInteger k :: t) L
      /\ fr_pow (a :: b :: v :: t) L = fr_pow (a :: b :: LInteger k :: t) L
      /\ fr_tostring (a :: v :: t) L = fr_tostring (a :: LInteger k :: t) L
      /\ fr_tostring (a :: b :: v :: t) L = fr_tostring (a :: b :: LInteger k :: t) L
      /\ fr_prec_round ord (a :: v :: t) L = fr_prec_round ord (a :: LInteger k :: t) L
      /\ fr_set_prec ord (a :: v :: t) L = fr_set_prec ord (a :: LInteger k :: t) L.
Proof.
  intros v k H a b t ord ups L.
  destruct v as [ | bo | n | x | s | id | tn p ]; try discriminate H.
  - injection H as ->. repeat split; reflexivity.
  - repeat match goal with |- _ /\ _ => split end.
    + unfold fr_root. converts H.
    + unfold fr_fn2n. converts H.
    + unfold fr_fac. converts H.
    + unfold fr_pow. converts H.
    + unfold fr_pow. converts H.
    + unfold fr_tostring. converts H.
    + unfold fr_tostring. converts H.
    + unfold fr_prec_round. converts H.
    + unfold fr_set_prec. converts H.
  - repeat match goal with |- _ /\ _ => split end.
    + unfold fr_root. converts H.
    + unfold fr_fn2n. converts H.
    + unfold fr_fac. converts H.
    + unfold fr_pow. converts H.
    + unfold fr_pow. converts H.
    + unfold fr_tostring. converts H.
    + unfold fr_tostring. converts H.
    + unfold fr_prec_round. converts H.
    + unfold fr_set_prec. converts H.
Qed.

(** X10: fac reads its argument with lua_tointeger and does not check
    the conversion: a value that has no integer value (nil, a boolean,
    a float with a fractional part, an infinite float, a string that
    does not read as an integer, a table, a userdata) or no second
    argument at all is taken for 0; no error is raised and the
    destination receives the factorial of 0. *)
Theorem X10_fac_reads_what_is_no_integer_as_zero :
  forall (z : addr) (v : lua_value) (rnd : option Z) (L : lua_State cell),
    lua_tointegerx [v] 1 = None ->
    fr_fac (with_rnd [handle z; v] rnd) L
    = Ret [handle z] (set_cell L z (mpfr_fac_ui (heap L z) 0 (rnd_used rnd L)))
    /\ fr_fac [handle z] L
       = Ret [handle z]
             (set_cell L z (mpfr_fac_ui (heap L z) 0 (rnd_used None L))).
Proof.
  intros z v rnd L H. split.
  - unfold fr_fac.
    rewrite (bind_returns _ _ z L L)
      by (apply checkudata_handle; destruct rnd; reflexivity).
    assert (E : lua_tointeger (with_rnd [handle z; v] rnd) 2 = 0).
    { unfold lua_tointeger.
      replace (lua_tointegerx (with_rnd [handle z; v] rnd) 2)
        with (lua_tointegerx [v] 1) by (destruct rnd; reflexivity).
      rewrite H. reflexivity. }
    rewrite E.
    assert (Hr : _opt_rnd (with_rnd [handle z; v] rnd) 3 L = Ret (rnd_used rnd L) L).
    { unfold rnd_used. destruct rnd as [r | ].
      - apply opt_rnd_integer. reflexivity.
      - apply opt_rnd_left_out. reflexivity. }
    unfold bind at 1.
    replace ((0 <=? 0) && (0 <=? ULONG_MAX dm)) with true by (destruct dm; reflexivity).
    cbn [luaL_argcheck ret].
    rewrite (bind_returns _ _ _ L L Hr).
    destruct rnd; reflexivity.
  - unfold fr_fac, rnd_used. destruct dm; reflexivity.
Qed.

(** ** Integers as operands of the mixed operations *)

Lemma wrap_signed_fits (bits x : Z) :
  0 < bits ->
  (wrap_signed bits x =? x) = (- 2 ^ (bits - 1) <=? x) && (x <=? 2 ^ (bits - 1) - 1).
Proof.
  intros Hb. unfold wrap_signed.
  assert (E : 2 ^ bits = 2 * 2 ^ (bits - 1)).
  { replace bits with (Z.succ (bits - 1)) at 1 by lia. apply Z.pow_succ_r. lia. }
  assert (Hp : 0 < 2 ^ (bits - 1)) by (apply Z.pow_pos_nonneg; lia).
  pose proof (Z.mod_pos_bound (x + 2 ^ (bits - 1)) (2 ^ bits) ltac:(lia)) as Hm.
  destruct (Z.leb_spec (- 2 ^ (bits - 1)) x) as [H1 | H1];
    destruct (Z.leb_spec x (2 ^ (bits - 1) - 1)) as [H2 | H2]; cbn [andb].
  - apply Z.eqb_eq. rewrite Z.mod_small by lia. lia.
  - apply Z.eqb_neq. lia.
  - apply Z.eqb_neq. lia.
  - apply Z.eqb_neq. lia.
Qed.

Lemma to_long_fits (n : Z) :
  (to_long dm n =? n) = (LONG_MIN dm <=? n) && (n <=? LONG_MAX dm).
Proof.
  unfold to_long, LONG_MIN, LONG_MAX. apply wrap_signed_fits. destruct dm; reflexivity.
Qed.

(** X11: an integer of the host compared with a number is compared as
    the integer it is when it fits the long of the C compiler, and as
    the double nearest to it when it does not; where long has 64 bits
    every integer of the host fits, so no comparison goes through a
    double. *)
Theorem X11_cmp_with_an_integer :
  forall (x : addr) (n : Z) (L : lua_State cell),
    fr_cmp [handle x; LInteger n] L
    = Ret [LInteger (if (LONG_MIN dm <=? n) && (n <=? LONG_MAX dm)
                     then mpfr_cmp_si (heap L x) n
                     else mpfr_cmp_d (heap L x) (integer_to_float n))] L
    /\ (dm = LP64 -> LUA_MININTEGER <= n <= LUA_MAXINTEGER ->
        fr_cmp [handle x; LInteger n] L = Ret [LInteger (mpfr_cmp_si (heap L x) n)] L).
Proof.
  intros x n L.
  assert (H : fr_cmp [handle x; LInteger n] L
              = Ret [LInteger (if (LONG_MIN dm <=? n) && (n <=? LONG_MAX dm)
                               then mpfr_cmp_si (heap L x) n
                               else mpfr_cmp_d (heap L x) (integer_to_float n))] L).
  { unfold fr_cmp.
    rewrite (bind_returns _ _ x L L) by (apply checkudata_handle; reflexivity).
    unfold _check_value, lua_isnumber, lua_tointegerx, lua_tonumber.
    cbn [index nth_error]. rewrite <- to_long_fits.
    destruct (Z.eqb_spec (to_long dm n) n) as [E | E]; [rewrite E | ]; reflexivity. }
  split; [exact H | ].
  intros Hdm Hn. rewrite H.
  replace ((LONG_MIN dm <=? n) && (n <=? LONG_MAX dm)) with true; [reflexivity | ].
  symmetry. apply andb_true_intro. rewrite Hdm.
  unfold LUA_MININTEGER, LUA_MAXINTEGER, LONG_MIN, LONG_MAX in *. cbn [long_bits].
  split; apply Z.leb_le; lia.
Qed.

(** ** Precisions *)

Lemma arguments_returns (ord : list nat) (exprs : list (M argval))
      (a : list argval) (L : lua_State cell) :
  Forall check_step exprs ->
  is_order (List.length exprs) ord = true ->
  Forall2 (fun c v => c L = Ret v L) exprs a ->
  arguments ord exprs L = Ret a L.
Proof.
  intros Hall Ho Ha. pose proof (arguments_outcome ord exprs L Hall) as H.
  destruct (arguments ord exprs L) as [a' L1 | e L1 | ].
  - destruct H as [-> H]. f_equal. eapply returned_values; eassumption.
  - exfalso. destruct H as [_ H]. eapply returned_not_raised; eassumption.
  - congruence.
Qed.

Lemma arguments_raises (ord : list nat) (exprs : list (M argval))
      (e : lua_error) (L : lua_State cell) :
  Forall check_step exprs ->
  is_order (List.length exprs) ord = true ->
  Exists (fun c => c L = Raise e L) exprs ->
  Forall (fun c => forall e', c L = Raise e' L -> e' = e) exprs ->
  arguments ord exprs L = Raise e L.
Proof.
  intros Hall Ho Hex Hone. pose proof (arguments_outcome ord exprs L Hall) as H.
  destruct (arguments ord exprs L) as [a' L1 | e' L1 | ].
  - exfalso. destruct H as [_ H]. eapply returned_not_raised; eassumption.
  - destruct H as [-> H]. f_equal.
    apply Exists_exists in H. destruct H as (c & Hc & Hr).
    rewrite Forall_forall in Hone. apply (Hone c Hc). exact Hr.
  - congruence.
Qed.

Lemma check_prec_integer (args : list lua_value) (i : nat) (p : Z) (L : lua_State cell) :
  index args i = Some (LInteger p) ->
  _check_prec args i L
  = if (MPFR_PREC_MIN <=? p) && (p <=? MPFR_PREC_MAX)
    then Ret p L else Raise (ArgError i bad_prec) L.
Proof.
  intros H. unfold _check_prec, luaL_checkinteger, lua_tointegerx, bind.
  rewrite H. cbn [ret]. destruct ((MPFR_PREC_MIN <=? p) && (p <=? MPFR_PREC_MAX));
    reflexivity.
Qed.

Lemma checkinteger_integer (args : list lua_value) (i : nat) (n : Z) (L : lua_State cell) :
  index args i = Some (LInteger n) ->
  luaL_checkinteger args i L = Ret n L.
Proof.
  intros H. unfold luaL_checkinteger, lua_tointegerx. rewrite H. reflexivity.
Qed.

Lemma arg_ptr_returns (c : M addr) (p : addr) (L : lua_State cell) :
  c L = Ret p L -> arg_ptr c L = Ret (APtr p) L.
Proof. intros H. unfold arg_ptr, bind. rewrite H. reflexivity. Qed.

Lemma arg_int_returns (c : M Z) (n : Z) (L : lua_State cell) :
  c L = Ret n L -> arg_int c L = Ret (AInt n) L.
Proof. intros H. unfold arg_int, bind. rewrite H. reflexivity. Qed.

Lemma arg_int_raises (c : M Z) (e : lua_error) (L : lua_State cell) :
  c L = Raise e L -> arg_int c L = Raise e L.
Proof. intros H. unfold arg_int, bind. rewrite H. reflexivity. Qed.

(** The arguments of a call of which the expressions are known to
    return or to raise on [L]. *)
Ltac known_arguments :=
  repeat first
    [ apply Forall2_nil
    | apply Forall2_cons;
      [ first [ apply arg_ptr_returns; apply checkudata_handle; reflexivity
              | apply arg_int_returns; apply checkinteger_integer; reflexivity
              | apply arg_int_returns; apply opt_rnd_integer; reflexivity
              | apply arg_int_returns; eassumption ] | ] ].

(** A precision within the bounds of the engine, which lie within long,
    is handed to the engine as it is. *)
Lemma valid_prec_long (p : Z) :
  LONG_MIN dm <= MPFR_PREC_MIN -> MPFR_PREC_MAX <= LONG_MAX dm ->
  (MPFR_PREC_MIN <=? p) && (p <=? MPFR_PREC_MAX) = true ->
  to_long dm p = p.
Proof.
  intros Hmin Hmax Ev. apply to_long_id. apply andb_prop in Ev.
  destruct Ev as [E1 E2]. apply Z.leb_le in E1. apply Z.leb_le in E2. lia.
Qed.

Lemma fr_set_prec_valid (ord : list nat) (z : addr) (p : Z) (L : lua_State cell) :
  is_order 2 ord = true ->
  LONG_MIN dm <= MPFR_PREC_MIN -> MPFR_PREC_MAX <= LONG_MAX dm ->
  (MPFR_PREC_MIN <=? p) && (p <=? MPFR_PREC_MAX) = true ->
  fr_set_prec ord [handle z; LInteger p] L
  = Ret [] (set_cell L z (mpfr_set_prec (heap L z) p)).
Proof.
  intros Ho Hmin Hmax Ev.
  assert (Hp := check_prec_integer [handle z; LInteger p] 2 p L eq_refl).
  rewrite Ev in Hp.
  unfold fr_set_prec.
  erewrite bind_returns;
    [ | apply arguments_returns; [checks | exact Ho | known_arguments] ].
  cbn. rewrite (valid_prec_long p Hmin Hmax Ev). reflexivity.
Qed.

Lemma fr_prec_round_valid (ord : list nat) (z : addr) (p r : Z) (L : lua_State cell) :
  is_order 3 ord = true ->
  LONG_MIN dm <= MPFR_PREC_MIN -> MPFR_PREC_MAX <= LONG_MAX dm ->
  (MPFR_PREC_MIN <=? p) && (p <=? MPFR_PREC_MAX) = true ->
  fr_prec_round ord [handle z; LInteger p; LInteger r] L
  = Ret [handle z] (set_cell L z (mpfr_prec_round (heap L z) p (to_int r))).
Proof.
  intros Ho Hmin Hmax Ev.
  assert (Hp := check_prec_integer [handle z; LInteger p; LInteger r] 2 p L eq_refl).
  rewrite Ev in Hp.
  unfold fr_prec_round.
  erewrite bind_returns;
    [ | apply arguments_returns; [checks | exact Ho | known_arguments] ].
  cbn. rewrite (valid_prec_long p Hmin Hmax Ev). reflexivity.
Qed.

Lemma fr_can_round_valid (ord : list nat) (z : addr) (p err r1 r2 : Z)
      (L : lua_State cell) :
  is_order 5 ord = true ->
  LONG_MIN dm <= MPFR_PREC_MIN -> MPFR_PREC_MAX <= LONG_MAX dm ->
  (MPFR_PREC_MIN <=? p) && (p <=? MPFR_PREC_MAX) = true ->
  fr_can_round ord [handle z; LInteger err; LInteger r1; LInteger r2; LInteger p] L
  = Ret [LBoolean (mpfr_can_round (heap L z) (to_long dm err)
                                  (to_int r1) (to_int r2) p)] L.
Proof.
  intros Ho Hmin Hmax Ev.
  assert (Hp := check_prec_integer
                  [handle z; LInteger err; LInteger r1; LInteger r2; LInteger p]
                  5 p L eq_refl).
  rewrite Ev in Hp.
  unfold fr_can_round.
  erewrite bind_returns;
    [ | apply arguments_returns; [checks | exact Ho | known_arguments] ].
  cbn. rewrite (valid_prec_long p Hmin Hmax Ev). reflexivity.
Qed.

(** X12: a precision passes through _check_prec on its way to the
    engine, whatever the order in which the arguments are checked: a
    precision within the bounds of the engine is handed to it as it is
    (the bounds lie within long), and any other raises an error on the
    argument of the precision, with both bounds in the message, and
    writes nothing.  set_prec returns nothing. *)
Theorem X12_precisions_are_validated :
  forall (o2 o3 o5 : list nat) (z : addr) (p err r r1 r2 : Z) (L : lua_State cell),
    is_order 2 o2 = true -> is_order 3 o3 = true -> is_order 5 o5 = true ->
    LONG_MIN dm <= MPFR_PREC_MIN -> MPFR_PREC_MAX <= LONG_MAX dm ->
    let valid := (MPFR_PREC_MIN <=? p) && (p <=? MPFR_PREC_MAX) in
    fr_set_prec o2 [handle z; LInteger p] L
    = (if valid then Ret [] (set_cell L z (mpfr_set_prec (heap L z) p))
       else Raise (ArgError 2 bad_prec) L)
    /\ fr_prec_round o3 [handle z; LInteger p; LInteger r] L
       = (if valid
          then Ret [handle z] (set_cell L z (mpfr_prec_round (heap L z) p (to_int r)))
          else Raise (ArgError 2 bad_prec) L)
    /\ fr_can_round o5 [handle z; LInteger err; LInteger r1; LInteger r2; LInteger p] L
       = (if valid
          then Ret [LBoolean (mpfr_can_round (heap L z) (to_long dm err)
                                             (to_int r1) (to_int r2) p)] L
          else Raise (ArgError 5 bad_prec) L).
Proof.
  intros o2 o3 o5 z p err r r1 r2 L H2 H3 H5 Hmin Hmax valid.
  assert (Hp2 := check_prec_integer [handle z; LInteger p] 2 p L eq_refl).
  assert (Hp3 := check_prec_integer [handle z; LInteger p; LInteger r] 2 p L eq_refl).
  assert (Hp5 := check_prec_integer
                   [handle z; LInteger err; LInteger r1; LInteger r2; LInteger p]
                   5 p L eq_refl).
  fold valid in Hp2, Hp3, Hp5.
  destruct valid eqn:Ev.
  - repeat match goal with |- _ /\ _ => split end.
    + apply fr_set_prec_valid; assumption.
    + apply fr_prec_round_valid; assumption.
    + apply fr_can_round_valid; assumption.
  - repeat match goal with |- _ /\ _ => split end.
    + unfold fr_set_prec, bind.
      rewrite (arguments_raises o2 _ (ArgError 2 bad_prec) L); [reflexivity | checks | exact H2 | | ].
      * apply Exists_cons_tl, Exists_cons_hd. apply arg_int_raises. exact Hp2.
      * repeat constructor; intros e' He'.
        -- apply arg_ptr_raise in He'. discriminate He'.
        -- apply arg_int_raise in He'. congruence.
    + unfold fr_prec_round, bind.
      rewrite (arguments_raises o3 _ (ArgError 2 bad_prec) L); [reflexivity | checks | exact H3 | | ].
      * apply Exists_cons_tl, Exists_cons_hd. apply arg_int_raises. exact Hp3.
      * repeat constructor; intros e' He'.
        -- apply arg_ptr_raise in He'. discriminate He'.
        -- apply arg_int_raise in He'. congruence.
        -- apply arg_int_raise in He'. discriminate He'.
    + unfold fr_can_round, bind.
      rewrite (arguments_raises o5 _ (ArgError 5 bad_prec) L); [reflexivity | checks | exact H5 | | ].
      * do 4 apply Exists_cons_tl. apply Exists_cons_hd. apply arg_int_raises. exact Hp5.
      * repeat constructor; intros e' He'.
        -- apply arg_ptr_raise in He'. discriminate He'.
        -- apply arg_int_raise in He'. discriminate He'.
        -- apply arg_int_raise in He'. discriminate He'.
        -- apply arg_int_raise in He'. discriminate He'.
        -- apply arg_int_raise in He'. congruence.
Qed.

(** ** Two destinations *)

Lemma index_first_two (args : list lua_value) (v w : lua_value) :
  index args 1 = Some v -> index args 2 = Some w -> firstn 2 args = [v; w].
Proof.
  destruct args as [ | a [ | b args]]; cbn; try discriminate.
  intros H1 H2. injection H1 as ->. injection H2 as ->. reflexivity.
Qed.

(** X13: an operation with two destinations (modf, sin_cos, sinh_cosh)
    returns, when it returns, its first two arguments, which are
    handles, and has written no cell but the ones of these two handles;
    the default rounding mode is as it was. *)
Theorem X13_two_destinations_are_returned :
  forall (ups : list (option fnptr_more)) (args vs : list lua_value)
         (L L' : lua_State cell),
    fr_fn12 ups args L = Ret vs L' ->
    exists x y : addr,
      index args 1 = Some (handle x)
      /\ index args 2 = Some (handle y)
      /\ vs = [handle x; handle y]
      /\ same_except [x; y] L L'.
Proof.
  intros ups args vs L L' H. unfold fr_fn12 in H. unfold bind at 1 in H.
  destruct (luaL_checkudata args 1 MPFR L) as [x L1 | e L1 | ] eqn:Ex;
    try discriminate.
  apply checkudata_ret in Ex. destruct Ex as [Hx ->].
  unfold bind at 1 in H.
  destruct (luaL_checkudata args 2 MPFR L) as [y L1 | e L1 | ] eqn:Ey;
    try discriminate.
  apply checkudata_ret in Ey. destruct Ey as [Hy ->].
  assert (Hk : returns_first 2 [x; y] args
                 (z <- luaL_checkudata args 3 MPFR ;;
                  r <- _opt_rnd args 4 ;;
                  call_fr2 (lua_touserdata_more ups 1) x y z r ;;;
                  lua_settop args 2)).
  { repeat return_step. unfold call_fr2. repeat touch_step. }
  specialize (Hk L). rewrite H in Hk. destruct Hk as [Hv Hs].
  exists x, y. repeat match goal with |- _ /\ _ => split end; try assumption.
  rewrite Hv. apply index_first_two; assumption.
Qed.

(** ** set with an integer and no base *)

(** What set does with an integer, in decimal, when the third argument
    is left out, nil or 10: the text of the integer goes to the parser
    of the engine in base 10. *)
Lemma fr_set_integer_text (z : addr) (n : Z) (rnd : option Z) (L : lua_State cell) :
  let outcome :=
    let '(c, status) :=
      mpfr_set_str (heap L z) (lua_Integer2str n) 10 (rnd_used rnd L) in
    if status =? 0 then Ret [handle z] (set_cell L z c)
    else Raise (ArgError 2 bad_number) (set_cell L z c) in
  fr_set (with_rnd [handle z; LInteger n; LNil] rnd) L = outcome
  /\ fr_set (with_rnd [handle z; LInteger n; LInteger 10] rnd) L = outcome.
Proof.
  cbv zeta. unfold fr_set, rnd_used, with_rnd, bind.
  split; destruct rnd as [r | ]; simpl;
    try (unfold to_int at 1; change (wrap_signed 32 10) with 10);
    match goal with
    | |- context [mpfr_set_str ?a ?b ?c ?d] =>
        destruct (mpfr_set_str a b c d) as [c0 st]
    end;
    destruct (st =? 0); reflexivity.
Qed.

Lemma fr_set_integer_alone (z : addr) (n : Z) (L : lua_State cell) :
  fr_set [handle z; LInteger n] L
  = let '(c, status) :=
      mpfr_set_str (heap L z) (lua_Integer2str n) 10 (rnd_used None L) in
    if status =? 0 then Ret [handle z] (set_cell L z c)
    else Raise (ArgError 2 bad_number) (set_cell L z c).
Proof.
  unfold fr_set, rnd_used, bind. simpl.
  unfold to_int at 1. change (wrap_signed 32 10) with 10.
  match goal with
  | |- context [mpfr_set_str ?a ?b ?c ?d] =>
      destruct (mpfr_set_str a b c d) as [c0 st]
  end.
  destruct (st =? 0); reflexivity.
Qed.

(** ** tonumber of a handle *)

Lemma opt_rnd_used (args : list lua_value) (rnd : option Z) (L : lua_State cell) :
  _opt_rnd (with_rnd args rnd) (S (List.length args)) L = Ret (rnd_used rnd L) L.
Proof.
  unfold with_rnd, rnd_used. destruct rnd as [r | ].
  - apply opt_rnd_integer.
    cbn [index]. rewrite nth_error_app2 by lia.
    rewrite Nat.sub_diag. reflexivity.
  - apply opt_rnd_left_out.
    unfold lua_isnoneornil. cbn [index]. rewrite app_nil_r.
    assert (H : nth_error args (List.length args) = None)
      by (apply nth_error_None; lia).
    rewrite H. reflexivity.
Qed.

Lemma fr_tonumber_handle (z : addr) (rnd : option Z) (L : lua_State cell) :
  fr_tonumber (with_rnd [handle z] rnd) L
  = if (long_bits dm <=? 64) && mpfr_integer_p (heap L z)
       && mpfr_fits_slong_p (heap L z) (rnd_used rnd L)
    then Ret [LInteger (mpfr_get_si (heap L z) (rnd_used rnd L))] L
    else Ret [LFloat (mpfr_get_d (heap L z) (rnd_used rnd L))] L.
Proof.
  unfold fr_tonumber.
  rewrite (bind_returns _ _ z L L)
    by (apply checkudata_handle; destruct rnd; reflexivity).
  rewrite (bind_returns _ _ _ L L (opt_rnd_used [handle z] rnd L)).
  unfold bind, load.
  destruct ((long_bits dm <=? 64) && mpfr_integer_p (heap L z)
            && mpfr_fits_slong_p (heap L z) (rnd_used rnd L)); reflexivity.
Qed.

(** ** Special values and their text *)

Lemma optinteger_integer (args : list lua_value) (i : nat) (def n : Z)
      (L : lua_State cell) :
  index args i = Some (LInteger n) ->
  luaL_optinteger args i def L = Ret n L.
Proof.
  intros H. unfold luaL_optinteger, lua_isnoneornil, luaL_checkinteger, lua_tointegerx.
  rewrite H. reflexivity.
Qed.

Lemma optinteger_left_out (args : list lua_value) (i : nat) (def : Z)
      (L : lua_State cell) :
  lua_isnoneornil args i = true ->
  luaL_optinteger args i def L = Ret def L.
Proof. intros H. unfold luaL_optinteger. rewrite H. reflexivity. Qed.

Lemma opt_base_integer (args : list lua_value) (i : nat) (b : Z) (L : lua_State cell) :
  index args i = Some (LInteger b) ->
  2 <= b <= 62 ->
  _opt_base args i L = Ret b L.
Proof.
  intros H Hb. unfold _opt_base.
  rewrite (bind_returns _ _ b L L) by (apply optinteger_integer; exact H).
  replace ((2 <=? b) && (b <=? 62)) with true
    by (symmetry; apply andb_true_intro; split; apply Z.leb_le; lia).
  unfold bind, luaL_argcheck, ret. rewrite to_int_base by exact Hb. reflexivity.
Qed.

Lemma opt_base_left_out (args : list lua_value) (i : nat) (L : lua_State cell) :
  lua_isnoneornil args i = true ->
  _opt_base args i L = Ret 10 L.
Proof.
  intros H. unfold _opt_base.
  rewrite (bind_returns _ _ 10 L L) by (apply optinteger_left_out; exact H).
  reflexivity.
Qed.

(** tostring of a cell that holds no number: the text of the engine, as
    it is. *)
Lemma fr_tostring_special (args : list lua_value) (z : addr) (b n r : Z)
      (L : lua_State cell) (str : string) :
  index args 1 = Some (handle z) ->
  _opt_base args 2 L = Ret b L ->
  luaL_optinteger args 3 0 L = Ret n L ->
  _opt_rnd args 4 L = Ret r L ->
  mpfr_number_p (heap L z) = false ->
  fst (mpfr_get_str b (to_size_t n) (heap L z) r) = str ->
  str = "@NaN@" \/ str = "@Inf@" \/ str = "-@Inf@" ->
  fr_tostring args L = Ret [LString str] L.
Proof.
  intros Hz Hb Hn Hr Hnum Hstr Hcases. unfold fr_tostring.
  rewrite (bind_returns _ _ z L L) by (apply checkudata_handle; exact Hz).
  rewrite (bind_returns _ _ b L L Hb).
  rewrite (bind_returns _ _ n L L Hn).
  rewrite (bind_returns _ _ r L L Hr).
  unfold bind at 1. cbn [load]. rewrite Hnum. cbn [negb].
  destruct (mpfr_get_str b (to_size_t n) (heap L z) r) as [s e].
  cbn [fst] in Hstr. subst s.
  destruct Hcases as [-> | [-> | ->]]; reflexivity.
Qed.

(** tostring of a zero. *)
Lemma fr_tostring_zero (args : list lua_value) (z : addr) (b n r : Z)
      (L : lua_State cell) :
  index args 1 = Some (handle z) ->
  _opt_base args 2 L = Ret b L ->
  luaL_optinteger args 3 0 L = Ret n L ->
  _opt_rnd args 4 L = Ret r L ->
  mpfr_number_p (heap L z) = true ->
  mpfr_zero_p (heap L z) = true ->
  fr_tostring args L
  = Ret [LString (if mpfr_signbit (heap L z) then "-0" else "0")] L.
Proof.
  intros Hz Hb Hn Hr Hnum Hzero. unfold fr_tostring.
  rewrite (bind_returns _ _ z L L) by (apply checkudata_handle; exact Hz).
  rewrite (bind_returns _ _ b L L Hb).
  rewrite (bind_returns _ _ n L L Hn).
  rewrite (bind_returns _ _ r L L Hr).
  unfold bind at 1. cbn [load]. rewrite Hnum, Hzero. reflexivity.
Qed.

Lemma fr_set_nan_handle (z : addr) (L : lua_State cell) :
  fr_set_nan [handle z] L = Ret [handle z] (set_cell L z (mpfr_set_nan (heap L z))).
Proof. reflexivity. Qed.

Lemma fr_set_inf_integer (ord : list nat) (z : addr) (s : Z) (L : lua_State cell) :
  is_order 2 ord = true ->
  fr_set_inf ord [handle z; LInteger s] L
  = Ret [handle z] (set_cell L z (mpfr_set_inf (heap L z) (to_int s))).
Proof.
  intros Ho. unfold fr_set_inf.
  erewrite bind_returns;
    [ | apply arguments_returns;
        [ checks | exact Ho
        | apply Forall2_cons;
          [ apply arg_ptr_returns, checkudata_handle; reflexivity
          | apply Forall2_cons;
            [ apply arg_int_returns, optinteger_integer; reflexivity
            | apply Forall2_nil ] ] ] ].
  reflexivity.
Qed.

Lemma fr_set_zero_integer (ord : list nat) (z : addr) (s : Z) (L : lua_State cell) :
  is_order 2 ord = true ->
  fr_set_zero ord [handle z; LInteger s] L
  = Ret [handle z] (set_cell L z (mpfr_set_zero (heap L z) (to_int s))).
Proof.
  intros Ho. unfold fr_set_zero.
  erewrite bind_returns;
    [ | apply arguments_returns;
        [ checks | exact Ho
        | apply Forall2_cons;
          [ apply arg_ptr_returns, checkudata_handle; reflexivity
          | apply Forall2_cons;
            [ apply arg_int_returns, optinteger_integer; reflexivity
            | apply Forall2_nil ] ] ] ].
  reflexivity.
Qed.

(** ** The precision of a cell *)

Lemma fr_get_prec_handle (z : addr) (L : lua_State cell) :
  fr_get_prec [handle z] L = Ret [LInteger (mpfr_get_prec (heap L z))] L.
Proof. reflexivity. Qed.

(** ** The default rounding mode *)

Lemma set_then_get_default_rounding_mode (k : Z) (L : lua_State cell) :
  bind (fr_set_default_rounding_mode [LInteger k])
       (fun _ => fr_get_default_rounding_mode []) L
  = let d := new_default_rounding_mode (default_rounding_mode L) (to_int k) in
    Ret [LInteger d] (mkState (heap L) d).
Proof. reflexivity. Qed.

(** ** Integers with a range *)

(** X14: the degree of a root must lie in [0, ULONG_MAX] and the order
    of a Bessel function (jn, yn) in [LONG_MIN, LONG_MAX]: an integer
    within the range reaches the engine as it is, with the rounding mode
    given or the default one, and the destination is returned; any other
    raises the range error on its own argument (3 for root, 2 for jn and
    yn) and writes nothing. *)
Theorem X14_integers_with_a_range :
  forall (f : cell -> Z -> cell -> Z -> cell) (z x : addr) (k : Z) (rnd : option Z)
         (L : lua_State cell),
    fr_root (with_rnd [handle z; handle x; LInteger k] rnd) L
    = (if (0 <=? k) && (k <=? ULONG_MAX dm)
       then Ret [handle z]
                (set_cell L z (mpfr_root (heap L z) (heap L x) k (rnd_used rnd L)))
       else Raise (ArgError 3 out_of_ulong) L)
    /\ fr_fn2n [Some (Fn_si_fr f)] (with_rnd [handle z; LInteger k; handle x] rnd) L
       = (if (LONG_MIN dm <=? k) && (k <=? LONG_MAX dm)
          then Ret [handle z]
                   (set_cell L z (f (heap L z) k (heap L x) (rnd_used rnd L)))
          else Raise (ArgError 2 out_of_long) L).
Proof.
  intros f z x k rnd L. split.
  - unfold fr_root.
    rewrite (bind_returns _ _ z L L)
      by (apply checkudata_handle; destruct rnd; reflexivity).
    rewrite (bind_returns _ _ x L L)
      by (apply checkudata_handle; destruct rnd; reflexivity).
    rewrite (bind_returns _ _ k L L)
      by (apply checkinteger_integer; destruct rnd; reflexivity).
    unfold bind at 1.
    destruct ((0 <=? k) && (k <=? ULONG_MAX dm)) eqn:E; [ | reflexivity].
    cbn [luaL_argcheck ret].
    rewrite (bind_returns _ _ _ L L (opt_rnd_used [handle z; handle x; LInteger k] rnd L)).
    rewrite (to_ulong_id k E). destruct rnd; reflexivity.
  - unfold fr_fn2n.
    rewrite (bind_returns _ _ z L L)
      by (apply checkudata_handle; destruct rnd; reflexivity).
    rewrite (bind_returns _ _ k L L)
      by (apply checkinteger_integer; destruct rnd; reflexivity).
    unfold bind at 1.
    destruct ((LONG_MIN dm <=? k) && (k <=? LONG_MAX dm)) eqn:E; [ | reflexivity].
    cbn [luaL_argcheck ret].
    rewrite (bind_returns _ _ x L L)
      by (apply checkudata_handle; destruct rnd; reflexivity).
    rewrite (bind_returns _ _ _ L L (opt_rnd_used [handle z; LInteger k; handle x] rnd L)).
    assert (Hk : to_long dm k = k).
    { apply to_long_id. apply andb_prop in E. destruct E as [E1 E2].
      apply Z.leb_le in E1. apply Z.leb_le in E2. lia. }
    rewrite Hk. destruct rnd; reflexivity.
Qed.

End Binding.

(** * Properties under the reference semantics *)

(** ** Rounding and negation *)

Lemma rnd_of_int_code (r : mpfr_rnd_t) : Ref.rnd_of_int (rnd_code r) = r.
Proof. destruct r; reflexivity. Qed.

Lemma mirror_involutive (r : mpfr_rnd_t) : Ref.mirror (Ref.mirror r) = r.
Proof. destruct r; reflexivity. Qed.

Lemma fneg_involutive (x : Ref.fval) : Ref.fneg (Ref.fneg x) = x.
Proof. destruct x; cbn; rewrite ?negb_involutive; reflexivity. Qed.

Lemma fneg_mk_num (neg : bool) (m e : Z) :
  Ref.fneg (Ref.mk_num neg m e) = Ref.mk_num (negb neg) m e.
Proof.
  unfold Ref.mk_num. destruct m as [ | q | q]; try reflexivity.
  destruct (Ref.odd_part q e). reflexivity.
Qed.

Lemma round_up_mirror (r : mpfr_rnd_t) (neg : bool) (q rem D : Z) :
  Ref.round_up (Ref.mirror r) (negb neg) q rem D = Ref.round_up r neg q rem D.
Proof. destruct r, neg; reflexivity. Qed.

(** Rounding commutes with negation when the directed modes are
    exchanged. *)
Lemma round_ratio_fneg (p : Z) (r : mpfr_rnd_t) (neg : bool) (n d e : Z) :
  Ref.fneg (Ref.round_ratio p r neg n d e)
  = Ref.round_ratio p (Ref.mirror r) (negb neg) n d e.
Proof.
  unfold Ref.round_ratio.
  destruct (Ref.scale n d (Z.log2 n - Z.log2 d - p)) as [N0 D0].
  match goal with
  | |- context [Ref.scale n d ?k] => destruct (Ref.scale n d k) as [N D]
  end.
  rewrite round_up_mirror. apply fneg_mk_num.
Qed.

Lemma fround_fneg (p : Z) (r : mpfr_rnd_t) (x : Ref.fval) :
  Ref.fneg (Ref.fround p r x) = Ref.fround p (Ref.mirror r) (Ref.fneg x).
Proof.
  destruct x; try reflexivity. cbn. apply round_ratio_fneg.
Qed.

Lemma same_number_refl (x : Ref.fval) : Ref.same_number x x.
Proof. left. reflexivity. Qed.

Lemma same_number_sym (x y : Ref.fval) : Ref.same_number x y -> Ref.same_number y x.
Proof.
  intros [H | [a [b [Ha Hb]]]]; [left; symmetry; exact H | ].
  right. exists b, a. split; assumption.
Qed.

Lemma same_number_zero (a b : bool) : Ref.same_number (Ref.Zero a) (Ref.Zero b).
Proof. right. exists a, b. split; reflexivity. Qed.

(** ** Addition *)

Lemma fadd_comm (p : Z) (r : mpfr_rnd_t) (x y : Ref.fval) :
  Ref.fadd p r x y = Ref.fadd p r y x.
Proof.
  destruct x as [ | a | a | nx mx ex], y as [ | b | b | ny my ey]; try reflexivity.
  - destruct a, b; reflexivity.
  - destruct a, b; reflexivity.
  - cbn. rewrite (Z.min_comm ey ex).
    rewrite (Z.add_comm (Ref.signed ny _)). reflexivity.
Qed.

Lemma signed_negb (neg : bool) (m : Z) : Ref.signed (negb neg) m = - Ref.signed neg m.
Proof. destruct neg; cbn; lia. Qed.

(** The negation of a sum is the sum of the negations, rounded in the
    mirrored direction, up to the sign of a zero. *)
Lemma fadd_fneg (p : Z) (r : mpfr_rnd_t) (x y : Ref.fval) :
  Ref.same_number (Ref.fneg (Ref.fadd p r x y))
                  (Ref.fadd p (Ref.mirror r) (Ref.fneg x) (Ref.fneg y)).
Proof.
  destruct x as [ | a | a | nx mx ex], y as [ | b | b | ny my ey];
    try (left; reflexivity).
  - left. destruct a, b; reflexivity.
  - cbn. destruct (Bool.eqb a b) eqn:E.
    + apply Bool.eqb_prop in E. subst b. rewrite Bool.eqb_reflx. left. reflexivity.
    + assert (E' : Bool.eqb (negb a) (negb b) = false) by (destruct a, b; auto).
      rewrite E'. apply same_number_zero.
  - left. apply (fround_fneg p r (Ref.Num ny my ey)).
  - left. apply (fround_fneg p r (Ref.Num nx mx ex)).
  - cbn [Ref.fadd Ref.fneg]. rewrite !signed_negb.
    set (s := Ref.signed nx _ + Ref.signed ny _).
    replace (- Ref.signed nx (Z.pos mx * 2 ^ (ex - Z.min ex ey))
             + - Ref.signed ny (Z.pos my * 2 ^ (ey - Z.min ex ey)))
      with (- s) by (unfold s; lia).
    destruct s as [ | q | q]; cbn [Z.opp].
    + apply same_number_zero.
    + left. apply round_ratio_fneg.
    + left. apply round_ratio_fneg.
Qed.

(** Adding the integer 0 and adding a cell that holds +0 give the same
    number. *)
Lemma fadd_zero_r (p : Z) (r : mpfr_rnd_t) (x : Ref.fval) :
  Ref.same_number (Ref.fround p r x) (Ref.fadd p r x (Ref.Zero false)).
Proof.
  destruct x as [ | a | a | nx mx ex]; try (left; reflexivity).
  cbn. destruct (Bool.eqb a false); apply same_number_zero.
Qed.

(** ** Exact results *)

Lemma mk_num_shift (neg : bool) (j : nat) :
  forall (m : positive) (e : Z),
    Ref.mk_num neg (Zpos m * 2 ^ Z.of_nat j) e
    = Ref.mk_num neg (Zpos m) (e + Z.of_nat j).
Proof.
  induction j as [ | j IH]; intros m e.
  - cbn [Z.of_nat]. rewrite Z.pow_0_r, Z.mul_1_r, Z.add_0_r. reflexivity.
  - rewrite Nat2Z.inj_succ, Z.pow_succ_r by lia.
    replace (Zpos m * (2 * 2 ^ Z.of_nat j)) with (Zpos (xO m) * 2 ^ Z.of_nat j)
      by (rewrite (Pos2Z.inj_xO m); ring).
    rewrite IH. unfold Ref.mk_num. cbn [Ref.odd_part].
    replace (e + Z.of_nat j + 1) with (e + Z.succ (Z.of_nat j)) by lia.
    reflexivity.
Qed.


(** ** Mixed-type addition and subtraction *)

(** C1 (amended): under the reference semantics, for a machine integer n
    and a handle hn that holds n, add (d, h, n, r) and add (d, h, hn, r)
    return d and leave in it the same precision and the same number, in
    every rounding mode r; sub (d, n, h, r) leaves in d the negation of
    what sub (d, h, n, r') leaves, where r' is r with the two directed
    modes toward the infinities exchanged, so r' = r for RNDN, RNDZ and
    RNDA.  Numbers are compared up to the sign of a zero. *)
Theorem C1_mixed_dispatch_add_and_sub :
  forall (dm : data_model) (luaO_str2num : string -> option (Z + double))
         (d h hn : addr) (n : Z) (r : mpfr_rnd_t) (L : lua_State Ref.cell),
    LONG_MIN dm <= n <= LONG_MAX dm ->
    Ref.val (heap L hn) = Ref.of_Z n ->
    let add := fn2_closure dm luaO_str2num Ref.cell
                 (fn2_add Ref.cell Ref.mpfr_add Ref.mpfr_add_si Ref.mpfr_add_d) in
    let sub := fn2_closure dm luaO_str2num Ref.cell
                 (fn2_sub Ref.cell Ref.mpfr_sub Ref.mpfr_sub_si Ref.mpfr_sub_d
                          Ref.mpfr_si_sub Ref.mpfr_d_sub) in
    (exists L1 L2,
        add [handle d; handle h; LInteger n; LInteger (rnd_code r)] L
        = Ret [handle d] L1
        /\ add [handle d; handle h; handle hn; LInteger (rnd_code r)] L
           = Ret [handle d] L2
        /\ Ref.prec (heap L1 d) = Ref.prec (heap L2 d)
        /\ Ref.same_number (Ref.val (heap L1 d)) (Ref.val (heap L2 d)))
    /\ (exists L1 L2,
           sub [handle d; LInteger n; handle h; LInteger (rnd_code r)] L
           = Ret [handle d] L1
           /\ sub [handle d; handle h; LInteger n; LInteger (rnd_code (Ref.mirror r))] L
              = Ret [handle d] L2
           /\ Ref.prec (heap L1 d) = Ref.prec (heap L2 d)
           /\ Ref.same_number (Ref.val (heap L1 d))
                              (Ref.fneg (Ref.val (heap L2 d)))).
Proof.
  intros dm str2num d h hn n r L Hn Hhn add sub. split.
  - eexists. eexists.
    split; [ apply fn2_handle_long; [reflexivity | exact Hn] | ].
    split; [ apply fn2_handle_handle; reflexivity | ].
    rewrite !heap_set_cell_same. split; [reflexivity | ].
    cbn [Ref.mpfr_add_si Ref.mpfr_add Ref.put Ref.val].
    rewrite rnd_of_int_code, Hhn.
    destruct (n =? 0) eqn:E.
    + apply Z.eqb_eq in E. subst n. apply fadd_zero_r.
    + apply same_number_refl.
  - eexists. eexists.
    split; [ apply fn2_long_handle_left; [reflexivity | exact Hn] | ].
    split; [ apply fn2_handle_long; [reflexivity | exact Hn] | ].
    rewrite !heap_set_cell_same. split; [reflexivity | ].
    cbn [Ref.mpfr_si_sub Ref.mpfr_sub_si Ref.put Ref.val Ref.prec].
    rewrite !rnd_of_int_code.
    destruct (n =? 0).
    + rewrite fround_fneg, mirror_involutive. apply same_number_refl.
    + unfold Ref.fsub. apply same_number_sym.
      rewrite (fadd_comm _ r (Ref.of_Z n)).
      rewrite <- (mirror_involutive r) at 2.
      rewrite <- (fneg_involutive (Ref.of_Z n)) at 2.
      apply fadd_fneg.
Qed.

(** The amended statement at add (d, h, 3) and sub (d, 3, h) in the
    example state, where the handle 2%nat holds 3. *)
Lemma C1_witness :
  (exists L1 L2,
      fn2_closure LP64 Host.str2num Ref.cell
        (fn2_add Ref.cell Ref.mpfr_add Ref.mpfr_add_si Ref.mpfr_add_d)
        [handle 0%nat; handle 1%nat; LInteger 3; LInteger (rnd_code MPFR_RNDN)]
        Examples.state = Ret [handle 0%nat] L1
      /\ fn2_closure LP64 Host.str2num Ref.cell
           (fn2_add Ref.cell Ref.mpfr_add Ref.mpfr_add_si Ref.mpfr_add_d)
           [handle 0%nat; handle 1%nat; handle 2%nat; LInteger (rnd_code MPFR_RNDN)]
           Examples.state = Ret [handle 0%nat] L2
      /\ Ref.prec (heap L1 0%nat) = Ref.prec (heap L2 0%nat)
      /\ Ref.same_number (Ref.val (heap L1 0%nat)) (Ref.val (heap L2 0%nat))).
Proof.
  refine (proj1 (C1_mixed_dispatch_add_and_sub LP64 Host.str2num 0%nat 1%nat 2%nat 3
                   MPFR_RNDN Examples.state _ _)).
  - unfold LONG_MIN, LONG_MAX. simpl. lia.
  - reflexivity.
Defined.

(** C1 as stated fails at sub (d, 5, h, RNDU) with d of two bits and
    h = 0.75: 5 - 0.75 rounded up is 6, while 0.75 - 5 rounded up is -4,
    whose negation is 4. *)
Lemma C1_counterexample :
  exists L1 L2,
    fn2_closure LP64 Host.str2num Ref.cell
      (fn2_sub Ref.cell Ref.mpfr_sub Ref.mpfr_sub_si Ref.mpfr_sub_d
               Ref.mpfr_si_sub Ref.mpfr_d_sub)
      [handle 0%nat; LInteger 5; handle 1%nat; LInteger (rnd_code MPFR_RNDU)]
      Examples.state = Ret [handle 0%nat] L1
    /\ fn2_closure LP64 Host.str2num Ref.cell
         (fn2_sub Ref.cell Ref.mpfr_sub Ref.mpfr_sub_si Ref.mpfr_sub_d
                  Ref.mpfr_si_sub Ref.mpfr_d_sub)
         [handle 0%nat; handle 1%nat; LInteger 5; LInteger (rnd_code MPFR_RNDU)]
         Examples.state = Ret [handle 0%nat] L2
    /\ Ref.val (heap L1 0%nat) = Ref.Num false 3 1
    /\ Ref.fneg (Ref.val (heap L2 0%nat)) = Ref.Num false 1 2
    /\ ~ Ref.same_number (Ref.val (heap L1 0%nat))
                         (Ref.fneg (Ref.val (heap L2 0%nat))).
Proof.
  eexists. eexists.
  split; [ vm_compute; reflexivity | ].
  split; [ vm_compute; reflexivity | ].
  split; [ vm_compute; reflexivity | ].
  split; [ vm_compute; reflexivity | ].
  vm_compute. intros [H | [a [b [H _]]]]; discriminate.
Qed.

(** ** Powers over integer operands *)



(** ** set with a text that is no number *)

(** C5 as stated fails at set (z, "abc", 10, RNDN) on a cell that holds
    0.75: the error names argument 2, and the cell holds zero when it is
    raised. *)
Lemma C5_counterexample :
  exists L',
    fr_set LP64 Host.str2num Host.number2str Ref.cell
           Ref.mpfr_set_si Ref.mpfr_set_d Ref.mpfr_set Ref.mpfr_set_str
           [handle 1%nat; LString "abc"; LInteger 10; LInteger (rnd_code MPFR_RNDN)]
           Examples.state
    = Raise (ArgError 2 bad_number) L'
    /\ Ref.val (heap Examples.state 1%nat) = Ref.Num false 3 (-2)
    /\ Ref.val (heap L' 1%nat) = Ref.Zero false
    /\ heap L' 1%nat <> heap Examples.state 1%nat.
Proof.
  eexists.
  split; [ vm_compute; reflexivity | ].
  split; [ reflexivity | ].
  split; [ vm_compute; reflexivity | ].
  vm_compute. discriminate.
Qed.

(** ** sqrt of a float with an integral value *)

(** The failing input of C9, sqrt (z, 4.0): the double 4.0 converts
    exactly to the integer 4, which lies in [0, ULONG_MAX], and the call
    raises a type error on argument 2 instead of selecting the integer
    variant. *)
Lemma fn1u_refuses_four :
  float_to_integer Examples.four = Some 4
  /\ 0 <= 4 <= ULONG_MAX LP64
  /\ exists c,
       lookup Sym.cell "sqrt"
         (_reg_fn1u LP64 Host.str2num Sym.cell
            (_fn1u_reg Sym.cell Sym.mpfr_sqrt Sym.mpfr_zeta
                       Sym.mpfr_sqrt_ui Sym.mpfr_zeta_ui)) = Some c
       /\ c [handle 0%nat; LFloat Examples.four; LInteger (rnd_code MPFR_RNDN)] Sym.init
          = Raise (ArgError 2 "mpfr_t expected, got number") Sym.init
       /\ c [handle 0%nat; LFloat Examples.four; LInteger (rnd_code MPFR_RNDN)] Sym.init
          <> Ret [handle 0%nat]
                 (set_cell Sym.init 0%nat
                    (Sym.mpfr_sqrt_ui (heap Sym.init 0%nat) 4 (rnd_code MPFR_RNDN))).
Proof.
  split; [ reflexivity | ].
  split; [ unfold ULONG_MAX; simpl; lia | ].
  eexists. split; [ reflexivity | ].
  split; [ reflexivity | ].
  discriminate.
Qed.

(** * The textual round trip *)

(** ** Rounding to nearest *)

Lemma scale_pos (n d k : Z) :
  0 < n -> 0 < d -> 0 < fst (Ref.scale n d k) /\ 0 < snd (Ref.scale n d k).
Proof.
  intros Hn Hd. unfold Ref.scale.
  destruct (Z.leb_spec 0 k) as [E | E]; cbn [fst snd].
  - split; [lia | ]. apply Z.mul_pos_pos; [lia | ].
    apply Z.pow_pos_nonneg; lia.
  - split; [ | lia]. apply Z.mul_pos_pos; [lia | ].
    apply Z.pow_pos_nonneg; lia.
Qed.

(** One step up in scale halves the quotient. *)
Lemma scale_succ (n d k : Z) :
  fst (Ref.scale n d k) * snd (Ref.scale n d (k + 1))
  = 2 * fst (Ref.scale n d (k + 1)) * snd (Ref.scale n d k).
Proof.
  unfold Ref.scale.
  destruct (Z.leb_spec 0 k) as [E | E], (Z.leb_spec 0 (k + 1)) as [E1 | E1];
    cbn [fst snd]; try lia.
  - rewrite Z.pow_add_r by lia. change (2 ^ 1) with 2. ring.
  - assert (Hk : k = -1) by lia. rewrite Hk.
    change (- -1) with 1. change (-1 + 1) with 0.
    rewrite Z.pow_0_r, Z.pow_1_r. ring.
  - replace (- k) with (- (k + 1) + 1) by lia.
    rewrite Z.pow_add_r by lia. change (2 ^ 1) with 2. ring.
Qed.

Lemma round_ratio_chosen (p : Z) (r : mpfr_rnd_t) (neg : bool) (n d e : Z) :
  Ref.round_ratio p r neg n d e
  = let k := Ref.chosen_scale p n d in
    let N := fst (Ref.scale n d k) in
    let D := snd (Ref.scale n d k) in
    Ref.mk_num neg (if Ref.round_up r neg (N / D) (N mod D) D then N / D + 1 else N / D)
               (k + e).
Proof.
  unfold Ref.round_ratio, Ref.chosen_scale.
  destruct (Ref.scale n d (Z.log2 n - Z.log2 d - p)) as [N0 D0].
  cbv zeta.
  destruct (Ref.scale n d (if 2 ^ p * D0 <=? N0 then _ else _)) as [N D].
  reflexivity.
Qed.

Lemma pow2_lt_inv (a b : Z) : 0 <= b -> 2 ^ a < 2 ^ b -> a < b.
Proof.
  intros Hb H. destruct (Z.lt_ge_cases a b) as [ | Hge]; [assumption | ].
  exfalso. assert (2 ^ b <= 2 ^ a) by (apply Z.pow_le_mono_r; lia). lia.
Qed.

Lemma chosen_scale_unique (p n d k : Z) :
  0 < p -> 0 < n -> 0 < d -> Ref.in_binade p n d k -> Ref.chosen_scale p n d = k.
Proof.
  intros Hp Hn Hd [Hlo Hhi].
  pose proof (Z.log2_spec n Hn) as [Ha1 Ha2].
  pose proof (Z.log2_spec d Hd) as [Hc1 Hc2].
  pose proof (Z.log2_nonneg n) as Ha0.
  pose proof (Z.log2_nonneg d) as Hc0.
  set (a := Z.log2 n) in *. set (c := Z.log2 d) in *.
  assert (Hk : a - c - p <= k <= a - c - p + 1).
  { unfold Ref.scale in Hlo, Hhi.
    destruct (Z.leb_spec 0 k) as [E | E]; cbn [fst snd] in Hlo, Hhi.
    - split.
      + assert (H : 2 ^ a < 2 ^ (p + k + Z.succ c)).
        { rewrite !Z.pow_add_r by lia.
          assert (0 < 2 ^ p) by (apply Z.pow_pos_nonneg; lia).
          assert (0 < 2 ^ k) by (apply Z.pow_pos_nonneg; lia).
          nia. }
        apply pow2_lt_inv in H; lia.
      + assert (H : 2 ^ (p - 1 + k + c) < 2 ^ Z.succ a).
        { rewrite !Z.pow_add_r by lia.
          assert (0 < 2 ^ (p - 1)) by (apply Z.pow_pos_nonneg; lia).
          assert (0 < 2 ^ k) by (apply Z.pow_pos_nonneg; lia).
          nia. }
        apply pow2_lt_inv in H; lia.
    - split.
      + assert (H : 2 ^ (a + - k) < 2 ^ (p + Z.succ c)).
        { rewrite !Z.pow_add_r by lia.
          assert (0 < 2 ^ p) by (apply Z.pow_pos_nonneg; lia).
          assert (0 < 2 ^ (- k)) by (apply Z.pow_pos_nonneg; lia).
          nia. }
        apply pow2_lt_inv in H; lia.
      + assert (H : 2 ^ (p - 1 + c) < 2 ^ (Z.succ a + - k)).
        { rewrite !Z.pow_add_r by lia.
          assert (0 < 2 ^ (p - 1)) by (apply Z.pow_pos_nonneg; lia).
          assert (0 < 2 ^ (- k)) by (apply Z.pow_pos_nonneg; lia).
          nia. }
        apply pow2_lt_inv in H; lia. }
  unfold Ref.chosen_scale. fold a c.
  destruct (Ref.scale n d (a - c - p)) as [N0 D0] eqn:E0.
  assert (Hk2 : k = a - c - p \/ k = a - c - p + 1) by lia.
  destruct Hk2 as [-> | ->].
  - rewrite E0 in Hhi. cbn [fst snd] in Hhi.
    assert (Ht : (2 ^ p * D0 <=? N0) = false) by (apply Z.leb_gt; lia).
    rewrite Ht. reflexivity.
  - pose proof (scale_succ n d (a - c - p)) as Hs.
    rewrite E0 in Hs. cbn [fst snd] in Hs.
    pose proof (scale_pos n d (a - c - p + 1) Hn Hd) as [Hp1 Hp2].
    pose proof (scale_pos n d (a - c - p) Hn Hd) as [Hp3 Hp4].
    rewrite E0 in Hp3, Hp4. cbn [fst snd] in Hp3, Hp4.
    assert (Ht : (2 ^ p * D0 <=? N0) = true).
    { apply Z.leb_le.
      assert (E2 : 2 ^ p = 2 * 2 ^ (p - 1)).
      { replace p with (Z.succ (p - 1)) at 1 by lia. apply Z.pow_succ_r. lia. }
      rewrite E2.
      apply Z.mul_le_mono_pos_r with (p := snd (Ref.scale n d (a - c - p + 1)));
        [exact Hp2 | ].
      nia. }
    rewrite Ht. reflexivity.
Qed.

Lemma mk_num_double (neg : bool) (A e : Z) :
  0 < A -> Ref.mk_num neg (2 * A) e = Ref.mk_num neg A (e + 1).
Proof.
  intros H. destruct A as [ | a | a]; try lia. reflexivity.
Qed.

Lemma div_mod_unique (N D q r : Z) :
  0 <= r < D -> N = D * q + r -> N / D = q /\ N mod D = r.
Proof.
  intros Hr HN. split.
  - symmetry. apply (Z.div_unique_pos N D q r); assumption.
  - symmetry. apply (Z.mod_unique_pos N D q r); assumption.
Qed.

(** A quotient whose relative distance to M * 2^g, for M of p bits, is
    at most 2^-(p+1) rounds to M * 2^g. *)
Lemma round_nearest (p : positive) (neg : bool) (n d M g : Z) :
  0 < n -> 0 < d ->
  2 ^ (Zpos p - 1) <= M < 2 ^ Zpos p ->
  2 ^ (Zpos p + 1) * Z.abs (fst (Ref.scale n d g) - M * snd (Ref.scale n d g))
  <= M * snd (Ref.scale n d g) ->
  Ref.round_ratio (Zpos p) MPFR_RNDN neg n d 0 = Ref.mk_num neg M g.
Proof.
  intros Hn Hd HM Hnear.
  pose proof (scale_pos n d g Hn Hd) as [HN HD].
  assert (HP : 2 ^ Zpos p = 2 * 2 ^ (Zpos p - 1)).
  { replace (Zpos p) with (Z.succ (Zpos p - 1)) at 1 by lia. apply Z.pow_succ_r. lia. }
  assert (HP1 : 2 ^ (Zpos p + 1) = 2 * 2 ^ Zpos p).
  { replace (Zpos p + 1) with (Z.succ (Zpos p)) by lia. apply Z.pow_succ_r. lia. }
  assert (Hh : 0 < 2 ^ (Zpos p - 1)) by (apply Z.pow_pos_nonneg; lia).
  set (P := 2 ^ Zpos p) in *. set (H := 2 ^ (Zpos p - 1)) in *.
  rewrite HP1 in Hnear.
  rewrite round_ratio_chosen. cbv zeta. rewrite Z.add_0_r.
  destruct (Z.le_gt_cases (M * snd (Ref.scale n d g)) (fst (Ref.scale n d g)))
    as [Hge | Hlt].
  - (* the quotient is at least M *)
    rewrite (chosen_scale_unique (Zpos p) n d g) by
      (try lia; split; fold P H; nia).
    set (N := fst (Ref.scale n d g)) in *. set (D := snd (Ref.scale n d g)) in *.
    rewrite Z.abs_eq in Hnear by lia.
    destruct (div_mod_unique N D M (N - M * D)) as [Hq Hr]; [nia | ring | ].
    rewrite Hq, Hr. unfold Ref.round_up.
    assert (E1 : (D <? 2 * (N - M * D)) = false) by (apply Z.ltb_ge; nia).
    assert (E2 : (2 * (N - M * D) =? D) = false) by (apply Z.eqb_neq; nia).
    rewrite E1, E2. reflexivity.
  - destruct (Z.eq_dec M H) as [HMH | HMH].
    + (* M is 2^(p-1) and the quotient is below it: one scale down *)
      pose proof (scale_succ n d (g - 1)) as Hs.
      replace (g - 1 + 1) with g in Hs by lia.
      pose proof (scale_pos n d (g - 1) Hn Hd) as [HN' HD'].
      set (N := fst (Ref.scale n d g)) in *. set (D := snd (Ref.scale n d g)) in *.
      set (N' := fst (Ref.scale n d (g - 1))) in *.
      set (D' := snd (Ref.scale n d (g - 1))) in *.
      rewrite Z.abs_neq in Hnear by lia.
      assert (Hlo : (2 * P - 1) * D' <= 2 * N').
      { apply Z.mul_le_mono_pos_r with (p := D); [exact HD | ]. nia. }
      assert (Hhi : N' < P * D').
      { apply Z.mul_lt_mono_pos_r with (p := D); [exact HD | ]. nia. }
      rewrite (chosen_scale_unique (Zpos p) n d (g - 1)) by
        (try lia; split; fold P H N' D'; nia).
      fold N' D'.
      destruct (div_mod_unique N' D' (P - 1) (N' - (P - 1) * D')) as [Hq Hr];
        [nia | ring | ].
      rewrite Hq, Hr. unfold Ref.round_up.
      assert (Hodd : Z.odd (P - 1) = true).
      { rewrite HP. rewrite Z.sub_1_r, Z.odd_pred, Z.even_mul. reflexivity. }
      assert (E : (D' <? 2 * (N' - (P - 1) * D'))
                  || ((2 * (N' - (P - 1) * D') =? D') && Z.odd (P - 1)) = true).
      { rewrite Hodd, andb_true_r.
        destruct (Z.ltb_spec D' (2 * (N' - (P - 1) * D'))) as [ | Hle];
          [reflexivity | ].
        apply Z.eqb_eq. nia. }
      rewrite E. replace (P - 1 + 1) with (2 * M) by lia.
      rewrite mk_num_double by lia. f_equal. lia.
    + (* M is above 2^(p-1) and the quotient is below M *)
      rewrite (chosen_scale_unique (Zpos p) n d g) by
        (try lia; split; fold P H; nia).
      set (N := fst (Ref.scale n d g)) in *. set (D := snd (Ref.scale n d g)) in *.
      rewrite Z.abs_neq in Hnear by lia.
      destruct (div_mod_unique N D (M - 1) (N - (M - 1) * D)) as [Hq Hr];
        [nia | ring | ].
      rewrite Hq, Hr. unfold Ref.round_up.
      assert (E1 : (D <? 2 * (N - (M - 1) * D)) = true) by (apply Z.ltb_lt; nia).
      rewrite E1. cbn [orb]. f_equal. lia.
Qed.

(** ** Integer powers as reals *)

Lemma IZR_pow_nonneg (B t : Z) : 0 <= t -> IZR (B ^ t) = powerRZ (IZR B) t.
Proof.
  intros Ht. rewrite <- (Z2Nat.id t Ht) at 1.
  rewrite <- pow_IZR, pow_powerRZ, Z2Nat.id by exact Ht. reflexivity.
Qed.

Lemma powerRZ_pos (B t : Z) : 0 < B -> (0 < powerRZ (IZR B) t)%R.
Proof. intros HB. apply powerRZ_lt. apply IZR_lt. exact HB. Qed.

Lemma powerRZ_sum (B s t : Z) :
  0 < B -> powerRZ (IZR B) (s + t) = (powerRZ (IZR B) s * powerRZ (IZR B) t)%R.
Proof.
  intros HB. apply powerRZ_add. apply not_0_IZR. lia.
Qed.

Lemma powerRZ_inv (B t : Z) :
  0 < B -> (powerRZ (IZR B) t * powerRZ (IZR B) (- t) = 1)%R.
Proof.
  intros HB. rewrite <- powerRZ_sum by exact HB.
  rewrite Z.add_opp_diag_r. reflexivity.
Qed.

(** B^max(t,0) / B^max(-t,0) = B^t *)
Lemma pow_split (B t : Z) :
  0 < B ->
  IZR (B ^ Z.max t 0) = (powerRZ (IZR B) t * IZR (B ^ Z.max (- t) 0))%R.
Proof.
  intros HB. destruct (Z.le_gt_cases 0 t) as [Ht | Ht].
  - rewrite (Z.max_l t 0), (Z.max_r (- t) 0) by lia.
    rewrite Z.pow_0_r, IZR_pow_nonneg by exact Ht. lra.
  - rewrite (Z.max_r t 0), (Z.max_l (- t) 0) by lia.
    rewrite Z.pow_0_r, IZR_pow_nonneg by lia.
    rewrite powerRZ_inv by exact HB. reflexivity.
Qed.

Lemma powerRZ_mono (B s t : Z) :
  1 <= B -> s <= t -> (powerRZ (IZR B) s <= powerRZ (IZR B) t)%R.
Proof.
  intros HB Hst.
  replace t with (s + (t - s)) by lia.
  rewrite powerRZ_sum by lia.
  rewrite <- (IZR_pow_nonneg B (t - s)) by lia.
  assert (HB0 : 0 < B) by lia.
  pose proof (powerRZ_pos B s HB0) as Hs.
  assert (H1 : (1 <= IZR (B ^ (t - s)))%R).
  { apply IZR_le. assert (0 < B ^ (t - s)) by (apply Z.pow_pos_nonneg; lia). lia. }
  nra.
Qed.

(** The quotient at scale k, as a real. *)
Lemma scale_R (n d k : Z) :
  (IZR (fst (Ref.scale n d k)) * IZR d * powerRZ 2 k
   = IZR n * IZR (snd (Ref.scale n d k)))%R.
Proof.
  unfold Ref.scale. destruct (Z.leb_spec 0 k) as [E | E]; cbn [fst snd].
  - rewrite mult_IZR, IZR_pow_nonneg by exact E. ring.
  - rewrite mult_IZR, IZR_pow_nonneg by lia.
    rewrite Rmult_assoc, (Rmult_comm (IZR d)), <- Rmult_assoc, Rmult_assoc.
    rewrite (Rmult_assoc (IZR n)).
    replace (powerRZ 2 (- k) * (powerRZ 2 k * IZR d))%R
      with ((powerRZ 2 k * powerRZ 2 (- k)) * IZR d)%R by ring.
    rewrite (powerRZ_inv 2 k) by lia. ring.
Qed.

(** [round_nearest], with the distance measured on the reals. *)
Lemma round_nearest_R (p : positive) (neg : bool) (n d M g : Z) :
  0 < n -> 0 < d ->
  2 ^ (Zpos p - 1) <= M < 2 ^ Zpos p ->
  (powerRZ 2 (Zpos p + 1) * Rabs (IZR n / IZR d - IZR M * powerRZ 2 g)
   <= IZR M * powerRZ 2 g)%R ->
  Ref.round_ratio (Zpos p) MPFR_RNDN neg n d 0 = Ref.mk_num neg M g.
Proof.
  intros Hn Hd HM H. apply round_nearest; try assumption.
  pose proof (scale_pos n d g Hn Hd) as [HN HD].
  pose proof (scale_R n d g) as Hs.
  set (N := fst (Ref.scale n d g)) in *. set (D := snd (Ref.scale n d g)) in *.
  apply le_IZR.
  rewrite !mult_IZR, abs_IZR, minus_IZR, mult_IZR.
  rewrite IZR_pow_nonneg by lia.
  assert (H2 : 0 < 2) by lia.
  pose proof (powerRZ_pos 2 g H2) as Hg.
  pose proof (powerRZ_pos 2 (- g) H2) as Hg'.
  pose proof (powerRZ_inv 2 g H2) as Hgg.
  assert (Hd' : (0 < IZR d)%R) by (apply IZR_lt; exact Hd).
  assert (HD' : (0 < IZR D)%R) by (apply IZR_lt; exact HD).
  set (x := (IZR n / IZR d)%R) in *.
  assert (HNx : (IZR N = x * IZR D * powerRZ 2 (- g))%R).
  { unfold x.
    replace (IZR N) with (IZR N * IZR d * powerRZ 2 g * (powerRZ 2 (- g) / IZR d))%R.
    - rewrite Hs. field. lra.
    - replace (IZR N * IZR d * powerRZ 2 g * (powerRZ 2 (- g) / IZR d))%R
        with (IZR N * (powerRZ 2 g * powerRZ 2 (- g)))%R by (field; lra).
      rewrite Hgg. ring. }
  rewrite HNx.
  replace (x * IZR D * powerRZ 2 (- g) - IZR M * IZR D)%R
    with ((IZR D * powerRZ 2 (- g)) * (x - IZR M * powerRZ 2 g))%R.
  2:{ replace (IZR M * IZR D)%R
        with (IZR M * IZR D * (powerRZ 2 g * powerRZ 2 (- g)))%R
        by (rewrite Hgg; ring).
      ring. }
  rewrite Rabs_mult, (Rabs_pos_eq (IZR D * powerRZ 2 (- g))%R)
    by (apply Rlt_le, Rmult_lt_0_compat; assumption).
  replace (IZR M * IZR D)%R
    with ((IZR D * powerRZ 2 (- g)) * (IZR M * powerRZ 2 g))%R.
  2:{ replace (IZR D * powerRZ 2 (- g) * (IZR M * powerRZ 2 g))%R
        with (IZR M * IZR D * (powerRZ 2 g * powerRZ 2 (- g)))%R by ring.
      rewrite Hgg. ring. }
  replace (powerRZ 2 (Z.pos p + 1) *
           (IZR D * powerRZ 2 (- g) * Rabs (x - IZR M * powerRZ 2 g)))%R
    with ((IZR D * powerRZ 2 (- g)) *
          (powerRZ 2 (Z.pos p + 1) * Rabs (x - IZR M * powerRZ 2 g)))%R by ring.
  apply Rmult_le_compat_l; [ | exact H].
  apply Rlt_le, Rmult_lt_0_compat; assumption.
Qed.

(** ** Searches *)

Lemma least_from_spec (ok : Z -> bool) (fuel : nat) :
  forall k t : Z,
    0 <= t <= Z.of_nat fuel -> ok (k + t) = true ->
    ok (Ref.least_from fuel k ok) = true
    /\ k <= Ref.least_from fuel k ok <= k + t
    /\ forall j, k <= j < Ref.least_from fuel k ok -> ok j = false.
Proof.
  induction fuel as [ | fuel IH]; intros k t Ht Hok.
  - assert (t = 0) by lia. subst t. rewrite Z.add_0_r in Hok. cbn.
    repeat split; try lia. exact Hok.
  - cbn [Ref.least_from]. destruct (ok k) eqn:Ek.
    + repeat split; try lia. exact Ek.
    + assert (Ht0 : t <> 0).
      { intros ->. rewrite Z.add_0_r in Hok. congruence. }
      destruct (IH (k + 1) (t - 1)) as [H1 [H2 H3]].
      * lia.
      * replace (k + 1 + (t - 1)) with (k + t) by lia. exact Hok.
      * repeat split; try lia; [exact H1 | ].
        intros j Hj. destruct (Z.eq_dec j k) as [-> | Hne]; [exact Ek | ].
        apply H3. lia.
Qed.

(** ** Powers of the base against powers of two *)

Lemma base_pow_ge (b t : Z) :
  2 <= b -> 0 <= t -> (powerRZ 2 t <= powerRZ (IZR b) t)%R.
Proof.
  intros Hb Ht. rewrite <- !IZR_pow_nonneg by exact Ht.
  apply IZR_le. apply Z.pow_le_mono_l. lia.
Qed.

Lemma base_pow_le (b t : Z) :
  2 <= b -> t <= 0 -> (powerRZ (IZR b) t <= powerRZ 2 t)%R.
Proof.
  intros Hb Ht.
  replace t with (- - t) by lia. rewrite !(powerRZ_neg' _ (- t)).
  assert (H2 : 0 < 2) by lia. assert (Hb0 : 0 < b) by lia.
  pose proof (powerRZ_pos 2 (- t) H2).
  pose proof (powerRZ_pos b (- t) Hb0).
  apply Rinv_le_contravar; [assumption | ].
  apply base_pow_ge; lia.
Qed.

Lemma lt_pow_R (m e b E : Z) :
  0 < b ->
  Ref.lt_pow m e b E = true
  <-> (IZR m * powerRZ 2 e < powerRZ (IZR b) E)%R.
Proof.
  intros Hb. unfold Ref.lt_pow.
  assert (H2 : 0 < 2) by lia.
  assert (HA : (0 < IZR (2 ^ Z.max (- e) 0))%R).
  { apply IZR_lt. apply Z.pow_pos_nonneg; lia. }
  assert (HB : (0 < IZR (b ^ Z.max (- E) 0))%R).
  { apply IZR_lt. apply Z.pow_pos_nonneg; lia. }
  pose proof (pow_split 2 e H2) as He.
  pose proof (pow_split b E Hb) as HE.
  set (A := IZR (2 ^ Z.max (- e) 0)) in *.
  set (B := IZR (b ^ Z.max (- E) 0)) in *.
  assert (Hl : IZR (m * 2 ^ Z.max e 0 * b ^ Z.max (- E) 0)
               = ((IZR m * powerRZ 2 e) * (A * B))%R).
  { rewrite !mult_IZR, He. fold B. ring. }
  assert (Hr : IZR (b ^ Z.max E 0 * 2 ^ Z.max (- e) 0)
               = (powerRZ (IZR b) E * (A * B))%R).
  { rewrite mult_IZR, HE. fold A. ring. }
  assert (HAB : (0 < A * B)%R) by (apply Rmult_lt_0_compat; assumption).
  rewrite Z.ltb_lt. split.
  - intros H. apply IZR_lt in H. rewrite Hl, Hr in H.
    apply Rmult_lt_reg_r in H; assumption.
  - intros H. apply lt_IZR. rewrite Hl, Hr.
    apply Rmult_lt_compat_r; assumption.
Qed.

(** ** The exponent of the digits *)

Lemma value_between_powers (m : positive) (e : Z) :
  let a := Z.log2 (Zpos m) + e in
  (powerRZ 2 a <= IZR (Zpos m) * powerRZ 2 e < powerRZ 2 (a + 1))%R.
Proof.
  intros a. unfold a.
  pose proof (Z.log2_spec (Zpos m) ltac:(lia)) as [Hl1 Hl2].
  pose proof (Z.log2_nonneg (Zpos m)) as Hl0.
  set (l := Z.log2 (Zpos m)) in *.
  assert (H2 : 0 < 2) by lia.
  pose proof (powerRZ_pos 2 e H2) as He.
  replace (l + e + 1) with (Z.succ l + e) by lia.
  rewrite !powerRZ_sum by lia.
  rewrite <- (IZR_pow_nonneg 2 l), <- (IZR_pow_nonneg 2 (Z.succ l)) by lia.
  apply IZR_le in Hl1. apply IZR_lt in Hl2.
  split; nra.
Qed.

Lemma exponent_spec (m : positive) (e b : Z) :
  2 <= b ->
  let a := Z.log2 (Zpos m) + e in
  let E := Ref.least_from (Z.to_nat (Z.abs a + 2)) (Z.min a 0)
                          (Ref.lt_pow (Zpos m) e b) in
  (powerRZ (IZR b) (E - 1) <= IZR (Zpos m) * powerRZ 2 e < powerRZ (IZR b) E)%R.
Proof.
  intros Hb a E.
  assert (Hb0 : 0 < b) by lia. assert (Hb1 : 1 <= b) by lia.
  assert (H21 : 1 <= 2) by lia.
  pose proof (value_between_powers m e) as [Hv1 Hv2]. fold a in Hv1, Hv2.
  set (v := (IZR (Zpos m) * powerRZ 2 e)%R) in *.
  set (t := if 0 <=? a then a + 1 else - a).
  assert (Hok : Ref.lt_pow (Zpos m) e b (Z.min a 0 + t) = true).
  { apply lt_pow_R; [exact Hb0 | ]. fold v. unfold t.
    destruct (Z.leb_spec 0 a) as [Ha | Ha].
    - rewrite Z.min_r by lia. cbn [Z.add].
      pose proof (base_pow_ge b (a + 1) Hb ltac:(lia)). lra.
    - rewrite Z.min_l by lia. replace (a + - a) with 0 by lia.
      pose proof (powerRZ_mono 2 (a + 1) 0 H21 ltac:(lia)) as Hm.
      cbn [powerRZ] in Hm |- *. lra. }
  destruct (least_from_spec (Ref.lt_pow (Zpos m) e b)
              (Z.to_nat (Z.abs a + 2)) (Z.min a 0) t) as [H1 [H2 H3]].
  { unfold t. destruct (Z.leb_spec 0 a); lia. }
  { exact Hok. }
  fold E in H1, H2, H3.
  apply lt_pow_R in H1; [ | exact Hb0]. fold v in H1.
  split; [ | exact H1].
  destruct (Z.eq_dec E (Z.min a 0)) as [HE | HE].
  - rewrite HE. destruct (Z.leb_spec 0 a) as [Ha | Ha].
    + rewrite Z.min_r by lia.
      pose proof (powerRZ_mono b (0 - 1) 0 Hb1 ltac:(lia)) as Hm1.
      pose proof (powerRZ_mono 2 0 a H21 Ha) as Hm2.
      cbn [powerRZ] in Hm1, Hm2. cbn [Z.sub Z.add Z.opp Z.pos_sub].
      change (powerRZ (IZR b) (0 - 1)) with (powerRZ (IZR b) (-1)) in Hm1. lra.
    + rewrite Z.min_l by lia.
      pose proof (base_pow_le b (a - 1) Hb ltac:(lia)) as Hm1.
      pose proof (powerRZ_mono 2 (a - 1) a H21 ltac:(lia)) as Hm2. lra.
  - assert (Hf : Ref.lt_pow (Zpos m) e b (E - 1) = false) by (apply H3; lia).
    destruct (Rle_or_lt (powerRZ (IZR b) (E - 1)) v) as [ | Hlt]; [assumption | ].
    exfalso. apply (lt_pow_R (Zpos m) e b (E - 1) Hb0) in Hlt. congruence.
Qed.

(** ** The number of digits *)

Lemma ceil_log_ratio_spec (p b : Z) :
  0 <= p -> 2 <= b ->
  0 <= Ref.ceil_log_ratio p b <= p /\ 2 ^ p <= b ^ Ref.ceil_log_ratio p b.
Proof.
  intros Hp Hb. unfold Ref.ceil_log_ratio.
  destruct (least_from_spec (fun k => 2 ^ p <=? b ^ k) (Z.to_nat p) 0 p)
    as [H1 [H2 _]].
  - lia.
  - apply Z.leb_le. cbn [Z.add]. apply Z.pow_le_mono_l. lia.
  - apply Z.leb_le in H1. split; [lia | exact H1].
Qed.

(** ** The digits of a regular number *)

(** Rounding a quotient to the nearest integer. *)
Lemma nearest_integer (neg : bool) (num den : Z) :
  0 < den ->
  let q := num / den in
  let D := if Ref.round_up MPFR_RNDN neg q (num mod den) den then q + 1 else q in
  2 * Z.abs (D * den - num) <= den
  /\ (num mod den = 0 -> D = q).
Proof.
  intros Hden q D.
  pose proof (Z.div_mod num den ltac:(lia)) as Hdm.
  pose proof (Z.mod_pos_bound num den Hden) as Hr.
  fold q in Hdm. set (rem := num mod den) in *.
  unfold D, Ref.round_up. split.
  - destruct (Z.ltb_spec den (2 * rem)) as [H1 | H1]; cbn [orb].
    + rewrite Z.abs_eq by nia. nia.
    + destruct (Z.eqb_spec (2 * rem) den) as [H2 | H2]; cbn [andb].
      * destruct (Z.odd q).
        -- rewrite Z.abs_eq by nia. nia.
        -- rewrite Z.abs_neq by nia. nia.
      * rewrite Z.abs_neq by nia. nia.
  - intros H0. rewrite H0.
    destruct (Z.ltb_spec den (2 * 0)) as [H1 | H1]; [lia | ].
    destruct (Z.eqb_spec (2 * 0) den) as [H2 | H2]; [lia | ]. reflexivity.
Qed.

(** In a base that is a power of two the quotient is an integer as soon as it
    has as many bits as the significand. *)
Lemma pow2_base_exact (b K p m e N E : Z) :
  2 <= b -> 2 ^ Z.log2 b = b -> 0 <= K -> N = 1 + K ->
  2 ^ (p - 1) <= b ^ K -> 0 < m < 2 ^ p -> 0 < p ->
  let num := m * 2 ^ Z.max e 0 * b ^ Z.max (N - E) 0 in
  let den := 2 ^ Z.max (- e) 0 * b ^ Z.max (E - N) 0 in
  b ^ (N - 1) * den <= num -> num mod den = 0.
Proof.
  intros Hb Hpow HK HN HKp Hm Hp num den Hnlo.
  pose proof (Z.log2_nonneg b) as Hj0.
  remember (Z.log2 b) as j eqn:Hj. clear Hj.
  assert (Hden2 : den = 2 ^ (Z.max (- e) 0 + j * Z.max (E - N) 0)).
  { unfold den. rewrite <- Hpow.
    rewrite <- Z.pow_mul_r by lia.
    rewrite <- Z.pow_add_r; [reflexivity | lia | ].
    apply Z.mul_nonneg_nonneg; lia. }
  assert (Hnum2 : num = m * 2 ^ (Z.max e 0 + j * Z.max (N - E) 0)).
  { unfold num. rewrite <- Hpow.
    rewrite <- Z.pow_mul_r by lia. rewrite <- Z.mul_assoc.
    rewrite <- Z.pow_add_r; [reflexivity | lia | ].
    apply Z.mul_nonneg_nonneg; lia. }
  clearbody num den.
  assert (Hs0 : 0 <= Z.max e 0 + j * Z.max (N - E) 0).
  { apply Z.add_nonneg_nonneg; [lia | ]. apply Z.mul_nonneg_nonneg; lia. }
  assert (Ht0 : 0 <= Z.max (- e) 0 + j * Z.max (E - N) 0).
  { apply Z.add_nonneg_nonneg; [lia | ]. apply Z.mul_nonneg_nonneg; lia. }
  remember (Z.max e 0 + j * Z.max (N - E) 0) as s eqn:Hs. clear Hs.
  remember (Z.max (- e) 0 + j * Z.max (E - N) 0) as t eqn:Ht. clear Ht.
  assert (Hts : t <= s).
  { assert (Hq : 2 ^ (p - 1 + t) < 2 ^ (p + s)).
    { rewrite !Z.pow_add_r by lia.
      assert (0 < 2 ^ t) by (apply Z.pow_pos_nonneg; lia).
      assert (0 < 2 ^ s) by (apply Z.pow_pos_nonneg; lia).
      replace (N - 1) with K in Hnlo by lia.
      rewrite Hnum2, Hden2 in Hnlo.
      apply Z.le_lt_trans with (b ^ K * 2 ^ t).
      - apply Z.mul_le_mono_nonneg_r; [lia | exact HKp].
      - apply Z.le_lt_trans with (m * 2 ^ s); [exact Hnlo | ].
        apply Z.mul_lt_mono_pos_r; [assumption | apply Hm]. }
    apply pow2_lt_inv in Hq; lia. }
  rewrite Hnum2, Hden2.
  replace s with ((s - t) + t) by lia.
  rewrite Z.pow_add_r by lia. rewrite Z.mul_assoc.
  apply Z.mod_mul. apply Z.pow_nonzero; lia.
Qed.

Lemma get_digits_spec (b : Z) (p : positive) (neg : bool) (m : positive) (e : Z) :
  2 <= b ->
  Zpos m < 2 ^ Zpos p ->
  let N := Ref.get_str_ndigits b (Zpos p) in
  let DE := Ref.get_digits b N MPFR_RNDN neg m e in
  1 <= N <= Zpos p + 1
  /\ b ^ (N - 1) <= fst DE < b ^ N
  /\ (powerRZ 2 (Zpos p + 1)
      * Rabs (IZR (fst DE) * powerRZ (IZR b) (snd DE - N)
              - IZR (Zpos m) * powerRZ 2 e)
      <= IZR (Zpos m) * powerRZ 2 e)%R.
Proof.
  intros Hb Hm N DE.
  assert (Hb0 : 0 < b) by lia. assert (Hb1 : 1 <= b) by lia.
  assert (H20 : 0 < 2) by lia.
  (* the number of digits *)
  set (p' := if 2 ^ Z.log2 b =? b then Zpos p - 1 else Zpos p).
  assert (Hp' : 0 <= p' <= Zpos p) by (unfold p'; destruct (_ =? _); lia).
  destruct (ceil_log_ratio_spec p' b (proj1 Hp') Hb) as [HK HKp].
  assert (HN : N = 1 + Ref.ceil_log_ratio p' b) by reflexivity.
  set (K := Ref.ceil_log_ratio p' b) in *.
  assert (Hp2 : 2 ^ Z.log2 b = b -> p' = Zpos p - 1).
  { intros H. unfold p'. destruct (Z.eqb_spec (2 ^ Z.log2 b) b);
      [reflexivity | contradiction]. }
  assert (Hpn : 2 ^ Z.log2 b <> b -> p' = Zpos p).
  { intros H. unfold p'. destruct (Z.eqb_spec (2 ^ Z.log2 b) b);
      [contradiction | reflexivity]. }
  (* the exponent *)
  unfold DE, Ref.get_digits. clear DE. clearbody N K p'.
  pose proof (exponent_spec m e b Hb) as HE. cbv zeta in HE.
  set (E := Ref.least_from _ _ _) in *.
  destruct HE as [HE1 HE2]. clearbody E.
  set (v := (IZR (Zpos m) * powerRZ 2 e)%R) in *.
  assert (Hv : (0 < v)%R).
  { unfold v. apply Rmult_lt_0_compat; [apply IZR_lt; lia | apply powerRZ_pos; lia]. }
  (* the quotient *)
  set (num := Zpos m * 2 ^ Z.max e 0 * b ^ Z.max (N - E) 0).
  set (den := 2 ^ Z.max (- e) 0 * b ^ Z.max (E - N) 0).
  assert (Hden : 0 < den).
  { unfold den. apply Z.mul_pos_pos; apply Z.pow_pos_nonneg; lia. }
  set (y := (v * powerRZ (IZR b) (N - E))%R).
  assert (Hy : IZR num = (y * IZR den)%R).
  { unfold num, den, y, v. rewrite !mult_IZR.
    rewrite (pow_split 2 e H20), (pow_split b (N - E) Hb0).
    replace (- (N - E)) with (E - N) by lia. ring. }
  assert (HbNE : (powerRZ (IZR b) (N - E) * powerRZ (IZR b) (E - N) = 1)%R).
  { replace (E - N) with (- (N - E)) by lia. apply powerRZ_inv. exact Hb0. }
  pose proof (powerRZ_pos b (N - E) Hb0) as HpNE.
  pose proof (powerRZ_pos b (E - N) Hb0) as HpEN.
  assert (Hylo : (powerRZ (IZR b) (N - 1) <= y)%R).
  { replace (N - 1) with ((E - 1) + (N - E)) by lia.
    rewrite powerRZ_sum by exact Hb0. unfold y. nra. }
  assert (Hyhi : (y < powerRZ (IZR b) N)%R).
  { assert (Hs : powerRZ (IZR b) N
                 = (powerRZ (IZR b) E * powerRZ (IZR b) (N - E))%R).
    { rewrite <- powerRZ_sum by exact Hb0. f_equal. lia. }
    rewrite Hs. unfold y. nra. }
  assert (Hdr : (0 < IZR den)%R) by (apply IZR_lt; exact Hden).
  assert (Hnlo : b ^ (N - 1) * den <= num).
  { apply le_IZR. rewrite mult_IZR, Hy, IZR_pow_nonneg by lia. nra. }
  assert (Hnhi : num < b ^ N * den).
  { apply lt_IZR. rewrite mult_IZR, Hy, IZR_pow_nonneg by lia. nra. }
  assert (Hqlo : b ^ (N - 1) <= num / den).
  { apply Z.div_le_lower_bound; [exact Hden | lia]. }
  assert (Hqhi : num / den < b ^ N).
  { apply Z.div_lt_upper_bound; [exact Hden | lia]. }
  destruct (nearest_integer neg num den Hden) as [Hnear Hexact].
  cbv zeta in Hnear, Hexact.
  set (Db := if Ref.round_up MPFR_RNDN neg (num / den) (num mod den) den
             then num / den + 1 else num / den) in *.
  assert (HDb : b ^ (N - 1) <= Db <= b ^ N).
  { unfold Db. clear - Hqlo Hqhi. destruct (Ref.round_up _ _ _ _ _); lia. }
  clearbody Db.
  assert (HbN : b ^ N = b * b ^ (N - 1)).
  { replace N with (Z.succ (N - 1)) at 1 by (clear; lia).
    apply Z.pow_succ_r. clear - HN HK. lia. }
  assert (HbN1 : 0 < b ^ (N - 1)).
  { apply Z.pow_pos_nonneg; [exact Hb0 | clear - HN HK; lia]. }
  (* the distance between the digits and the quotient *)
  assert (Hhalf : (2 * Rabs (IZR Db - y) <= 1)%R).
  { apply IZR_le in Hnear.
    rewrite mult_IZR, abs_IZR, minus_IZR, mult_IZR, Hy in Hnear.
    replace (IZR Db * IZR den - y * IZR den)%R
      with ((IZR Db - y) * IZR den)%R in Hnear by ring.
    rewrite Rabs_mult, (Rabs_pos_eq (IZR den)) in Hnear by lra.
    assert (H : (2 * Rabs (IZR Db - y) * IZR den <= 1 * IZR den)%R) by lra.
    apply Rmult_le_reg_r in H; assumption. }
  (* the error of the text *)
  assert (Herr : (powerRZ 2 (Zpos p + 1)
                  * Rabs (IZR Db * powerRZ (IZR b) (E - N) - v) <= v)%R).
  { replace (IZR Db * powerRZ (IZR b) (E - N) - v)%R
      with ((IZR Db - y) * powerRZ (IZR b) (E - N))%R.
    2:{ unfold y.
        transitivity (IZR Db * powerRZ (IZR b) (E - N)
                      - v * (powerRZ (IZR b) (N - E) * powerRZ (IZR b) (E - N)))%R;
          [ring | rewrite HbNE; ring]. }
    rewrite Rabs_mult, (Rabs_pos_eq (powerRZ (IZR b) (E - N))) by lra.
    destruct (Z.eqb_spec (2 ^ Z.log2 b) b) as [Hpow | Hpow].
    - (* a base that is a power of two: the digits are exact *)
      assert (Hrem : num mod den = 0).
      { rewrite (Hp2 Hpow) in HKp.
        apply (pow2_base_exact b K (Zpos p) (Zpos m) e N E); try assumption; lia. }
      specialize (Hexact Hrem).
      assert (HDy : IZR Db = y).
      { pose proof (Z.div_mod num den ltac:(lia)) as Hdm.
        rewrite Hrem, Z.add_0_r in Hdm. rewrite <- Hexact in Hdm.
        apply (f_equal IZR) in Hdm. rewrite mult_IZR, Hy in Hdm. nra. }
      rewrite HDy, Rminus_diag, Rabs_R0. lra.
    - (* any other base: enough digits *)
      pose proof (Hpn Hpow) as Hp''.
      assert (HKR : (powerRZ 2 (Zpos p) <= powerRZ (IZR b) (N - 1))%R).
      { rewrite <- !IZR_pow_nonneg by (clear - HN HK; lia). apply IZR_le.
        replace (N - 1) with K by (clear - HN; lia).
        rewrite <- Hp''. exact HKp. }
      assert (HE1' : (powerRZ (IZR b) (N - 1) * powerRZ (IZR b) (E - N) <= v)%R).
      { rewrite <- powerRZ_sum by exact Hb0.
        replace (N - 1 + (E - N)) with (E - 1) by lia. exact HE1. }
      replace (Zpos p + 1) with (1 + Zpos p) by lia.
      rewrite powerRZ_sum by lia. change (powerRZ 2 1) with (2 * 1)%R.
      pose proof (powerRZ_pos 2 (Zpos p) H20) as H2p.
      pose proof (Rabs_pos (IZR Db - y)) as Ha0.
      apply Rle_trans with (powerRZ 2 (Zpos p) * powerRZ (IZR b) (E - N))%R.
      2:{ apply Rle_trans with (powerRZ (IZR b) (N - 1) * powerRZ (IZR b) (E - N))%R;
            [ | exact HE1'].
          apply Rmult_le_compat_r; [apply Rlt_le; exact HpEN | exact HKR]. }
      replace (2 * 1 * powerRZ 2 (Z.pos p) *
               (Rabs (IZR Db - y) * powerRZ (IZR b) (E - N)))%R
        with ((powerRZ 2 (Zpos p) * powerRZ (IZR b) (E - N))
              * (2 * Rabs (IZR Db - y)))%R by ring.
      assert (HX : (0 < powerRZ 2 (Zpos p) * powerRZ (IZR b) (E - N))%R)
        by (apply Rmult_lt_0_compat; assumption).
      rewrite <- (Rmult_1_r (powerRZ 2 (Zpos p) * powerRZ (IZR b) (E - N))) at 2.
      apply Rmult_le_compat_l; [apply Rlt_le; exact HX | exact Hhalf]. }
  (* the digits that round up to b^N *)
  split; [clear - HN HK Hp'; lia | ].
  destruct (Z.eqb_spec Db (b ^ N)) as [Htop | Htop]; cbn [fst snd].
  - split.
    { assert (H1 : 1 * b ^ (N - 1) < b * b ^ (N - 1))
        by (apply Z.mul_lt_mono_pos_r; [exact HbN1 | clear - Hb; lia]).
      clear - H1 HbN. lia. }
    replace (IZR (b ^ (N - 1)) * powerRZ (IZR b) (E + 1 - N))%R
      with (IZR Db * powerRZ (IZR b) (E - N))%R; [exact Herr | ].
    rewrite Htop, !IZR_pow_nonneg by (clear - HN HK; lia).
    rewrite <- !powerRZ_sum by exact Hb0. f_equal. clear. lia.
  - split; [clear - HDb Htop; lia | exact Herr].
Qed.

(** ** Reading the digits back *)

Lemma size_bounds (m : positive) :
  2 ^ (Zpos (Pos.size m) - 1) <= Zpos m < 2 ^ Zpos (Pos.size m).
Proof.
  pose proof (Pos.size_gt m) as Hgt. pose proof (Pos.size_le m) as Hle.
  apply Pos2Z.pos_lt_pos in Hgt. apply Pos2Z.pos_le_pos in Hle.
  rewrite Pos2Z.inj_pow in Hgt, Hle.
  replace (Zpos (Pos.size m)) with (Z.succ (Zpos (Pos.size m) - 1)) in Hle by lia.
  rewrite Z.pow_succ_r in Hle by lia.
  change (Zpos m~0) with (2 * Zpos m) in Hle. lia.
Qed.

Lemma mk_num_odd (neg : bool) (m : positive) (e : Z) :
  match m with xO _ => false | _ => true end = true ->
  Ref.mk_num neg (Zpos m) e = Ref.Num neg m e.
Proof. destruct m; [reflexivity | discriminate | reflexivity]. Qed.

(** Reading the digits of a regular number gives the number back. *)
Lemma read_value_get_digits (b : Z) (p : positive) (neg : bool) (m : positive) (e : Z) :
  2 <= b ->
  match m with xO _ => false | _ => true end = true ->
  Zpos (Pos.size m) <= Zpos p ->
  let N := Ref.get_str_ndigits b (Zpos p) in
  let DE := Ref.get_digits b N MPFR_RNDN neg m e in
  Ref.read_value (Zpos p) MPFR_RNDN neg (fst DE) (snd DE - N) b = Ref.Num neg m e.
Proof.
  intros Hb Hodd Hsize N DE.
  pose proof (size_bounds m) as [Hlo Hhi].
  assert (Hm : Zpos m < 2 ^ Zpos p).
  { apply Z.lt_le_trans with (2 ^ Zpos (Pos.size m)); [exact Hhi | ].
    apply Z.pow_le_mono_r; lia. }
  destruct (get_digits_spec b p neg m e Hb Hm) as (HN & HD & Herr).
  fold N DE in HN, HD, Herr.
  set (D := fst DE) in *. set (k := snd DE - N) in *. clearbody D k N. clear DE.
  assert (Hb0 : 0 < b) by lia.
  assert (HD0 : 0 < D).
  { apply Z.lt_le_trans with (b ^ (N - 1)); [ | apply HD].
    apply Z.pow_pos_nonneg; lia. }
  (* the significand at full width *)
  set (s := Zpos p - Zpos (Pos.size m)).
  assert (Hs : 0 <= s) by (unfold s; lia).
  set (M := Zpos m * 2 ^ s).
  assert (HM : 2 ^ (Zpos p - 1) <= M < 2 ^ Zpos p).
  { unfold M.
    assert (H1 : 2 ^ (Zpos p - 1) = 2 ^ (Zpos (Pos.size m) - 1) * 2 ^ s).
    { rewrite <- Z.pow_add_r by lia. f_equal. unfold s. lia. }
    assert (H2 : 2 ^ Zpos p = 2 ^ Zpos (Pos.size m) * 2 ^ s).
    { rewrite <- Z.pow_add_r by lia. f_equal. unfold s. lia. }
    rewrite H1, H2.
    assert (0 < 2 ^ s) by (apply Z.pow_pos_nonneg; lia).
    split.
    - apply Z.mul_le_mono_nonneg_r; [lia | exact Hlo].
    - apply Z.mul_lt_mono_pos_r; [assumption | exact Hhi]. }
  assert (HMR : (IZR M * powerRZ 2 (e - s) = IZR (Zpos m) * powerRZ 2 e)%R).
  { unfold M. rewrite mult_IZR, IZR_pow_nonneg by exact Hs.
    rewrite Rmult_assoc, <- powerRZ_sum by lia.
    replace (s + (e - s)) with e by lia. reflexivity. }
  assert (Hres : Ref.mk_num neg M (e - s) = Ref.Num neg m e).
  { unfold M. rewrite <- (Z2Nat.id s Hs), mk_num_shift.
    replace (e - Z.of_nat (Z.to_nat s) + Z.of_nat (Z.to_nat s)) with e by lia.
    apply mk_num_odd. exact Hodd. }
  unfold Ref.read_value.
  destruct (Z.eqb_spec D 0) as [H0 | _]; [lia | ].
  rewrite <- Hres.
  destruct (Z.leb_spec 0 k) as [Hk | Hk].
  - apply round_nearest_R; [ | lia | exact HM | ].
    + apply Z.mul_pos_pos; [exact HD0 | apply Z.pow_pos_nonneg; lia].
    + rewrite HMR, mult_IZR, IZR_pow_nonneg by exact Hk.
      replace (IZR D * powerRZ (IZR b) k / 1)%R
        with (IZR D * powerRZ (IZR b) k)%R by field.
      exact Herr.
  - assert (Hd : 0 < b ^ (- k)) by (apply Z.pow_pos_nonneg; lia).
    apply round_nearest_R; [exact HD0 | exact Hd | exact HM | ].
    rewrite HMR, IZR_pow_nonneg by lia.
    replace (IZR D / powerRZ (IZR b) (- k))%R
      with (IZR D * powerRZ (IZR b) k)%R; [exact Herr | ].
    pose proof (powerRZ_inv b k Hb0) as Hinv.
    pose proof (powerRZ_pos b (- k) Hb0) as Hpos.
    field_simplify_eq; [ | lra].
    rewrite Rmult_assoc, Hinv. ring.
Qed.

(** ** Digits as characters *)

Lemma code_of_char (n : Z) :
  0 <= n < 256 -> Z.of_N (N_of_ascii (ascii_of_N (Z.to_N n))) = n.
Proof.
  intros H. rewrite N_ascii_embedding by lia. apply Z2N.id. lia.
Qed.

Lemma digit_value_char (b d : Z) :
  2 <= b <= 62 -> 0 <= d < b -> Ref.digit_value b (Ref.digit_char b d) = Some d.
Proof.
  intros Hb Hd. unfold Ref.digit_value, Ref.digit_char.
  assert (Hlt : (d <? b) = true) by (apply Z.ltb_lt; lia).
  destruct (Z.ltb_spec d 10) as [H10 | H10].
  - rewrite code_of_char by lia.
    replace ((48 <=? 48 + d) && (48 + d <=? 57)) with true
      by (symmetry; apply andb_true_intro; split; apply Z.leb_le; lia).
    replace (48 + d - 48) with d by lia. rewrite Hlt. reflexivity.
  - destruct (Z.leb_spec b 36) as [H36 | H36].
    + rewrite code_of_char by lia.
      replace ((48 <=? 87 + d) && (87 + d <=? 57)) with false
        by (symmetry; apply andb_false_intro2; apply Z.leb_gt; lia).
      replace ((65 <=? 87 + d) && (87 + d <=? 90)) with false
        by (symmetry; apply andb_false_intro2; apply Z.leb_gt; lia).
      replace ((97 <=? 87 + d) && (87 + d <=? 122)) with true
        by (symmetry; apply andb_true_intro; split; apply Z.leb_le; lia).
      replace (87 + d - 87) with d by lia. rewrite Hlt. reflexivity.
    + destruct (Z.ltb_spec d 36) as [Hd36 | Hd36].
      * rewrite code_of_char by lia.
        replace ((48 <=? 55 + d) && (55 + d <=? 57)) with false
          by (symmetry; apply andb_false_intro2; apply Z.leb_gt; lia).
        replace ((65 <=? 55 + d) && (55 + d <=? 90)) with true
          by (symmetry; apply andb_true_intro; split; apply Z.leb_le; lia).
        replace (55 + d - 55) with d by lia. rewrite Hlt. reflexivity.
      * rewrite code_of_char by lia.
        replace ((48 <=? 61 + d) && (61 + d <=? 57)) with false
          by (symmetry; apply andb_false_intro2; apply Z.leb_gt; lia).
        replace ((65 <=? 61 + d) && (61 + d <=? 90)) with false
          by (symmetry; apply andb_false_intro2; apply Z.leb_gt; lia).
        replace ((97 <=? 61 + d) && (61 + d <=? 122)) with true
          by (symmetry; apply andb_true_intro; split; apply Z.leb_le; lia).
        replace (61 + d - 61) with d by lia. rewrite Hlt. reflexivity.
Qed.

(** A digit is a letter or a figure. *)
Lemma digit_code (b : Z) (c : ascii) (d : Z) :
  Ref.digit_value b c = Some d ->
  48 <= Z.of_N (N_of_ascii c) <= 57
  \/ 65 <= Z.of_N (N_of_ascii c) <= 90
  \/ 97 <= Z.of_N (N_of_ascii c) <= 122.
Proof.
  unfold Ref.digit_value. cbv zeta.
  set (n := Z.of_N (N_of_ascii c)). intros H.
  destruct (Z.leb_spec 48 n), (Z.leb_spec n 57); try lia;
    destruct (Z.leb_spec 65 n), (Z.leb_spec n 90); try lia;
    destruct (Z.leb_spec 97 n), (Z.leb_spec n 122); try lia;
    cbn [andb] in H; discriminate.
Qed.

Lemma digit_not (b : Z) (c c' : ascii) (d : Z) :
  Ref.digit_value b c = Some d ->
  Ref.digit_value b c' = None ->
  Ascii.eqb c c' = false.
Proof.
  intros H H'. destruct (Ascii.eqb_spec c c') as [E | E]; [ | reflexivity].
  subst c'. congruence.
Qed.

Lemma digit_not_space (b : Z) (c : ascii) (d : Z) :
  Ref.digit_value b c = Some d -> Ref.is_space c = false.
Proof.
  intros H. apply digit_code in H. unfold Ref.is_space. cbv zeta.
  set (n := Z.of_N (N_of_ascii c)) in *.
  apply orb_false_intro.
  - apply Z.eqb_neq. lia.
  - destruct (Z.leb_spec 9 n), (Z.leb_spec n 13); try reflexivity; lia.
Qed.

Lemma read_sign_other (c : ascii) (l : list ascii) :
  Ascii.eqb c "-" = false -> Ascii.eqb c "+" = false ->
  Ref.read_sign (c :: l) = (false, c :: l).
Proof.
  destruct c as [[] [] [] [] [] [] [] []]; intros H1 H2;
    first [reflexivity | discriminate H1 | discriminate H2].
Qed.

Lemma read_sign_digit (b : Z) (c : ascii) (d : Z) (l : list ascii) :
  Ref.digit_value b c = Some d -> Ref.read_sign (c :: l) = (false, c :: l).
Proof.
  intros H. apply read_sign_other; apply (digit_not b c _ d H); reflexivity.
Qed.

(** ** The digits of an integer *)

Lemma digits_of_length (b : Z) (n : nat) :
  forall D acc, List.length (Ref.digits_of b n D acc) = (n + List.length acc)%nat.
Proof.
  induction n as [ | n IH]; intros D acc; cbn [Ref.digits_of].
  - reflexivity.
  - rewrite IH. cbn [List.length]. lia.
Qed.

(** The first digit and the others. *)
Lemma digits_of_head (b : Z) (n : nat) :
  0 < b ->
  forall D acc,
    0 <= D < b ^ Z.of_nat (S n) ->
    Ref.digits_of b (S n) D acc
    = Ref.digit_char b (D / b ^ Z.of_nat n)
        :: Ref.digits_of b n (D mod b ^ Z.of_nat n) acc.
Proof.
  intros Hb. induction n as [ | n IH]; intros D acc HD.
  - cbn [Ref.digits_of Z.of_nat]. rewrite Z.pow_0_r, Z.div_1_r.
    change (Z.of_nat 1) with 1 in HD. rewrite Z.pow_1_r in HD.
    rewrite Z.mod_small by exact HD. reflexivity.
  - assert (Hp : 0 < b ^ Z.of_nat n) by (apply Z.pow_pos_nonneg; lia).
    assert (Hs : b ^ Z.of_nat (S n) = b * b ^ Z.of_nat n).
    { rewrite Nat2Z.inj_succ. apply Z.pow_succ_r. lia. }
    assert (Hss : b ^ Z.of_nat (S (S n)) = b * b ^ Z.of_nat (S n)).
    { rewrite (Nat2Z.inj_succ (S n)). apply Z.pow_succ_r. lia. }
    pose proof (Z.div_mod D b ltac:(lia)) as HDb.
    pose proof (Z.mod_pos_bound D b Hb) as Hr.
    set (q := D / b) in *. set (r := D mod b) in *.
    assert (Hq : 0 <= q < b ^ Z.of_nat (S n)) by nia.
    pose proof (Z.div_mod q (b ^ Z.of_nat n) ltac:(lia)) as Hqn.
    pose proof (Z.mod_pos_bound q (b ^ Z.of_nat n) Hp) as Ht.
    set (h := q / b ^ Z.of_nat n) in *. set (t := q mod b ^ Z.of_nat n) in *.
    change (Ref.digits_of b (S (S n)) D acc)
      with (Ref.digits_of b (S n) q (Ref.digit_char b r :: acc)).
    rewrite (IH q _ Hq). fold h t.
    assert (Hsn : 0 < b ^ Z.of_nat (S n)) by (rewrite Hs; nia).
    destruct (div_mod_unique D (b ^ Z.of_nat (S n)) h (b * t + r)) as [E1 E2].
    { rewrite Hs. nia. }
    { rewrite Hs. nia. }
    rewrite E1, E2.
    destruct (div_mod_unique (b * t + r) b t r) as [E3 E4]; [lia | lia | ].
    cbn [Ref.digits_of]. rewrite E3, E4. reflexivity.
Qed.

(** Reading digits gives their number back. *)
Lemma read_digits_digits_of (b : Z) (tl : list ascii) :
  2 <= b <= 62 ->
  forall (n : nat) (D : Z) (acc : list ascii) (a c : Z),
    0 <= D < b ^ Z.of_nat n ->
    Ref.read_digits b (Ref.digits_of b n D acc ++ tl)%list a c
    = Ref.read_digits b (acc ++ tl)%list (a * b ^ Z.of_nat n + D) (c + Z.of_nat n).
Proof.
  intros Hb. induction n as [ | n IH]; intros D acc a c HD.
  - cbn [Ref.digits_of Z.of_nat] in *. rewrite Z.pow_0_r in *.
    replace D with 0 by lia. f_equal; lia.
  - assert (Hs : b ^ Z.of_nat (S n) = b * b ^ Z.of_nat n).
    { rewrite Nat2Z.inj_succ. apply Z.pow_succ_r. lia. }
    assert (Hp : 0 < b ^ Z.of_nat n) by (apply Z.pow_pos_nonneg; lia).
    pose proof (Z.div_mod D b ltac:(lia)) as HDb.
    pose proof (Z.mod_pos_bound D b ltac:(lia)) as Hr.
    cbn [Ref.digits_of].
    set (q := D / b) in *. set (r := D mod b) in *.
    assert (Hq : 0 <= q < b ^ Z.of_nat n) by nia.
    rewrite (IH q _ a c Hq).
    cbn [app Ref.read_digits].
    rewrite (digit_value_char b r Hb Hr).
    f_equal; [ rewrite Hs; nia | lia ].
Qed.

(** ** Integers in decimal *)

Lemma read_uint_acc (d : Decimal.uint) :
  forall (acc : positive) (c : Z),
    Ref.read_digits 10 (list_ascii_of_string (NilEmpty.string_of_uint d)) (Zpos acc) c
    = (Zpos (Pos.of_uint_acc d acc), c + Z.of_nat (Decimal.nb_digits d), []).
Proof.
  induction d as [ | d IHd | d IHd | d IHd | d IHd | d IHd | d IHd | d IHd | d IHd | d IHd | d IHd ];
    intros acc c;
    cbn [NilEmpty.string_of_uint list_ascii_of_string Ref.read_digits
         Pos.of_uint_acc Decimal.nb_digits];
    try (change (Z.of_nat 0) with 0; rewrite Z.add_0_r; reflexivity).
  all: match goal with
       | |- context [Ref.digit_value 10 ?ch] =>
           let v := eval vm_compute in (Ref.digit_value 10 ch) in
           change (Ref.digit_value 10 ch) with v
       end; cbv iota.
  all: match goal with
       | |- Ref.read_digits 10 _ ?x _ = _ =>
           match goal with
           | |- context [Pos.of_uint_acc _ ?y] =>
               replace x with (Zpos y) by lia
           end
       end.
  all: rewrite IHd; f_equal; f_equal; lia.
Qed.

Lemma read_uint (d : Decimal.uint) :
  forall c : Z,
    Ref.read_digits 10 (list_ascii_of_string (NilEmpty.string_of_uint d)) 0 c
    = (Z.of_N (Pos.of_uint d), c + Z.of_nat (Decimal.nb_digits d), []).
Proof.
  induction d as [ | d IHd | d IHd | d IHd | d IHd | d IHd | d IHd | d IHd | d IHd | d IHd | d IHd ];
    intros c;
    cbn [NilEmpty.string_of_uint list_ascii_of_string Ref.read_digits
         Pos.of_uint Decimal.nb_digits];
    try (change (Z.of_nat 0) with 0; rewrite Z.add_0_r; reflexivity).
  all: match goal with
       | |- context [Ref.digit_value 10 ?ch] =>
           let v := eval vm_compute in (Ref.digit_value 10 ch) in
           change (Ref.digit_value 10 ch) with v
       end; cbv iota.
  - change (0 * 10 + 0) with 0. rewrite IHd. f_equal; f_equal; lia.
  - change (0 * 10 + 1) with (Zpos 1). rewrite read_uint_acc. f_equal; f_equal; lia.
  - change (0 * 10 + 2) with (Zpos 2). rewrite read_uint_acc. f_equal; f_equal; lia.
  - change (0 * 10 + 3) with (Zpos 3). rewrite read_uint_acc. f_equal; f_equal; lia.
  - change (0 * 10 + 4) with (Zpos 4). rewrite read_uint_acc. f_equal; f_equal; lia.
  - change (0 * 10 + 5) with (Zpos 5). rewrite read_uint_acc. f_equal; f_equal; lia.
  - change (0 * 10 + 6) with (Zpos 6). rewrite read_uint_acc. f_equal; f_equal; lia.
  - change (0 * 10 + 7) with (Zpos 7). rewrite read_uint_acc. f_equal; f_equal; lia.
  - change (0 * 10 + 8) with (Zpos 8). rewrite read_uint_acc. f_equal; f_equal; lia.
  - change (0 * 10 + 9) with (Zpos 9). rewrite read_uint_acc. f_equal; f_equal; lia.
Qed.

Lemma uint_head (d : Decimal.uint) (l : list ascii) :
  d <> Decimal.Nil ->
  Ref.read_sign (list_ascii_of_string (NilEmpty.string_of_uint d) ++ l)%list
  = (false, (list_ascii_of_string (NilEmpty.string_of_uint d) ++ l)%list).
Proof.
  destruct d; intros H; [contradiction | reflexivity ..].
Qed.

(** The exponent written by the host is read back. *)
Lemma read_Integer2str (x : Z) :
  x <> 0 ->
  exists (neg : bool) (l : list ascii) (n cnt : Z),
    Ref.read_sign (list_ascii_of_string (lua_Integer2str x)) = (neg, l)
    /\ Ref.read_digits 10 l 0 0 = (n, cnt, [])
    /\ 0 < cnt
    /\ Ref.signed neg n = x.
Proof.
  intros Hx. unfold lua_Integer2str.
  assert (Hnb : forall p, 0 < Z.of_nat (Decimal.nb_digits (Pos.to_uint p))).
  { intros p. pose proof (Unsigned.to_uint_nonnil p) as H.
    destruct (Pos.to_uint p); [contradiction | cbn [Decimal.nb_digits]; lia ..]. }
  assert (Hstr : forall p, NilZero.string_of_uint (Pos.to_uint p)
                           = NilEmpty.string_of_uint (Pos.to_uint p)).
  { intros p. pose proof (Unsigned.to_uint_nonnil p) as H.
    destruct (Pos.to_uint p); [contradiction | reflexivity ..]. }
  destruct x as [ | p | p]; [contradiction | | ].
  - exists false, (list_ascii_of_string (NilEmpty.string_of_uint (Pos.to_uint p))),
      (Zpos p), (Z.of_nat (Decimal.nb_digits (Pos.to_uint p))).
    cbn [Z.to_int NilZero.string_of_int]. rewrite Hstr.
    split; [ | split; [ | split]].
    + pose proof (uint_head (Pos.to_uint p) [] (Unsigned.to_uint_nonnil p)) as H.
      rewrite !app_nil_r in H. exact H.
    + rewrite read_uint, DecimalPos.Unsigned.of_to. reflexivity.
    + apply Hnb.
    + reflexivity.
  - exists true, (list_ascii_of_string (NilEmpty.string_of_uint (Pos.to_uint p))),
      (Zpos p), (Z.of_nat (Decimal.nb_digits (Pos.to_uint p))).
    cbn [Z.to_int NilZero.string_of_int]. rewrite Hstr.
    split; [ | split; [ | split]].
    + reflexivity.
    + rewrite read_uint, DecimalPos.Unsigned.of_to. reflexivity.
    + apply Hnb.
    + reflexivity.
Qed.

Lemma ceil_log_ratio_least (p b k : Z) :
  0 <= p -> 2 <= b -> 0 <= k -> 2 ^ p <= b ^ k -> Ref.ceil_log_ratio p b <= k.
Proof.
  intros Hp Hb Hk H. unfold Ref.ceil_log_ratio.
  destruct (least_from_spec (fun k => 2 ^ p <=? b ^ k) (Z.to_nat p) 0 p)
    as [_ [H2 H3]].
  - lia.
  - apply Z.leb_le. cbn [Z.add]. apply Z.pow_le_mono_l. lia.
  - destruct (Z.le_gt_cases (Ref.least_from (Z.to_nat p) 0 (fun k => 2 ^ p <=? b ^ k)) k)
      as [ | Hgt]; [assumption | ].
    exfalso. specialize (H3 k ltac:(lia)). cbv beta in H3.
    apply Z.leb_gt in H3. lia.
Qed.

Lemma ceil_log_ratio_mono (p q b : Z) :
  0 <= p <= q -> 2 <= b -> Ref.ceil_log_ratio p b <= Ref.ceil_log_ratio q b.
Proof.
  intros Hp Hb.
  destruct (ceil_log_ratio_spec q b ltac:(lia) Hb) as [H1 H2].
  apply ceil_log_ratio_least; try lia.
  apply Z.le_trans with (2 ^ q); [ | exact H2].
  apply Z.pow_le_mono_r; lia.
Qed.

(** ** The characters of a text *)

Lemma list_ascii_of_string_app (s t : string) :
  list_ascii_of_string (s ++ t)
  = (list_ascii_of_string s ++ list_ascii_of_string t)%list.
Proof.
  induction s as [ | c s IH]; cbn; [reflexivity | rewrite IH; reflexivity].
Qed.

Lemma digits_of_nul_free (b : Z) (n : nat) :
  2 <= b <= 62 ->
  forall D acc, nul_free acc = true -> nul_free (Ref.digits_of b n D acc) = true.
Proof.
  intros Hb. induction n as [ | n IH]; intros D acc Hacc; cbn [Ref.digits_of].
  - exact Hacc.
  - apply IH. unfold nul_free in *. cbn [forallb]. rewrite Hacc, andb_true_r.
    apply negb_true_iff.
    apply (digit_not b _ NUL (D mod b)); [ | reflexivity].
    apply digit_value_char; [exact Hb | apply Z.mod_pos_bound; lia].
Qed.

Lemma mark_not_digit (b : Z) :
  2 <= b <= 62 ->
  Ref.digit_value b (if 10 <? b then "@"%char else "e"%char) = None.
Proof.
  intros Hb. destruct (Z.ltb_spec 10 b) as [H | H]; [reflexivity | ].
  unfold Ref.digit_value. cbn.
  destruct (Z.leb_spec b 36); [ | lia].
  destruct (Z.ltb_spec 14 b); [lia | reflexivity].
Qed.

Lemma mark_is_mark (b : Z) :
  Ref.is_exp_mark b (if 10 <? b then "@"%char else "e"%char) = true.
Proof.
  unfold Ref.is_exp_mark. destruct (Z.ltb_spec 10 b) as [H | H]; [reflexivity | ].
  destruct (Z.leb_spec b 10); [reflexivity | lia].
Qed.

Lemma read_digits_stop (b : Z) (x a c : Z) :
  2 <= b <= 62 ->
  Ref.read_digits b (exponent_chars b x) a c = (a, c, exponent_chars b x).
Proof.
  intros Hb. unfold exponent_chars. destruct (x =? 0); [reflexivity | ].
  cbn [Ref.read_digits]. rewrite (mark_not_digit b Hb). reflexivity.
Qed.

Lemma read_exponent_chars (b x : Z) :
  Ref.read_exponent b (exponent_chars b x) = (x, []).
Proof.
  unfold exponent_chars. destruct (Z.eqb_spec x 0) as [-> | Hx]; [reflexivity | ].
  cbn [Ref.read_exponent]. rewrite mark_is_mark.
  destruct (read_Integer2str x Hx) as (neg & l & n & cnt & H1 & H2 & H3 & H4).
  rewrite H1, H2.
  replace (0 <? cnt) with true by (symmetry; apply Z.ltb_lt; exact H3).
  rewrite H4. reflexivity.
Qed.

(** The characters of the text of a regular number. *)
Lemma layout_chars (neg : bool) (d1 : ascii) (rest : list ascii) (b e : Z) :
  list_ascii_of_string (layout neg d1 (string_of_list_ascii rest) b e)
  = ((if neg then ["-"%char] else [])
       ++ d1 :: "."%char :: rest ++ exponent_chars b (e - 1))%list.
Proof.
  unfold layout, exponent_chars.
  rewrite list_ascii_of_string_app.
  change (String d1 (String "." (string_of_list_ascii rest))
          ++ (if e - 1 =? 0 then ""
              else String (if 10 <? b then "@"%char else "e"%char)
                          (lua_Integer2str (e - 1))))
    with (String d1 (String "." (string_of_list_ascii rest
          ++ (if e - 1 =? 0 then ""
              else String (if 10 <? b then "@"%char else "e"%char)
                          (lua_Integer2str (e - 1)))))).
  cbn [list_ascii_of_string].
  rewrite list_ascii_of_string_app, list_ascii_of_string_of_list_ascii.
  destruct neg, (e - 1 =? 0); reflexivity.
Qed.

(** ** Reading the text of a regular number *)

Lemma set_str_layout (z : Ref.cell) (b r : Z) (neg : bool) (n : nat) (D E : Z)
      (d1 : ascii) (rest : list ascii) :
  2 <= b <= 62 ->
  b ^ Z.of_nat n <= D < b ^ Z.of_nat (S n) ->
  Ref.digits_of b (S n) D [] = d1 :: rest ->
  Ref.mpfr_set_str z (layout neg d1 (string_of_list_ascii rest) b E) b r
  = (Ref.put z (Ref.read_value (Zpos (Ref.prec z)) (Ref.rnd_of_int r) neg D
                               (E - Z.of_nat (S n)) b), 0).
Proof.
  intros Hb HD Hdig.
  assert (Hb0 : 0 < b) by lia.
  assert (Hp : 0 < b ^ Z.of_nat n) by (apply Z.pow_pos_nonneg; lia).
  assert (Hs : b ^ Z.of_nat (S n) = b * b ^ Z.of_nat n).
  { rewrite Nat2Z.inj_succ. apply Z.pow_succ_r. lia. }
  rewrite (digits_of_head b n Hb0 D [] ltac:(lia)) in Hdig.
  pose proof (Z.div_mod D (b ^ Z.of_nat n) ltac:(lia)) as Hdm.
  pose proof (Z.mod_pos_bound D (b ^ Z.of_nat n) Hp) as Ht.
  set (h := D / b ^ Z.of_nat n) in *. set (t := D mod b ^ Z.of_nat n) in *.
  assert (Hh : 0 <= h < b) by nia.
  injection Hdig as Hd1 Hrest.
  pose proof (digit_value_char b h Hb Hh) as Hv. rewrite Hd1 in Hv.
  unfold Ref.mpfr_set_str. rewrite layout_chars.
  set (body := (d1 :: "."%char :: rest ++ exponent_chars b (E - 1))%list).
  assert (Hmant : Ref.read_mantissa b body
                  = Some (D, Z.of_nat n, exponent_chars b (E - 1))).
  { unfold Ref.read_mantissa, body. cbn [Ref.read_digits]. rewrite Hv.
    change (Ref.digit_value b ".") with (@None Z). cbv iota.
    rewrite <- Hrest.
    rewrite (read_digits_digits_of b _ Hb n t [] _ _ Ht).
    cbn [app]. rewrite (read_digits_stop b _ _ _ Hb).
    replace (0 <? 0 + 1 + (0 + Z.of_nat n)) with true
      by (symmetry; apply Z.ltb_lt; lia).
    replace ((0 * b + h) * b ^ Z.of_nat n + t) with D by lia.
    replace (0 + Z.of_nat n) with (Z.of_nat n) by lia. reflexivity. }
  assert (Hsign : Ref.read_sign
                    (Ref.skip_space ((if neg then ["-"%char] else []) ++ body)%list)
                  = (neg, body)).
  { destruct neg; cbn [app].
    - reflexivity.
    - unfold body. cbn [Ref.skip_space].
      rewrite (digit_not_space b d1 h Hv).
      apply (read_sign_digit b d1 h _ Hv). }
  assert (Hne : ((if neg then ["-"%char] else []) ++ body)%list <> []).
  { destruct neg; discriminate. }
  destruct ((if neg then ["-"%char] else []) ++ body)%list as [ | c0 l0] eqn:El;
    [contradiction | ].
  rewrite Hsign, Hmant, read_exponent_chars.
  cbv iota beta. f_equal. f_equal. f_equal. lia.
Qed.

(** ** tostring, then set *)

Lemma string_of_list_ascii_length (l : list ascii) :
  String.length (string_of_list_ascii l) = List.length l.
Proof.
  induction l as [ | c l IH]; cbn; [reflexivity | rewrite IH; reflexivity].
Qed.

(** ** The room reserved when no digit count is given

    With the digit count 0 the engine writes get_str_ndigits (b, p)
    digits, which it computes exactly, and _outbufsize reserves the room
    from ceil (p * log (2.0) / log (b)) as the host evaluates it in
    doubles.  [host_ceil] stands for that evaluation. *)

Lemma get_str_ndigits_pos (b : Z) (p : positive) :
  2 <= b -> 1 <= Ref.get_str_ndigits b (Zpos p).
Proof.
  intros Hb. unfold Ref.get_str_ndigits.
  assert (H : forall q, 0 <= q -> 0 <= Ref.ceil_log_ratio q b).
  { intros q Hq. apply (ceil_log_ratio_spec q b Hq Hb). }
  destruct (2 ^ Z.log2 b =? b); pose proof (H (Zpos p - 1)); pose proof (H (Zpos p)); lia.
Qed.

(** The host's evaluation gives the digits after the first their room:
    the block holds the sign, the digits, the terminator and the point. *)
Lemma outbufsize_room (host_ceil : Z -> Z -> Z) (z : Ref.cell) (b : Z) :
  2 <= b ->
  let p := Zpos (Ref.prec z) in
  Ref.get_str_ndigits b p - 1 <= host_ceil p b <= LUA_MAXINTEGER ->
  Ref.get_str_ndigits b p + 3
  <= to_size_t (_outbufsize Ref.cell Ref.mpfr_get_prec host_ceil z b 0 + 1).
Proof.
  intros Hb p Hc. pose proof (get_str_ndigits_pos b (Ref.prec z) Hb) as HN.
  fold p in HN. unfold LUA_MAXINTEGER in Hc.
  unfold _outbufsize, Ref.mpfr_get_prec. fold p.
  change (0 =? 0) with true. cbv iota.
  set (N := Ref.get_str_ndigits b p) in *. set (K := host_ceil p b) in *.
  clearbody N K.
  assert (Hsmall : forall x, 0 <= x <= K + 4 -> to_size_t x = x).
  { intros x Hx. unfold to_size_t, wrap_unsigned. apply Z.mod_small. lia. }
  rewrite (Hsmall (K + 1)) by lia.
  destruct (Z.ltb_spec (K + 1) 5) as [H5 | H5].
  - change (7 + 1) with 8. change (to_size_t 8) with 8. lia.
  - rewrite (Hsmall (K + 1 + 2)) by lia. rewrite Hsmall by lia. lia.
Qed.

(** The block reserved from an evaluation of at least 4. *)
Lemma outbufsize_host (host_ceil : Z -> Z -> Z) (z : Ref.cell) (b : Z) :
  let p := Zpos (Ref.prec z) in
  4 <= host_ceil p b <= LUA_MAXINTEGER ->
  to_size_t (_outbufsize Ref.cell Ref.mpfr_get_prec host_ceil z b 0 + 1)
  = host_ceil p b + 4.
Proof.
  intros p Hc. unfold LUA_MAXINTEGER in Hc.
  unfold _outbufsize, Ref.mpfr_get_prec. fold p.
  change (0 =? 0) with true. cbv iota.
  set (K := host_ceil p b) in *. clearbody K.
  assert (Hsmall : forall x, 0 <= x <= K + 4 -> to_size_t x = x).
  { intros x Hx. unfold to_size_t, wrap_unsigned. apply Z.mod_small. lia. }
  rewrite (Hsmall (K + 1)) by lia.
  replace (K + 1 <? 5) with false by (symmetry; apply Z.ltb_ge; lia).
  rewrite (Hsmall (K + 1 + 2)) by lia. rewrite Hsmall by lia. lia.
Qed.

(** Where the host's evaluation falls short of the digits the engine
    writes after the first, the text of a negative number does not fit
    the block: tostring has no defined result. *)
Lemma tostring_short_block
      (luaO_str2num : string -> option (Z + double)) (host_ceil : Z -> Z -> Z)
      (z : addr) (b : Z) (r : mpfr_rnd_t) (L : lua_State Ref.cell)
      (m : positive) (e : Z) :
  2 <= b <= 62 ->
  Ref.val (heap L z) = Ref.Num true m e ->
  let p := Zpos (Ref.prec (heap L z)) in
  4 <= host_ceil p b <= LUA_MAXINTEGER ->
  host_ceil p b + 2 <= Ref.get_str_ndigits b p ->
  fr_tostring luaO_str2num Ref.cell Ref.mpfr_get_str Ref.mpfr_number_p
              Ref.mpfr_zero_p Ref.mpfr_signbit Ref.mpfr_get_prec host_ceil
              [handle z; LInteger b; LInteger 0; LInteger (rnd_code r)] L
  = Undef.
Proof.
  intros Hb Hval p Hc Hshort.
  pose proof (outbufsize_host host_ceil (heap L z) b Hc) as Hsz. fold p in Hsz.
  assert (Hget : exists D E,
             Ref.mpfr_get_str b 0 (heap L z) (rnd_code r)
             = (("-" ++ string_of_list_ascii
                          (Ref.digits_of b (Z.to_nat (Ref.get_str_ndigits b p)) D []))%string,
                E)).
  { unfold Ref.mpfr_get_str. rewrite Hval. fold p.
    change (0 =? 0) with true. cbv iota.
    destruct (Ref.get_digits b _ _ true m e) as [D E].
    exists D, E. reflexivity. }
  destruct Hget as (D & E & Hget).
  eapply fr_tostring_overrun.
  - exact Hb.
  - unfold LUA_MAXINTEGER. lia.
  - unfold Ref.mpfr_number_p. rewrite Hval. reflexivity.
  - unfold Ref.mpfr_zero_p. rewrite Hval. reflexivity.
  - exact Hget.
  - rewrite Hsz. cbn [append String.length].
    rewrite string_of_list_ascii_length, digits_of_length. cbn [List.length].
    lia.
Qed.

(** C4 (the code, where the room suffices and at the failing inputs):
    for a cell x that holds a regular number (an odd significand that
    fits its precision, the precision within the engine's bound) and a
    base b in [2, 62], tostring (x, b, 0, RNDN) asks the engine for
    get_str_ndigits (b, p) digits and reserves a block from the host's
    evaluation [host_ceil] of ceil (p * log (2.0) / log (b)) in doubles.
    Where that evaluation is not below the number of digits after the
    first, tostring returns a text, and set (z, text, b, RNDN) on a
    destination of the same precision returns z holding exactly the
    number of x.  Where it is below (and at least 4) and the number is
    negative, the engine writes past the end of the block and tostring
    has no defined result.  The engine is the reference semantics of
    get_str and set_str. *)
Theorem C4_text_round_trip :
  forall (dm : data_model) (host_ceil : Z -> Z -> Z) (x z : addr) (b : Z)
         (L : lua_State Ref.cell) (neg : bool) (m : positive) (e : Z),
    2 <= b <= 62 ->
    Ref.canonical (heap L x) = true ->
    Ref.val (heap L x) = Ref.Num neg m e ->
    Ref.prec (heap L z) = Ref.prec (heap L x) ->
    let p := Zpos (Ref.prec (heap L x)) in
    let tostring :=
      fr_tostring Host.str2num Ref.cell Ref.mpfr_get_str Ref.mpfr_number_p
                  Ref.mpfr_zero_p Ref.mpfr_signbit Ref.mpfr_get_prec host_ceil
                  [handle x; LInteger b; LInteger 0; LInteger (rnd_code MPFR_RNDN)] L in
    (Ref.get_str_ndigits b p - 1 <= host_ceil p b <= LUA_MAXINTEGER ->
     exists s : string,
       tostring = Ret [LString s] L
       /\ fr_set dm Host.str2num Host.number2str Ref.cell Ref.mpfr_set_si
                 Ref.mpfr_set_d Ref.mpfr_set Ref.mpfr_set_str
                 [handle z; LString s; LInteger b; LInteger (rnd_code MPFR_RNDN)] L
          = Ret [handle z] (set_cell L z (heap L x)))
    /\ (neg = true ->
        4 <= host_ceil p b <= LUA_MAXINTEGER ->
        host_ceil p b + 2 <= Ref.get_str_ndigits b p ->
        tostring = Undef).
Proof.
  intros dm host_ceil x z b L neg m e Hb Hcan Hval Hprec p0 tostring.
  split;
    [ intros Hhost
    | intros Hneg H4 Hshort; subst neg;
      apply (tostring_short_block Host.str2num host_ceil x b MPFR_RNDN L m e
               Hb Hval H4 Hshort) ].
  unfold tostring. clear tostring.
  pose proof (outbufsize_room host_ceil (heap L x) b ltac:(lia) Hhost) as Hroom.
  clear Hhost. unfold p0 in Hroom. clear p0.
  unfold Ref.canonical in Hcan. rewrite Hval in Hcan.
  apply andb_prop in Hcan. destruct Hcan as [Hmax Hcan].
  apply andb_prop in Hcan. destruct Hcan as [Hodd Hsize].
  apply Z.leb_le in Hmax. apply Z.leb_le in Hsize.
  set (p := Ref.prec (heap L x)) in *.
  pose proof (size_bounds m) as [_ Hhi].
  assert (Hm : Zpos m < 2 ^ Zpos p).
  { apply Z.lt_le_trans with (2 ^ Zpos (Pos.size m)); [exact Hhi | ].
    apply Z.pow_le_mono_r; lia. }
  pose proof (get_digits_spec b p neg m e ltac:(lia) Hm) as Hspec.
  pose proof (read_value_get_digits b p neg m e ltac:(lia) Hodd Hsize) as Hread.
  cbv zeta in Hspec, Hread.
  assert (Hget : Ref.mpfr_get_str b 0 (heap L x) (rnd_code MPFR_RNDN)
                 = ((if neg then "-" else "")
                      ++ string_of_list_ascii
                           (Ref.digits_of b
                              (Z.to_nat (Ref.get_str_ndigits b (Zpos p)))
                              (fst (Ref.get_digits b (Ref.get_str_ndigits b (Zpos p))
                                                   MPFR_RNDN neg m e)) []),
                    snd (Ref.get_digits b (Ref.get_str_ndigits b (Zpos p))
                                        MPFR_RNDN neg m e))).
  { unfold Ref.mpfr_get_str. rewrite Hval. fold p.
    change (0 =? 0) with true. cbv iota.
    change (Ref.rnd_of_int (rnd_code MPFR_RNDN)) with MPFR_RNDN.
    destruct (Ref.get_digits _ _ _ _ _ _) as [D E]. reflexivity. }
  set (N := Ref.get_str_ndigits b (Zpos p)) in *.
  destruct (Ref.get_digits b N MPFR_RNDN neg m e) as [D E].
  cbn [fst snd] in *.
  destruct Hspec as (HN & HD & _).
  set (n := Z.to_nat (N - 1)).
  assert (HSn : Z.to_nat N = S n) by (unfold n; lia).
  assert (Hn : Z.of_nat n = N - 1) by (unfold n; lia).
  assert (HNn : Z.of_nat (S n) = N) by (unfold n; lia).
  clearbody N n. rewrite HSn in Hget.
  assert (HDn : b ^ Z.of_nat n <= D < b ^ Z.of_nat (S n)).
  { rewrite Hn, HNn. exact HD. }
  assert (Hb0 : 0 < b) by lia.
  assert (Hpn : 0 < b ^ Z.of_nat n) by (apply Z.pow_pos_nonneg; lia).
  pose proof (digits_of_head b n Hb0 D [] ltac:(lia)) as Hdig.
  set (d1 := Ref.digit_char b (D / b ^ Z.of_nat n)) in *.
  set (rest := Ref.digits_of b n (D mod b ^ Z.of_nat n) []) in *.
  assert (Hh : 0 <= D / b ^ Z.of_nat n < b).
  { split; [apply Z.div_pos; lia | ].
    apply Z.div_lt_upper_bound; [exact Hpn | ].
    replace (b ^ Z.of_nat n * b) with (b ^ Z.of_nat (S n)); [apply HDn | ].
    rewrite Nat2Z.inj_succ, Z.pow_succ_r by lia. ring. }
  pose proof (digit_value_char b _ Hb Hh) as Hv. fold d1 in Hv.
  rewrite Hdig in Hget. cbn [string_of_list_ascii] in Hget.
  exists (layout neg d1 (string_of_list_ascii rest) b E). split.
  - apply fr_tostring_regular.
    + exact Hb.
    + unfold LUA_MAXINTEGER. lia.
    + unfold Ref.mpfr_number_p. rewrite Hval. reflexivity.
    + unfold Ref.mpfr_zero_p. rewrite Hval. reflexivity.
    + exact Hget.
    + apply (digit_not b d1 "-" _ Hv). reflexivity.
    + rewrite list_ascii_of_string_of_list_ascii, <- Hdig.
      apply digits_of_nul_free; [exact Hb | reflexivity].
    + assert (Hlen : (String.length ((if neg then "-" else "")
                                       ++ String d1 (string_of_list_ascii rest))
                      <= S (S n))%nat).
      { destruct neg; cbn [append String.length];
          rewrite string_of_list_ascii_length; unfold rest;
          rewrite digits_of_length; cbn [List.length]; lia. }
      lia.
  - rewrite fr_set_string. unfold set_string_outcome.
    replace ((2 <=? b) && (b <=? 62)) with true
      by (symmetry; apply andb_true_intro; split; apply Z.leb_le; lia).
    rewrite (set_str_layout (heap L z) b (rnd_code MPFR_RNDN) neg n D E d1 rest
               Hb HDn Hdig).
    change (0 =? 0) with true. cbv iota.
    change (Ref.rnd_of_int (rnd_code MPFR_RNDN)) with MPFR_RNDN.
    rewrite Hprec. fold p. rewrite HNn, Hread.
    f_equal. f_equal. unfold Ref.put. rewrite Hprec. fold p.
    destruct (heap L x) as [px vx]. cbn in *. subst. reflexivity.
Qed.

(** The round trip of the double nearest to 0.1 in base 10, read back
    into another cell of 53 bits: the engine writes 17 digits, and
    ceil (53 * log (2.0) / log (10)) is 16 in doubles. *)
Lemma C4_witness :
  exists s : string,
    fr_tostring Host.str2num Ref.cell Ref.mpfr_get_str Ref.mpfr_number_p
                Ref.mpfr_zero_p Ref.mpfr_signbit Ref.mpfr_get_prec
                (fun _ _ => 16)
                [handle 3%nat; LInteger 10; LInteger 0; LInteger (rnd_code MPFR_RNDN)]
                Examples.state
    = Ret [LString s] Examples.state
    /\ fr_set LP64 Host.str2num Host.number2str Ref.cell Ref.mpfr_set_si
              Ref.mpfr_set_d Ref.mpfr_set Ref.mpfr_set_str
              [handle 1%nat; LString s; LInteger 10; LInteger (rnd_code MPFR_RNDN)]
              Examples.state
       = Ret [handle 1%nat]
             (set_cell Examples.state 1%nat (heap Examples.state 3%nat)).
Proof.
  refine (proj1 (C4_text_round_trip LP64 (fun _ _ => 16) 3%nat 1%nat 10 Examples.state
                   false 3602879701896397 (-55) _ _ _ _) _).
  - lia.
  - reflexivity.
  - reflexivity.
  - reflexivity.
  - vm_compute. split; discriminate.
Defined.

(** * Integers through set and tonumber *)

Lemma odd_part_spec (m : positive) :
  forall e : Z,
    0 <= e ->
    Zpos (fst (Ref.odd_part m e)) * 2 ^ snd (Ref.odd_part m e) = Zpos m * 2 ^ e
    /\ e <= snd (Ref.odd_part m e)
    /\ match fst (Ref.odd_part m e) with xO _ => false | _ => true end = true.
Proof.
  induction m as [m IH | m IH | ]; intros e He; cbn [Ref.odd_part fst snd].
  - repeat split; lia.
  - destruct (IH (e + 1) ltac:(lia)) as (H1 & H2 & H3).
    split; [ | split; [lia | exact H3]].
    rewrite H1, Z.pow_add_r by lia. change (2 ^ 1) with 2.
    rewrite (Pos2Z.inj_xO m). ring.
  - repeat split; lia.
Qed.

(** The scale at which an integer is rounded. *)
Lemma chosen_scale_int (p : positive) (n : Z) :
  0 < n -> Ref.chosen_scale (Zpos p) n 1 = Z.log2 n + 1 - Zpos p.
Proof.
  intros Hn. apply chosen_scale_unique; try lia.
  pose proof (Z.log2_spec n Hn) as [Hlo Hhi].
  pose proof (Z.log2_nonneg n) as Hl.
  set (l := Z.log2 n) in *. clearbody l.
  unfold Ref.in_binade, Ref.scale.
  destruct (Z.leb_spec 0 (l + 1 - Zpos p)) as [E | E]; cbn [fst snd].
  - rewrite Z.mul_1_l, <- !Z.pow_add_r by lia.
    replace (Zpos p - 1 + (l + 1 - Zpos p)) with l by lia.
    replace (Zpos p + (l + 1 - Zpos p)) with (Z.succ l) by lia.
    lia.
  - rewrite !Z.mul_1_r.
    assert (Hc : 0 < 2 ^ (- (l + 1 - Zpos p))) by (apply Z.pow_pos_nonneg; lia).
    assert (E1 : 2 ^ (Zpos p - 1) = 2 ^ l * 2 ^ (- (l + 1 - Zpos p))).
    { rewrite <- Z.pow_add_r by lia. f_equal. lia. }
    assert (E2 : 2 ^ Zpos p = 2 ^ Z.succ l * 2 ^ (- (l + 1 - Zpos p))).
    { rewrite <- Z.pow_add_r by lia. f_equal. lia. }
    rewrite E1, E2. clear E1 E2.
    set (c := 2 ^ (- (l + 1 - Zpos p))) in *. clearbody c.
    split; [apply Z.mul_le_mono_nonneg_r; lia | apply Z.mul_lt_mono_pos_r; lia].
Qed.

Lemma round_up_scaled (r : mpfr_rnd_t) (neg : bool) (q rem D c : Z) :
  0 < c -> Ref.round_up r neg q (rem * c) (D * c) = Ref.round_up r neg q rem D.
Proof.
  intros Hc.
  assert (H1 : (D * c <? 2 * (rem * c)) = (D <? 2 * rem)).
  { destruct (Z.ltb_spec (D * c) (2 * (rem * c))), (Z.ltb_spec D (2 * rem));
      try reflexivity; exfalso; nia. }
  assert (H2 : (2 * (rem * c) =? D * c) = (2 * rem =? D)).
  { destruct (Z.eqb_spec (2 * (rem * c)) (D * c)), (Z.eqb_spec (2 * rem) D);
      try reflexivity; exfalso; nia. }
  assert (H3 : (rem * c =? 0) = (rem =? 0)).
  { destruct (Z.eqb_spec (rem * c) 0), (Z.eqb_spec rem 0);
      try reflexivity; exfalso; nia. }
  unfold Ref.round_up. rewrite H1, H2, H3. reflexivity.
Qed.

(** An integer and the same integer with its trailing zero bits moved to
    the exponent round to the same number. *)
Lemma round_ratio_shift (p : positive) (r : mpfr_rnd_t) (neg : bool) (n j e : Z) :
  0 < n -> 0 <= j ->
  Ref.round_ratio (Zpos p) r neg (n * 2 ^ j) 1 e
  = Ref.round_ratio (Zpos p) r neg n 1 (e + j).
Proof.
  intros Hn Hj.
  assert (Hj2 : 0 < 2 ^ j) by (apply Z.pow_pos_nonneg; lia).
  rewrite !round_ratio_chosen. cbv zeta.
  rewrite !chosen_scale_int by nia.
  rewrite Z.log2_mul_pow2 by lia.
  set (k := Z.log2 n + 1 - Zpos p).
  replace (j + Z.log2 n + 1 - Zpos p) with (k + j) by (unfold k; lia).
  clearbody k.
  assert (Hs : exists c, 0 < c
                 /\ fst (Ref.scale (n * 2 ^ j) 1 (k + j)) = fst (Ref.scale n 1 k) * c
                 /\ snd (Ref.scale (n * 2 ^ j) 1 (k + j)) = snd (Ref.scale n 1 k) * c).
  { unfold Ref.scale.
    destruct (Z.leb_spec 0 k) as [E | E], (Z.leb_spec 0 (k + j)) as [E' | E'];
      cbn [fst snd]; try lia.
    - exists (2 ^ j). rewrite Z.pow_add_r by lia. repeat split; [lia | ring].
    - exists (2 ^ (k + j)). split; [apply Z.pow_pos_nonneg; lia | ]. split; [ | ring].
      rewrite <- Z.mul_assoc, <- Z.pow_add_r by lia. do 2 f_equal. lia.
    - exists 1. split; [lia | ]. split; [ | ring].
      rewrite Z.mul_1_r, <- Z.mul_assoc, <- Z.pow_add_r by lia. do 2 f_equal. lia. }
  destruct Hs as (c & Hc & -> & ->).
  pose proof (scale_pos n 1 k Hn ltac:(lia)) as [HN HD].
  set (N := fst (Ref.scale n 1 k)) in *. set (D := snd (Ref.scale n 1 k)) in *.
  clearbody N D.
  rewrite Z.div_mul_cancel_r by lia.
  rewrite Z.mul_mod_distr_r by lia.
  rewrite round_up_scaled by exact Hc.
  f_equal. lia.
Qed.

(** An integer that fits the precision is not changed by rounding. *)
Lemma round_ratio_exact (p : positive) (r : mpfr_rnd_t) (neg : bool) (m : positive) (e : Z) :
  Zpos m < 2 ^ Zpos p ->
  Ref.round_ratio (Zpos p) r neg (Zpos m) 1 e = Ref.mk_num neg (Zpos m) e.
Proof.
  intros Hm. rewrite round_ratio_chosen. cbv zeta.
  rewrite chosen_scale_int by lia.
  pose proof (Z.log2_spec (Zpos m) ltac:(lia)) as [Hlo Hhi].
  pose proof (Z.log2_nonneg (Zpos m)) as Hl.
  assert (Hlp : Z.log2 (Zpos m) < Zpos p).
  { apply pow2_lt_inv; lia. }
  set (l := Z.log2 (Zpos m)) in *. clearbody l.
  assert (Hup : forall q, Ref.round_up r neg q 0 1 = false)
    by (intros q; destruct r, neg; reflexivity).
  unfold Ref.scale.
  destruct (Z.leb_spec 0 (l + 1 - Zpos p)) as [E | E]; cbn [fst snd].
  - assert (Hk : l + 1 - Zpos p = 0) by lia. rewrite Hk.
    change (1 * 2 ^ 0) with 1. rewrite Z.div_1_r, Z.mod_1_r, Hup.
    reflexivity.
  - rewrite Z.div_1_r, Z.mod_1_r, Hup.
    replace (- (l + 1 - Zpos p)) with (Z.of_nat (Z.to_nat (Zpos p - 1 - l)))
      by (rewrite Z2Nat.id; lia).
    rewrite mk_num_shift. rewrite Z2Nat.id by lia.
    f_equal. lia.
Qed.

(** The parser of the engine on a text that is a sign and decimal
    digits. *)
Lemma set_str_digits (z : Ref.cell) (s : string) (c : ascii) (tl l1 : list ascii)
      (neg : bool) (m : positive) (cnt r : Z) :
  list_ascii_of_string s = c :: tl ->
  Ref.is_space c = false ->
  Ref.read_sign (c :: tl) = (neg, l1) ->
  Ref.read_digits 10 l1 0 0 = (Zpos m, cnt, []) ->
  0 < cnt ->
  Ref.mpfr_set_str z s 10 r
  = (Ref.put z (Ref.round_ratio (Zpos (Ref.prec z)) (Ref.rnd_of_int r) neg (Zpos m) 1 0),
     0).
Proof.
  intros Hs Hsp Hsign Hdig Hcnt. unfold Ref.mpfr_set_str.
  rewrite Hs. cbn [Ref.skip_space]. rewrite Hsp, Hsign.
  unfold Ref.read_mantissa. rewrite Hdig.
  replace (0 <? cnt) with true by (symmetry; apply Z.ltb_lt; exact Hcnt).
  cbn [Ref.read_exponent]. unfold Ref.read_value.
  change (Zpos m =? 0) with false. change (0 <=? 0 - 0) with true.
  change (10 ^ (0 - 0)) with 1. rewrite Z.mul_1_r. reflexivity.
Qed.

Lemma uint_chars (d : Decimal.uint) :
  d <> Decimal.Nil ->
  exists (c : ascii) (tl : list ascii),
    list_ascii_of_string (NilEmpty.string_of_uint d) = c :: tl
    /\ Ref.is_space c = false
    /\ Ref.read_sign (c :: tl) = (false, c :: tl).
Proof.
  destruct d; intros H; [contradiction | ..];
    cbn [NilEmpty.string_of_uint list_ascii_of_string];
    eexists; eexists; (split; [reflexivity | split; reflexivity]).
Qed.

(** A number and its canonical form round to the same number. *)
Lemma fround_mk_num (p : positive) (r : mpfr_rnd_t) (neg : bool) (q : positive) :
  Ref.fround (Zpos p) r (Ref.mk_num neg (Zpos q) 0)
  = Ref.round_ratio (Zpos p) r neg (Zpos q) 1 0.
Proof.
  unfold Ref.mk_num.
  destruct (odd_part_spec q 0 ltac:(lia)) as (H1 & H2 & _).
  destruct (Ref.odd_part q 0) as [q' e']. cbn [fst snd Ref.fround] in *.
  rewrite Z.pow_0_r, Z.mul_1_r in H1. rewrite <- H1.
  rewrite round_ratio_shift by lia. reflexivity.
Qed.

(** The decimal text of an integer is read as the integer itself. *)
Lemma set_str_Integer2str (z : Ref.cell) (x r : Z) :
  Ref.mpfr_set_str z (lua_Integer2str x) 10 r = (Ref.mpfr_set_si z x r, 0).
Proof.
  assert (Hnb : forall p, 0 < Z.of_nat (Decimal.nb_digits (Pos.to_uint p))).
  { intros p. pose proof (Unsigned.to_uint_nonnil p) as H.
    destruct (Pos.to_uint p); [contradiction | cbn [Decimal.nb_digits]; lia ..]. }
  assert (Hstr : forall p, NilZero.string_of_uint (Pos.to_uint p)
                           = NilEmpty.string_of_uint (Pos.to_uint p)).
  { intros p. pose proof (Unsigned.to_uint_nonnil p) as H.
    destruct (Pos.to_uint p); [contradiction | reflexivity ..]. }
  unfold Ref.mpfr_set_si, lua_Integer2str.
  destruct x as [ | q | q]; cbn [Z.to_int NilZero.string_of_int Ref.of_Z].
  - reflexivity.
  - rewrite Hstr, fround_mk_num.
    destruct (uint_chars (Pos.to_uint q) (Unsigned.to_uint_nonnil q))
      as (c & tl & Hs & Hsp & Hsign).
    apply (set_str_digits z _ c tl (c :: tl) false q
             (0 + Z.of_nat (Decimal.nb_digits (Pos.to_uint q))) r Hs Hsp Hsign).
    + rewrite <- Hs, read_uint, DecimalPos.Unsigned.of_to. reflexivity.
    + pose proof (Hnb q). lia.
  - rewrite Hstr, fround_mk_num.
    apply (set_str_digits z _ "-"%char
             (list_ascii_of_string (NilEmpty.string_of_uint (Pos.to_uint q)))
             (list_ascii_of_string (NilEmpty.string_of_uint (Pos.to_uint q)))
             true q (0 + Z.of_nat (Decimal.nb_digits (Pos.to_uint q))) r).
    + reflexivity.
    + reflexivity.
    + reflexivity.
    + rewrite read_uint, DecimalPos.Unsigned.of_to. reflexivity.
    + pose proof (Hnb q). lia.
Qed.

(** X15: set with an integer n takes the path of the texts, as every
    number does, and the decimal text of n is read in the base given.
    With the base left out, nil or 10 and one of the five rounding modes
    (given, or left out where the default one is one of the five) the
    destination receives n rounded to its precision in that mode: what
    mpfr_set_si gives, for every integer of the host.  The engine is the
    reference semantics of set_str and set_si. *)
Theorem X15_set_with_an_integer_and_no_base :
  forall (dm : data_model) (luaO_str2num : string -> option (Z + double))
         (lua_Number2str : double -> string)
         (z : addr) (n : Z) (rnd : option mpfr_rnd_t) (d : mpfr_rnd_t)
         (L : lua_State Ref.cell),
    default_rounding_mode L = rnd_code d ->
    let set := fr_set dm luaO_str2num lua_Number2str Ref.cell Ref.mpfr_set_si
                      Ref.mpfr_set_d Ref.mpfr_set Ref.mpfr_set_str in
    let given := option_map rnd_code rnd in
    let r := match rnd with Some r => r | None => d end in
    let stored (r : mpfr_rnd_t) :=
      Ret [handle z] (set_cell L z (Ref.mpfr_set_si (heap L z) n (rnd_code r))) in
    set [handle z; LInteger n] L = stored d
    /\ set (with_rnd [handle z; LInteger n; LNil] given) L = stored r
    /\ set (with_rnd [handle z; LInteger n; LInteger 10] given) L = stored r.
Proof.
  intros dm str2num number2str z n rnd d L Hd set given r stored.
  unfold set, stored.
  assert (Hr : rnd_used Ref.cell given L = rnd_code r).
  { unfold r, given, rnd_used. destruct rnd as [r0 | ]; cbn [option_map].
    - apply to_int_rnd_code.
    - rewrite Hd. apply to_int_rnd_code. }
  assert (Hn : rnd_used Ref.cell None L = rnd_code d).
  { unfold rnd_used. rewrite Hd. apply to_int_rnd_code. }
  pose proof (fr_set_integer_text dm str2num number2str Ref.cell Ref.mpfr_set_si
                Ref.mpfr_set_d Ref.mpfr_set Ref.mpfr_set_str z n given L) as H.
  cbv zeta in H. rewrite set_str_Integer2str, Hr in H.
  split; [ | exact H].
  rewrite fr_set_integer_alone, set_str_Integer2str, Hn. reflexivity.
Qed.

Lemma heap_set_cell {cell : Type} (L : lua_State cell) (z : addr) (c : cell) :
  heap (set_cell L z c) z = c.
Proof. unfold set_cell. cbn [heap]. rewrite Nat.eqb_refl. reflexivity. Qed.

(** An integer that fits the precision is stored as it is. *)
Lemma fround_of_Z (p : positive) (r : mpfr_rnd_t) (n : Z) :
  Z.abs n < 2 ^ Zpos p -> Ref.fround (Zpos p) r (Ref.of_Z n) = Ref.of_Z n.
Proof.
  intros H. destruct n as [ | q | q]; cbn [Ref.of_Z].
  - reflexivity.
  - rewrite fround_mk_num. apply round_ratio_exact. exact H.
  - rewrite fround_mk_num. apply round_ratio_exact. exact H.
Qed.

Lemma to_integer_mk_num (r : mpfr_rnd_t) (neg : bool) (q : positive) :
  Ref.to_integer r (Ref.mk_num neg (Zpos q) 0) = Some (Ref.signed neg (Zpos q))
  /\ Ref.mpfr_integer_p (Ref.mkCell 1 (Ref.mk_num neg (Zpos q) 0)) = true.
Proof.
  unfold Ref.mk_num, Ref.mpfr_integer_p.
  destruct (odd_part_spec q 0 ltac:(lia)) as (H1 & H2 & _).
  destruct (Ref.odd_part q 0) as [q' e']. cbn [fst snd Ref.to_integer Ref.val] in *.
  replace (0 <=? e') with true by (symmetry; apply Z.leb_le; exact H2).
  rewrite H1, Z.pow_0_r, Z.mul_1_r. split; reflexivity.
Qed.

(** What the conversions to a machine integer give for a cell that
    holds the integer n. *)
Lemma integer_cell (dm : data_model) (z : Ref.cell) (n r : Z) :
  Ref.val z = Ref.of_Z n ->
  LONG_MIN dm <= n <= LONG_MAX dm ->
  Ref.mpfr_integer_p z = true
  /\ Ref.mpfr_fits_slong_p dm z r = true
  /\ Ref.mpfr_get_si dm z r = n.
Proof.
  intros Hv Hn.
  unfold Ref.mpfr_integer_p, Ref.mpfr_fits_slong_p, Ref.mpfr_get_si. rewrite Hv.
  assert (Hfit : (LONG_MIN dm <=? n) && (n <=? LONG_MAX dm) = true).
  { apply andb_true_intro. split; apply Z.leb_le; lia. }
  destruct n as [ | q | q]; cbn [Ref.of_Z].
  - cbn [Ref.to_integer]. rewrite Hfit. repeat split. lia.
  - destruct (to_integer_mk_num (Ref.rnd_of_int r) false q) as [Hi Hp].
    unfold Ref.mpfr_integer_p in Hp. cbn [Ref.val] in Hp.
    rewrite Hp. unfold Ref.mk_num in *.
    destruct (Ref.odd_part q 0) as [q' e']. rewrite Hi.
    cbn [Ref.signed]. rewrite Hfit. repeat split. lia.
  - destruct (to_integer_mk_num (Ref.rnd_of_int r) true q) as [Hi Hp].
    unfold Ref.mpfr_integer_p in Hp. cbn [Ref.val] in Hp.
    rewrite Hp. unfold Ref.mk_num in *.
    destruct (Ref.odd_part q 0) as [q' e']. rewrite Hi.
    cbn [Ref.signed]. change (- Zpos q) with (Zneg q). rewrite Hfit.
    repeat split. lia.
Qed.

(** X16: an integer n within long that fits the precision of z comes
    back from z as it went in: set (z, n) stores n exactly, whatever the
    default rounding mode, and tonumber (z) then returns the integer n
    of the host, in every rounding mode.  The engine is the reference
    semantics. *)
Theorem X16_integer_round_trip :
  forall (dm : data_model) (luaO_str2num : string -> option (Z + double))
         (lua_Number2str : double -> string) (mpfr_get_d : Ref.cell -> Z -> double)
         (z : addr) (n : Z) (rnd : option Z) (L : lua_State Ref.cell),
    LONG_MIN dm <= n <= LONG_MAX dm ->
    Z.abs n < 2 ^ Zpos (Ref.prec (heap L z)) ->
    let L' := set_cell L z (Ref.put (heap L z) (Ref.of_Z n)) in
    fr_set dm luaO_str2num lua_Number2str Ref.cell Ref.mpfr_set_si
           Ref.mpfr_set_d Ref.mpfr_set Ref.mpfr_set_str [handle z; LInteger n] L
    = Ret [handle z] L'
    /\ fr_tonumber dm luaO_str2num Ref.cell Ref.mpfr_integer_p
                   (Ref.mpfr_fits_slong_p dm) (Ref.mpfr_get_si dm) mpfr_get_d
                   (with_rnd [handle z] rnd) L'
       = Ret [LInteger n] L'.
Proof.
  intros dm str2num number2str get_d z n rnd L Hn Hp L'. split.
  - rewrite fr_set_integer_alone, set_str_Integer2str.
    unfold Ref.mpfr_set_si. rewrite fround_of_Z by exact Hp. reflexivity.
  - rewrite fr_tonumber_handle.
    destruct (integer_cell dm (heap L' z) n (rnd_used Ref.cell rnd L'))
      as (Hi & Hf & Hg).
    + unfold L'. rewrite heap_set_cell. reflexivity.
    + exact Hn.
    + rewrite Hi, Hf, Hg.
      replace (long_bits dm <=? 64) with true by (destruct dm; reflexivity).
      reflexivity.
Qed.

(** * Special values *)

(** X17: a number set to NaN, to an infinity or to a zero reads back as
    the text "@NaN@", "@Inf@" or "-@Inf@", "0" or "-0", in every base,
    for every digit count and rounding mode, and with these three left
    out.  The sign of the infinity or of the zero is the sign of the
    integer given, as the C [int] it becomes: negative gives the
    negative one, zero and positive the positive one.  The engine is the
    reference semantics. *)
Theorem X17_special_values_as_text :
  forall (luaO_str2num : string -> option (Z + double)) (ord : list nat)
         (z : addr) (s b n r : Z) (text : list lua_value) (L : lua_State Ref.cell),
    is_order 2 ord = true ->
    2 <= b <= 62 ->
    text = [handle z] \/ text = [handle z; LInteger b; LInteger n; LInteger r] ->
    let tostring :=
      fr_tostring luaO_str2num Ref.cell Ref.mpfr_get_str Ref.mpfr_number_p
                  Ref.mpfr_zero_p Ref.mpfr_signbit Ref.mpfr_get_prec
                  Ref.ceil_log_ratio text in
    let negative := to_int s <? 0 in
    let holding (v : Ref.fval) := set_cell L z (Ref.put (heap L z) v) in
    bind (fr_set_nan Ref.cell Ref.mpfr_set_nan [handle z]) (fun _ => tostring) L
    = Ret [LString "@NaN@"] (holding Ref.NaN)
    /\ bind (fr_set_inf luaO_str2num Ref.cell Ref.mpfr_set_inf ord
                        [handle z; LInteger s])
            (fun _ => tostring) L
       = Ret [LString (if negative then "-@Inf@" else "@Inf@")]
             (holding (Ref.Inf negative))
    /\ bind (fr_set_zero luaO_str2num Ref.cell Ref.mpfr_set_zero ord
                         [handle z; LInteger s])
            (fun _ => tostring) L
       = Ret [LString (if negative then "-0" else "0")]
             (holding (Ref.Zero negative)).
Proof.
  intros str2num ord z s b n r text L Ho Hb Htext tostring negative holding.
  assert (Hargs : forall L' : lua_State Ref.cell,
             index text 1 = Some (handle z)
             /\ exists b' n' r',
                 _opt_base str2num Ref.cell text 2 L' = Ret b' L'
                 /\ luaL_optinteger str2num Ref.cell text 3 0 L' = Ret n' L'
                 /\ _opt_rnd str2num Ref.cell text 4 L' = Ret r' L').
  { intros L'. destruct Htext as [-> | ->]; (split; [reflexivity | ]).
    - exists 10, 0, (to_int (default_rounding_mode L')).
      split; [apply opt_base_left_out; reflexivity | ].
      split; [apply optinteger_left_out; reflexivity | ].
      apply opt_rnd_left_out; reflexivity.
    - exists b, n, (to_int r).
      split; [apply opt_base_integer; [reflexivity | exact Hb] | ].
      split; [apply optinteger_integer; reflexivity | ].
      apply opt_rnd_integer; reflexivity. }
  repeat match goal with |- _ /\ _ => split end.
  - erewrite bind_returns; [ | apply fr_set_nan_handle].
    destruct (Hargs (holding Ref.NaN)) as (Hz & b' & n' & r' & H1 & H2 & H3).
    unfold tostring.
    eapply fr_tostring_special; [exact Hz | exact H1 | exact H2 | exact H3 | | | ].
    + unfold holding. rewrite heap_set_cell. reflexivity.
    + unfold holding. rewrite heap_set_cell. reflexivity.
    + left. reflexivity.
  - erewrite bind_returns; [ | apply fr_set_inf_integer; exact Ho].
    destruct (Hargs (holding (Ref.Inf negative))) as (Hz & b' & n' & r' & H1 & H2 & H3).
    unfold tostring.
    eapply fr_tostring_special; [exact Hz | exact H1 | exact H2 | exact H3 | | | ].
    + unfold holding. rewrite heap_set_cell. reflexivity.
    + unfold holding. rewrite heap_set_cell. reflexivity.
    + destruct negative; [right; right | right; left]; reflexivity.
  - erewrite bind_returns; [ | apply fr_set_zero_integer; exact Ho].
    destruct (Hargs (holding (Ref.Zero negative))) as (Hz & b' & n' & r' & H1 & H2 & H3).
    unfold tostring.
    eapply eq_trans.
    + eapply fr_tostring_zero; [exact Hz | exact H1 | exact H2 | exact H3 | | ];
        unfold holding; rewrite heap_set_cell; reflexivity.
    + unfold holding. rewrite heap_set_cell. reflexivity.
Qed.

(** * tostring with a digit count *)

(** The first of the digits written and the others. *)
Lemma digits_of_cons (b : Z) :
  2 <= b <= 62 ->
  forall (k : nat) (D : Z) (acc : list ascii),
  exists (d : Z) (rest : list ascii),
    Ref.digits_of b (S k) D acc = Ref.digit_char b d :: rest
    /\ 0 <= d < b
    /\ List.length rest = (k + List.length acc)%nat.
Proof.
  intros Hb. induction k as [ | k IH]; intros D acc.
  - exists (D mod b), acc. cbn [Ref.digits_of].
    split; [reflexivity | ]. split; [apply Z.mod_pos_bound; lia | reflexivity].
  - destruct (IH (D / b) (Ref.digit_char b (D mod b) :: acc)) as (d & rest & H1 & H2 & H3).
    exists d, rest.
    change (Ref.digits_of b (S (S k)) D acc)
      with (Ref.digits_of b (S k) (D / b) (Ref.digit_char b (D mod b) :: acc)).
    split; [exact H1 | ]. split; [exact H2 | ].
    rewrite H3. cbn [List.length]. lia.
Qed.

(** The room reserved by the size formula is enough for the digits
    requested. *)
Lemma outbufsize_count (z : Ref.cell) (b n : Z) :
  1 <= n <= LUA_MAXINTEGER ->
  n + 3 <= to_size_t (_outbufsize Ref.cell Ref.mpfr_get_prec Ref.ceil_log_ratio z b n + 1).
Proof.
  unfold LUA_MAXINTEGER. intros Hn. unfold _outbufsize.
  replace (n =? 0) with false by (symmetry; apply Z.eqb_neq; lia).
  assert (Hsmall : forall x, 0 <= x <= n + 4 -> to_size_t x = x).
  { intros x Hx. unfold to_size_t, wrap_unsigned. apply Z.mod_small. lia. }
  destruct (Z.ltb_spec n 5) as [H5 | H5].
  - change (7 + 1) with 8. change (to_size_t 8) with 8. lia.
  - rewrite (Hsmall (n + 2)) by lia. rewrite Hsmall by lia. lia.
Qed.

(** X18: for a regular number, a base b in [2, 62] and a digit count n
    of at least 1, tostring (z, b, n, r) returns a text in every
    rounding mode r: the buffer it reserves has room for the n digits,
    the sign, the point and the terminator.  The text is the sign, the
    first digit, the point and the n - 1 other digits the engine
    renders, followed by the exponent.  The engine is the reference
    semantics of get_str. *)
Theorem X18_tostring_with_a_digit_count :
  forall (luaO_str2num : string -> option (Z + double))
         (z : addr) (b n : Z) (r : mpfr_rnd_t) (L : lua_State Ref.cell)
         (neg : bool) (m : positive) (e : Z),
    2 <= b <= 62 ->
    1 <= n <= LUA_MAXINTEGER ->
    Ref.val (heap L z) = Ref.Num neg m e ->
    exists (d1 : ascii) (rest : string) (E : Z),
      Ref.mpfr_get_str b n (heap L z) (rnd_code r)
      = ((if neg then "-" else "") ++ String d1 rest, E)
      /\ Z.of_nat (String.length rest) = n - 1
      /\ fr_tostring luaO_str2num Ref.cell Ref.mpfr_get_str Ref.mpfr_number_p
                     Ref.mpfr_zero_p Ref.mpfr_signbit Ref.mpfr_get_prec
                     Ref.ceil_log_ratio
                     [handle z; LInteger b; LInteger n; LInteger (rnd_code r)] L
         = Ret [LString (layout neg d1 rest b E)] L.
Proof.
  intros str2num z b n r L neg m e Hb Hn Hval.
  pose proof (outbufsize_count (heap L z) b n Hn) as Hroom.
  set (k := Z.to_nat (n - 1)).
  assert (Hk : Z.to_nat n = S k) by (unfold k; lia).
  assert (Hkn : Z.of_nat k = n - 1) by (unfold k; lia).
  clearbody k.
  assert (Hget : exists D E,
             Ref.mpfr_get_str b n (heap L z) (rnd_code r)
             = ((if neg then "-" else "")
                  ++ string_of_list_ascii (Ref.digits_of b (S k) D []), E)).
  { unfold Ref.mpfr_get_str. rewrite Hval.
    replace (n =? 0) with false by (symmetry; apply Z.eqb_neq; lia).
    destruct (Ref.get_digits b n _ neg m e) as [D E]. rewrite Hk.
    exists D, E. reflexivity. }
  destruct Hget as (D & E & Hget).
  destruct (digits_of_cons b Hb k D []) as (d & rest & Hdig & Hd & Hlen).
  pose proof (digit_value_char b d Hb Hd) as Hv.
  pose proof (digits_of_nul_free b (S k) Hb D [] eq_refl) as Hnul.
  rewrite Hdig in Hget, Hnul. cbn [string_of_list_ascii] in Hget.
  cbn [List.length] in Hlen. rewrite Nat.add_0_r in Hlen.
  exists (Ref.digit_char b d), (string_of_list_ascii rest), E.
  split; [exact Hget | ].
  split; [rewrite string_of_list_ascii_length; lia | ].
  apply fr_tostring_regular.
  - exact Hb.
  - lia.
  - unfold Ref.mpfr_number_p. rewrite Hval. reflexivity.
  - unfold Ref.mpfr_zero_p. rewrite Hval. reflexivity.
  - exact Hget.
  - apply (digit_not b _ "-" d Hv). reflexivity.
  - rewrite list_ascii_of_string_of_list_ascii. exact Hnul.
  - assert (Hl : (String.length ((if neg then "-" else "")
                                   ++ String (Ref.digit_char b d)
                                        (string_of_list_ascii rest))
                  <= S (S k))%nat).
    { destruct neg; cbn [append String.length];
        rewrite string_of_list_ascii_length; lia. }
    lia.
Qed.

(** ** The layout, whatever the digit count *)

(** The room reserved for a digit count that is given, whatever the
    host's evaluation. *)
Lemma outbufsize_given (host_ceil : Z -> Z -> Z) (z : Ref.cell) (b n : Z) :
  1 <= n <= LUA_MAXINTEGER ->
  n + 3 <= to_size_t (_outbufsize Ref.cell Ref.mpfr_get_prec host_ceil z b n + 1).
Proof.
  unfold LUA_MAXINTEGER. intros Hn. unfold _outbufsize.
  replace (n =? 0) with false by (symmetry; apply Z.eqb_neq; lia).
  assert (Hsmall : forall x, 0 <= x <= n + 4 -> to_size_t x = x).
  { intros x Hx. unfold to_size_t, wrap_unsigned. apply Z.mod_small. lia. }
  destruct (Z.ltb_spec n 5) as [H5 | H5].
  - change (7 + 1) with 8. change (to_size_t 8) with 8. lia.
  - rewrite (Hsmall (n + 2)) by lia. rewrite Hsmall by lia. lia.
Qed.

(** C10 (the code, where the room suffices and at the failing inputs):
    for a regular number, a base b in [2, 62], a digit count n and a
    rounding mode r, the engine renders N digits d1 rest (after a minus
    sign for a negative value) with an exponent E, N being n, or
    get_str_ndigits (b, p) when n is 0.  With a digit count given, and
    with the digit count 0 where the host's evaluation [host_ceil] of
    ceil (p * log (2.0) / log (b)) in doubles is not below N - 1,
    tostring returns [-]d1.rest followed, exactly when E - 1 is not 0,
    by the exponent mark, [@] for b > 10 and [e] otherwise, and by E - 1
    in decimal; no cell changes.  With the digit count 0, a negative
    number and an evaluation below N - 1 (and at least 4), the engine
    writes past the end of the block and tostring has no defined
    result.  The engine is the reference semantics of get_str. *)
Theorem C10_tostring_layout :
  forall (luaO_str2num : string -> option (Z + double)) (host_ceil : Z -> Z -> Z)
         (z : addr) (b n : Z) (r : mpfr_rnd_t) (L : lua_State Ref.cell)
         (neg : bool) (m : positive) (e : Z),
    2 <= b <= 62 ->
    0 <= n <= LUA_MAXINTEGER ->
    Ref.val (heap L z) = Ref.Num neg m e ->
    let p := Zpos (Ref.prec (heap L z)) in
    let N := if n =? 0 then Ref.get_str_ndigits b p else n in
    let tostring :=
      fr_tostring luaO_str2num Ref.cell Ref.mpfr_get_str Ref.mpfr_number_p
                  Ref.mpfr_zero_p Ref.mpfr_signbit Ref.mpfr_get_prec host_ceil
                  [handle z; LInteger b; LInteger n; LInteger (rnd_code r)] L in
    exists (d1 : ascii) (rest : string) (E : Z),
      Ref.mpfr_get_str b n (heap L z) (rnd_code r)
      = ((if neg then "-" else "") ++ String d1 rest, E)
      /\ Z.of_nat (String.length rest) = N - 1
      /\ (n <> 0 \/ N - 1 <= host_ceil p b <= LUA_MAXINTEGER ->
          tostring = Ret [LString (layout neg d1 rest b E)] L)
      /\ (n = 0 -> neg = true ->
          4 <= host_ceil p b <= LUA_MAXINTEGER ->
          host_ceil p b + 2 <= N ->
          tostring = Undef).
Proof.
  intros str2num host_ceil z b n r L neg m e Hb Hn Hval p N tostring.
  assert (HN : 1 <= N).
  { unfold N. destruct (Z.eqb_spec n 0) as [E0 | E0]; [ | lia].
    apply get_str_ndigits_pos. lia. }
  set (k := Z.to_nat (N - 1)).
  assert (Hk : Z.to_nat N = S k) by (unfold k; lia).
  assert (Hkn : Z.of_nat k = N - 1) by (unfold k; lia).
  clearbody k.
  assert (Hget : exists D E,
             Ref.mpfr_get_str b n (heap L z) (rnd_code r)
             = ((if neg then "-" else "")
                  ++ string_of_list_ascii (Ref.digits_of b (S k) D []), E)).
  { unfold Ref.mpfr_get_str. rewrite Hval. fold p. fold N.
    destruct (Ref.get_digits b N _ neg m e) as [D E]. rewrite Hk.
    exists D, E. reflexivity. }
  destruct Hget as (D & E & Hget).
  destruct (digits_of_cons b Hb k D []) as (d & rest & Hdig & Hd & Hlen).
  pose proof (digit_value_char b d Hb Hd) as Hv.
  pose proof (digits_of_nul_free b (S k) Hb D [] eq_refl) as Hnul.
  rewrite Hdig in Hget, Hnul. cbn [string_of_list_ascii] in Hget.
  cbn [List.length] in Hlen. rewrite Nat.add_0_r in Hlen.
  exists (Ref.digit_char b d), (string_of_list_ascii rest), E.
  split; [exact Hget | ].
  split; [rewrite string_of_list_ascii_length; lia | ].
  split.
  - intros Hroom.
    assert (Hsz : N + 3
                  <= to_size_t (_outbufsize Ref.cell Ref.mpfr_get_prec host_ceil
                                            (heap L z) b n + 1)).
    { unfold N in *. destruct (Z.eqb_spec n 0) as [E0 | E0].
      - subst n. destruct Hroom as [Hne | Hhost]; [contradiction | ].
        apply outbufsize_room; [lia | exact Hhost].
      - apply outbufsize_given. lia. }
    unfold tostring. apply fr_tostring_regular.
    + exact Hb.
    + exact Hn.
    + unfold Ref.mpfr_number_p. rewrite Hval. reflexivity.
    + unfold Ref.mpfr_zero_p. rewrite Hval. reflexivity.
    + exact Hget.
    + apply (digit_not b _ "-" d Hv). reflexivity.
    + rewrite list_ascii_of_string_of_list_ascii. exact Hnul.
    + assert (Hl : (String.length ((if neg then "-" else "")
                                     ++ String (Ref.digit_char b d)
                                          (string_of_list_ascii rest))
                    <= S (S k))%nat).
      { destruct neg; cbn [append String.length];
          rewrite string_of_list_ascii_length; lia. }
      lia.
  - intros Hn0 Hneg H4 Hshort. subst n neg. unfold tostring.
    apply (tostring_short_block str2num host_ceil z b r L m e Hb Hval H4).
    exact Hshort.
Qed.

(** tostring (x, 10, 0, RNDN) for the cell of 53 bits that holds the
    double nearest to 0.1: the engine renders the 17 digits
    10000000000000001 with the exponent 0, ceil (53 * log (2.0) / log (10))
    is 16 in doubles, the size formula reserves 20 bytes, and the text
    is 1.0000000000000001e-1. *)
Lemma C10_witness :
  fr_tostring Host.str2num Ref.cell Ref.mpfr_get_str Ref.mpfr_number_p
              Ref.mpfr_zero_p Ref.mpfr_signbit Ref.mpfr_get_prec (fun _ _ => 16)
              [handle 3%nat; LInteger 10; LInteger 0; LInteger (rnd_code MPFR_RNDN)]
              Examples.state
  = Ret [LString (layout false "1" "0000000000000001" 10 0)] Examples.state.
Proof.
  destruct (C10_tostring_layout Host.str2num (fun _ _ => 16) 3%nat 10 0 MPFR_RNDN
              Examples.state false 3602879701896397 (-55))
    as (d1 & rest & E & Hget & _ & Hret & _).
  - lia.
  - unfold LUA_MAXINTEGER. lia.
  - reflexivity.
  - vm_compute in Hget. injection Hget as Hd Hr HE. subst d1 rest E.
    apply Hret. right. vm_compute. split; discriminate.
Defined.

(** * Precisions *)

(** Rounding to a precision the number fits leaves it as it is. *)
Lemma fround_canonical (p : positive) (r : mpfr_rnd_t) (z : Ref.cell) :
  Ref.canonical z = true ->
  Zpos (Ref.prec z) <= Zpos p ->
  Ref.fround (Zpos p) r (Ref.val z) = Ref.val z.
Proof.
  unfold Ref.canonical. intros Hcan Hp.
  apply andb_prop in Hcan. destruct Hcan as [_ Hcan].
  destruct (Ref.val z) as [ | neg | neg | neg m e]; try reflexivity.
  apply andb_prop in Hcan. destruct Hcan as [Hodd Hsize].
  apply Z.leb_le in Hsize. cbn [Ref.fround].
  pose proof (size_bounds m) as [_ Hhi].
  rewrite round_ratio_exact.
  - apply mk_num_odd. exact Hodd.
  - apply Z.lt_le_trans with (2 ^ Zpos (Pos.size m)); [exact Hhi | ].
    apply Z.pow_le_mono_r; lia.
Qed.

(** X19: a precision p within the bounds of the engine, which lie
    within long, is the precision get_prec returns after set_prec (z, p)
    and after prec_round (z, p, r), whatever the order in which the
    arguments are checked.  set_prec leaves NaN in z; prec_round to a
    precision that is not below the one of z leaves in z the number it
    held, in every rounding mode.  The engine is the reference
    semantics. *)
Theorem X19_precision_round_trip :
  forall (dm : data_model) (luaO_str2num : string -> option (Z + double))
         (limits : mpfr_limits) (o2 o3 : list nat) (z : addr) (p r : Z)
         (L : lua_State Ref.cell),
    is_order 2 o2 = true -> is_order 3 o3 = true ->
    1 <= MPFR_PREC_MIN limits -> MPFR_PREC_MAX limits <= LONG_MAX dm ->
    MPFR_PREC_MIN limits <= p <= MPFR_PREC_MAX limits ->
    let get_prec := fr_get_prec Ref.cell Ref.mpfr_get_prec [handle z] in
    let rounded := Ref.mpfr_prec_round (heap L z) p (to_int r) in
    bind (fr_set_prec dm luaO_str2num Ref.cell Ref.mpfr_set_prec limits o2
                      [handle z; LInteger p])
         (fun _ => get_prec) L
    = Ret [LInteger p] (set_cell L z (Ref.mkCell (Z.to_pos p) Ref.NaN))
    /\ bind (fr_prec_round dm luaO_str2num Ref.cell Ref.mpfr_prec_round limits o3
                           [handle z; LInteger p; LInteger r])
            (fun _ => get_prec) L
       = Ret [LInteger p] (set_cell L z rounded)
    /\ (Ref.canonical (heap L z) = true ->
        Zpos (Ref.prec (heap L z)) <= p ->
        Ref.val rounded = Ref.val (heap L z)).
Proof.
  intros dm str2num limits o2 o3 z p r L H2 H3 Hmin Hmax Hp get_prec rounded.
  assert (Hlo : LONG_MIN dm <= MPFR_PREC_MIN limits)
    by (destruct dm; unfold LONG_MIN; simpl; lia).
  assert (Ev : (MPFR_PREC_MIN limits <=? p) && (p <=? MPFR_PREC_MAX limits) = true).
  { apply andb_true_intro. split; apply Z.leb_le; lia. }
  assert (Hpos : Zpos (Z.to_pos p) = p) by (apply Z2Pos.id; lia).
  repeat match goal with |- _ /\ _ => split end.
  - erewrite bind_returns; [ | apply fr_set_prec_valid; assumption].
    unfold get_prec. rewrite fr_get_prec_handle, heap_set_cell.
    unfold Ref.mpfr_set_prec, Ref.mpfr_get_prec. cbn [Ref.prec]. rewrite Hpos.
    reflexivity.
  - erewrite bind_returns; [ | apply fr_prec_round_valid; assumption].
    unfold get_prec. rewrite fr_get_prec_handle, heap_set_cell.
    unfold rounded, Ref.mpfr_prec_round, Ref.mpfr_get_prec. cbn [Ref.prec].
    rewrite Hpos. reflexivity.
  - intros Hcan Hle. unfold rounded, Ref.mpfr_prec_round. cbn [Ref.val].
    apply fround_canonical; [exact Hcan | lia].
Qed.

(** * Rounding modes *)

(** X20: each of the five rounding modes is exported once, under the
    name the engine prints for it without its prefix MPFR_, as an
    integer that a rounding argument hands to the engine as that mode
    and that, set as the default rounding mode, is what
    get_default_rounding_mode returns, no number being written.  An
    integer that is, as a C [int], below 0 or above 5 leaves the default
    rounding mode as it was.  The engine is the reference semantics. *)
Theorem X20_exported_rounding_modes :
  forall (luaO_str2num : string -> option (Z + double)) (L : lua_State Ref.cell),
    let set_then_get (v : lua_value) :=
      bind (fr_set_default_rounding_mode luaO_str2num Ref.cell
                                         Ref.new_default_rounding_mode [v])
           (fun _ => fr_get_default_rounding_mode Ref.cell []) L in
    NoDup (map fst _reg_rnd)
    /\ (forall r : mpfr_rnd_t,
           let v := LInteger (rnd_code r) in
           (exists name : string,
               ("MPFR_" ++ name)%string = mpfr_print_rnd_mode r
               /\ In (name, v) _reg_rnd)
           /\ (forall (args : list lua_value) (i : nat),
                  index args i = Some v ->
                  _opt_rnd luaO_str2num Ref.cell args i L = Ret (rnd_code r) L)
           /\ Ref.rnd_of_int (rnd_code r) = r
           /\ set_then_get v = Ret [v] (mkState (heap L) (rnd_code r)))
    /\ (forall (name : string) (v : lua_value),
           In (name, v) _reg_rnd -> exists r : mpfr_rnd_t, v = LInteger (rnd_code r))
    /\ (forall k : Z,
           to_int k < 0 \/ 5 < to_int k ->
           set_then_get (LInteger k) = Ret [LInteger (default_rounding_mode L)] L).
Proof.
  intros str2num L set_then_get.
  repeat match goal with |- _ /\ _ => split end.
  - cbn. repeat constructor; cbn; intuition discriminate.
  - intros r v.
    repeat match goal with |- _ /\ _ => split end.
    + destruct r;
        [ exists "RNDN"%string | exists "RNDZ"%string | exists "RNDU"%string
        | exists "RNDD"%string | exists "RNDA"%string ];
        (split; [reflexivity | cbn; tauto]).
    + intros args i Hi.
      rewrite (opt_rnd_integer str2num Ref.cell args i (rnd_code r) L Hi).
      destruct r; reflexivity.
    + apply rnd_of_int_code.
    + unfold set_then_get, v. rewrite set_then_get_default_rounding_mode.
      destruct r; reflexivity.
  - intros name v H. cbn in H.
    destruct H as [H | [H | [H | [H | [H | []]]]]]; injection H as _ <-.
    + exists MPFR_RNDA. reflexivity.
    + exists MPFR_RNDD. reflexivity.
    + exists MPFR_RNDU. reflexivity.
    + exists MPFR_RNDZ. reflexivity.
    + exists MPFR_RNDN. reflexivity.
  - intros k Hk. unfold set_then_get.
    rewrite set_then_get_default_rounding_mode. cbv zeta.
    unfold Ref.new_default_rounding_mode.
    replace ((0 <=? to_int k) && (to_int k <=? 5)) with false.
    + destruct L. reflexivity.
    + symmetry. apply andb_false_iff.
      destruct Hk; [left; apply Z.leb_gt | right; apply Z.leb_gt]; lia.
Qed.

(** * The hypotheses of the statements above, at concrete calls *)

(** set_inf (1, "x") fails both of its checks: checked in the two
    orders, it raises an error in each, on the state as it was. *)
Lemma X1_witness :
  same_but_error Ref.cell Examples.state
    (fr_set_inf Host.str2num Ref.cell Ref.mpfr_set_inf [0; 1]%nat
                [LInteger 1; LString "x"] Examples.state)
    (fr_set_inf Host.str2num Ref.cell Ref.mpfr_set_inf [1; 0]%nat
                [LInteger 1; LString "x"] Examples.state).
Proof.
  refine (proj1 (X1_order_of_argument_checks LP64 Host.str2num Ref.cell
                   Ref.mpfr_set_inf Ref.mpfr_set_zero
                   (fun z _ _ _ _ => z) (fun z _ _ _ _ => z)
                   Ref.mpfr_set_prec Ref.mpfr_prec_round (fun _ _ _ _ _ => true)
                   {| prec_min := 1; prec_max := Ref.MPFR_PREC_MAX |}
                   [0; 1]%nat [1; 0]%nat [0; 1; 2]%nat [2; 1; 0]%nat
                   [0; 1; 2; 3]%nat [3; 2; 1; 0]%nat
                   [0; 1; 2; 3; 4]%nat [4; 3; 2; 1; 0]%nat
                   _ _ _ _ _ _ _ _)
                [LInteger 1; LString "x"] Examples.state);
    reflexivity.
Defined.

(** add (z, 3, h) and add (z, h, 3) with the rounding mode left out,
    the default one being RNDN. *)
Lemma X7_witness :
  fn2_closure LP64 Host.str2num Ref.cell
    (fn2_add Ref.cell Ref.mpfr_add Ref.mpfr_add_si Ref.mpfr_add_d)
    (with_rnd [handle 0%nat; LInteger 3; handle 1%nat] None) Examples.state
  = fn2_closure LP64 Host.str2num Ref.cell
      (fn2_add Ref.cell Ref.mpfr_add Ref.mpfr_add_si Ref.mpfr_add_d)
      (with_rnd [handle 0%nat; handle 1%nat; LInteger 3] None) Examples.state.
Proof.
  destruct (X7_add_and_mul_exchange_operands LP64 Host.str2num Ref.cell
              Ref.mpfr_add (fun z _ _ _ => z) Ref.mpfr_add_si (fun z _ _ _ => z)
              Ref.mpfr_add_d (fun z _ _ _ => z)
              0%nat 1%nat 3 Examples.four None MPFR_RNDN Examples.state eq_refl)
    as [[H1 H2] _].
  exact (eq_trans H1 (eq_sym H2)).
Defined.

(** pow (z, -1, h) and pow (z, 0.5, h), for the handle h = 1 and the
    double 0.5. *)
Lemma X8_witness :
  fr_pow LP64 Host.str2num Ref.cell Ref.mpfr_ui_pow_ui (fun z _ _ _ => z)
         Ref.mpfr_pow_si Ref.mpfr_pow_ui (fun z _ _ _ => z)
         (with_rnd [handle 0%nat; LInteger (-1); handle 1%nat] None) Examples.state
  = Raise (ArgError 2 out_of_ulong) Examples.state.
Proof.
  refine (proj1 (X8_pow_refuses_fractions_and_negative_bases LP64 Host.str2num Ref.cell
                   Ref.mpfr_ui_pow_ui (fun z _ _ _ => z)
                   Ref.mpfr_pow_si Ref.mpfr_pow_ui (fun z _ _ _ => z)
                   0%nat 1%nat (-1) (S754_finite false 4503599627370496 (-53))
                   (handle 1%nat) None Examples.state _ _)).
  - lia.
  - reflexivity.
Defined.

(** The double 4.0 converts to the integer 4: root (z, x, 4.0) is
    root (z, x, 4). *)
Lemma X9_witness :
  fr_root LP64 Host.str2num Ref.cell (fun z _ _ _ => z)
          [handle 0%nat; handle 1%nat; LFloat Examples.four] Examples.state
  = fr_root LP64 Host.str2num Ref.cell (fun z _ _ _ => z)
            [handle 0%nat; handle 1%nat; LInteger 4] Examples.state.
Proof.
  refine (proj1 (X9_values_that_convert_to_an_integer LP64 Host.str2num Ref.cell
                   (fun z _ _ => z) Ref.mpfr_ui_pow_ui (fun z _ _ _ => z)
                   Ref.mpfr_pow_si Ref.mpfr_pow_ui (fun z _ _ _ => z)
                   Ref.mpfr_get_str Ref.mpfr_number_p Ref.mpfr_zero_p Ref.mpfr_signbit
                   Ref.mpfr_get_prec Ref.ceil_log_ratio (fun z _ _ _ => z)
                   Ref.mpfr_set_prec Ref.mpfr_prec_round
                   {| prec_min := 1; prec_max := Ref.MPFR_PREC_MAX |}
                   (LFloat Examples.four) 4 _
                   (handle 0%nat) (handle 1%nat) [] [0; 1]%nat [] Examples.state)).
  reflexivity.
Defined.

(** fac (z, nil) *)
Lemma X10_witness :
  fr_fac LP64 Host.str2num Ref.cell (fun z _ _ => z)
         (with_rnd [handle 0%nat; LNil] None) Examples.state
  = Ret [handle 0%nat]
        (set_cell Examples.state 0%nat (heap Examples.state 0%nat)).
Proof.
  refine (proj1 (X10_fac_reads_what_is_no_integer_as_zero LP64 Host.str2num Ref.cell
                   (fun z _ _ => z) 0%nat LNil None Examples.state _)).
  reflexivity.
Defined.

(** cmp (x, 2^62) on a host whose long has 64 bits. *)
Lemma X11_witness :
  fr_cmp LP64 Host.str2num Ref.cell (fun _ _ => 0) (fun _ n => n) (fun _ _ => 0)
         [handle 1%nat; LInteger (2 ^ 62)] Examples.state
  = Ret [LInteger (2 ^ 62)] Examples.state.
Proof.
  refine (proj2 (X11_cmp_with_an_integer LP64 Host.str2num Ref.cell
                   (fun _ _ => 0) (fun _ n => n) (fun _ _ => 0)
                   1%nat (2 ^ 62) Examples.state) _ _).
  - reflexivity.
  - unfold LUA_MININTEGER, LUA_MAXINTEGER. lia.
Defined.

(** set_prec (z, 100) where precisions go from 1 to 2^63 - 257. *)
Lemma X12_witness :
  fr_set_prec LP64 Host.str2num Ref.cell Ref.mpfr_set_prec
              {| prec_min := 1; prec_max := Ref.MPFR_PREC_MAX |}
              [1; 0]%nat [handle 0%nat; LInteger 100] Examples.state
  = Ret [] (set_cell Examples.state 0%nat
                     (Ref.mpfr_set_prec (heap Examples.state 0%nat) 100)).
Proof.
  refine (proj1 (X12_precisions_are_validated LP64 Host.str2num Ref.cell
                   Ref.mpfr_set_prec Ref.mpfr_prec_round (fun _ _ _ _ _ => true)
                   {| prec_min := 1; prec_max := Ref.MPFR_PREC_MAX |}
                   [1; 0]%nat [0; 1; 2]%nat [0; 1; 2; 3; 4]%nat
                   0%nat 100 0 0 0 0 Examples.state _ _ _ _ _)).
  - reflexivity.
  - reflexivity.
  - reflexivity.
  - unfold LONG_MIN. simpl. lia.
  - unfold LONG_MAX, MPFR_PREC_MAX, Ref.MPFR_PREC_MAX. simpl. lia.
Defined.

(** An operation that copies its operand into its two destinations, on
    the handles 0 and 1 with the operand 2. *)
Lemma X13_witness :
  exists x y : addr,
    index [handle 0%nat; handle 1%nat; handle 2%nat] 1 = Some (handle x)
    /\ index [handle 0%nat; handle 1%nat; handle 2%nat] 2 = Some (handle y)
    /\ [handle 0%nat; handle 1%nat] = [handle x; handle y]
    /\ same_except Ref.cell [x; y] Examples.state
         (set_cell
            (set_cell Examples.state 0%nat
               (Ref.mpfr_set (heap Examples.state 0%nat) (heap Examples.state 2%nat) 0))
            1%nat
            (Ref.mpfr_set (heap Examples.state 1%nat) (heap Examples.state 2%nat) 0)).
Proof.
  refine (X13_two_destinations_are_returned Host.str2num Ref.cell
            [Some (Fn_fr2 Ref.cell
                     (fun x y z r => (Ref.mpfr_set x z r, Ref.mpfr_set y z r)))]
            [handle 0%nat; handle 1%nat; handle 2%nat]
            [handle 0%nat; handle 1%nat] Examples.state _ _).
  reflexivity.
Defined.

(** set (z, 5, nil, RNDU) on the cell of two bits: 5 rounds up to 6. *)
Lemma X15_witness :
  fr_set LP64 Host.str2num Host.number2str Ref.cell Ref.mpfr_set_si
         Ref.mpfr_set_d Ref.mpfr_set Ref.mpfr_set_str
         (with_rnd [handle 0%nat; LInteger 5; LNil] (Some (rnd_code MPFR_RNDU)))
         Examples.state
  = Ret [handle 0%nat]
        (set_cell Examples.state 0%nat
                  (Ref.mpfr_set_si (heap Examples.state 0%nat) 5 (rnd_code MPFR_RNDU))).
Proof.
  refine (proj1 (proj2 (X15_set_with_an_integer_and_no_base LP64 Host.str2num
                          Host.number2str 0%nat 5 (Some MPFR_RNDU) MPFR_RNDN
                          Examples.state _))).
  reflexivity.
Defined.

(** set (z, 5) and tonumber (z) on the cell of 53 bits. *)
Lemma X16_witness :
  fr_tonumber LP64 Host.str2num Ref.cell Ref.mpfr_integer_p
              (Ref.mpfr_fits_slong_p LP64) (Ref.mpfr_get_si LP64)
              (fun _ _ => S754_zero false)
              (with_rnd [handle 1%nat] None)
              (set_cell Examples.state 1%nat
                        (Ref.put (heap Examples.state 1%nat) (Ref.of_Z 5)))
  = Ret [LInteger 5]
        (set_cell Examples.state 1%nat
                  (Ref.put (heap Examples.state 1%nat) (Ref.of_Z 5))).
Proof.
  refine (proj2 (X16_integer_round_trip LP64 Host.str2num Host.number2str
                   (fun _ _ => S754_zero false) 1%nat 5 None Examples.state _ _)).
  - unfold LONG_MIN, LONG_MAX. simpl. lia.
  - simpl. lia.
Defined.

(** set_inf (z, -1) and tostring (z) *)
Lemma X17_witness :
  bind (fr_set_inf Host.str2num Ref.cell Ref.mpfr_set_inf [1; 0]%nat
                   [handle 0%nat; LInteger (-1)])
       (fun _ => fr_tostring Host.str2num Ref.cell Ref.mpfr_get_str Ref.mpfr_number_p
                             Ref.mpfr_zero_p Ref.mpfr_signbit Ref.mpfr_get_prec
                             Ref.ceil_log_ratio [handle 0%nat])
       Examples.state
  = Ret [LString "-@Inf@"]
        (set_cell Examples.state 0%nat
                  (Ref.put (heap Examples.state 0%nat) (Ref.Inf true))).
Proof.
  refine (proj1 (proj2 (X17_special_values_as_text Host.str2num [1; 0]%nat
                          0%nat (-1) 10 0 0 [handle 0%nat] Examples.state _ _ _))).
  - reflexivity.
  - lia.
  - left. reflexivity.
Defined.

(** tostring (x, 10, 3, RNDN) for the cell that holds 0.75. *)
Lemma X18_witness :
  exists (d1 : ascii) (rest : string) (E : Z),
    Ref.mpfr_get_str 10 3 (heap Examples.state 1%nat) (rnd_code MPFR_RNDN)
    = (("" ++ String d1 rest)%string, E)
    /\ Z.of_nat (String.length rest) = 3 - 1
    /\ fr_tostring Host.str2num Ref.cell Ref.mpfr_get_str Ref.mpfr_number_p
                   Ref.mpfr_zero_p Ref.mpfr_signbit Ref.mpfr_get_prec
                   Ref.ceil_log_ratio
                   [handle 1%nat; LInteger 10; LInteger 3; LInteger (rnd_code MPFR_RNDN)]
                   Examples.state
       = Ret [LString (layout false d1 rest 10 E)] Examples.state.
Proof.
  refine (X18_tostring_with_a_digit_count Host.str2num 1%nat 10 3 MPFR_RNDN
            Examples.state false 3%positive (-2) _ _ _).
  - lia.
  - unfold LUA_MAXINTEGER. lia.
  - reflexivity.
Defined.

(** set_prec (z, 64) and get_prec (z) *)
Lemma X19_witness :
  bind (fr_set_prec LP64 Host.str2num Ref.cell Ref.mpfr_set_prec
                    {| prec_min := 1; prec_max := Ref.MPFR_PREC_MAX |}
                    [1; 0]%nat [handle 1%nat; LInteger 64])
       (fun _ => fr_get_prec Ref.cell Ref.mpfr_get_prec [handle 1%nat])
       Examples.state
  = Ret [LInteger 64] (set_cell Examples.state 1%nat (Ref.mkCell 64 Ref.NaN)).
Proof.
  refine (proj1 (X19_precision_round_trip LP64 Host.str2num
                   {| prec_min := 1; prec_max := Ref.MPFR_PREC_MAX |}
                   [1; 0]%nat [0; 1; 2]%nat 1%nat 64 0 Examples.state _ _ _ _ _)).
  - reflexivity.
  - reflexivity.
  - unfold MPFR_PREC_MIN. simpl. lia.
  - unfold LONG_MAX, MPFR_PREC_MAX, Ref.MPFR_PREC_MAX. simpl. lia.
  - unfold MPFR_PREC_MIN, MPFR_PREC_MAX, Ref.MPFR_PREC_MAX. simpl. lia.
Defined.
